(** * AgentDB core: a shallow embedding of the index engine and its properties

    The development follows [src/agentdb/core.py], [src/agentdb/focus.py] and
    [src/agentdb/migrations/__init__.py].  Python [str] values are modelled as
    [string] (sequences of code points below 256), Python [int] as [Z], lists
    as [list], [None]-able values as [option], raised exceptions as the [Err]
    branch of [result]. *)

From Stdlib Require Import List String Ascii ZArith Lia Bool Arith PeanoNat.
From Stdlib Require Import Decimal DecimalString DecimalNat Permutation Sorted.
From Stdlib Require OrderedTypeEx.
Import ListNotations.

Local Open Scope string_scope.
Local Open Scope Z_scope.

(** ** Outcomes of fallible code *)

Inductive result (E A : Type) : Type :=
| Ok (a : A)
| Err (e : E).
Arguments Ok {E A} a.
Arguments Err {E A} e.

(** ** Python string primitives *)

Module PyStr.

Definition empty : string := EmptyString.
Definition nl : string := String "010" EmptyString.
Definition tab : string := String "009" EmptyString.
Definition dquote : string := String "034" EmptyString.
Definition backslash : string := String "092" EmptyString.

Definition code (c : ascii) : N := N_of_ascii c.

(** Line boundaries of [str.splitlines]: LF, VT, FF, CR, FS, GS, RS, NEL. *)
Definition is_linebreak (c : ascii) : bool :=
  let n := code c in
  ((10 <=? n) && (n <=? 13) || (28 <=? n) && (n <=? 30) || (n =? 133))%N.

(** Characters removed by [str.strip()] with no argument. *)
Definition is_space (c : ascii) : bool :=
  let n := code c in
  ((9 <=? n) && (n <=? 13) || (28 <=? n) && (n <=? 32) || (n =? 133) || (n =? 160))%N.

Definition is_digit (c : ascii) : bool :=
  let n := code c in ((48 <=? n) && (n <=? 57))%N.

Definition is_empty (s : string) : bool :=
  match s with EmptyString => true | String _ _ => false end.

(** [s.splitlines()] *)
Fixpoint splitlines (s : string) : list string :=
  match s with
  | EmptyString => []
  | String c rest =>
      if is_linebreak c then
        EmptyString ::
          match rest with
          | String c' rest' =>
              if ((code c =? 13) && (code c' =? 10))%N
              then splitlines rest' else splitlines rest
          | EmptyString => []
          end
      else
        match splitlines rest with
        | [] => [String c EmptyString]
        | l :: ls => String c l :: ls
        end
  end.

(** [sep.join(parts)] *)
Definition join (sep : string) (parts : list string) : string :=
  String.concat sep parts.

Definition startswith (s p : string) : bool := String.prefix p s.

(** [s.endswith("\n")] *)
Fixpoint ends_with_nl (s : string) : bool :=
  match s with
  | EmptyString => false
  | String c EmptyString => (code c =? 10)%N
  | String _ rest => ends_with_nl rest
  end.

(** [s.rstrip("\n")] *)
Fixpoint rstrip_nl (s : string) : string :=
  match s with
  | EmptyString => EmptyString
  | String c rest =>
      let rest' := rstrip_nl rest in
      if ((code c =? 10)%N && is_empty rest')%bool then EmptyString
      else String c rest'
  end.

Fixpoint lstrip (s : string) : string :=
  match s with
  | EmptyString => EmptyString
  | String c rest => if is_space c then lstrip rest else s
  end.

Fixpoint rstrip (s : string) : string :=
  match s with
  | EmptyString => EmptyString
  | String c rest =>
      let rest' := rstrip rest in
      if (is_space c && is_empty rest')%bool then EmptyString
      else String c rest'
  end.

(** [s.strip()] *)
Definition strip (s : string) : string := rstrip (lstrip s).

(** [s[n:]] for a non-negative literal [n] *)
Fixpoint drop (n : nat) (s : string) : string :=
  match n, s with
  | O, _ => s
  | S _, EmptyString => EmptyString
  | S n', String _ rest => drop n' rest
  end.

(** [s.split(sep)] for a one-character separator *)
Fixpoint split_on (sep : ascii) (s : string) : list string :=
  match s with
  | EmptyString => [EmptyString]
  | String c rest =>
      if Ascii.eqb c sep then EmptyString :: split_on sep rest
      else match split_on sep rest with
           | [] => [String c EmptyString]
           | p :: ps => String c p :: ps
           end
  end.

(** [s.split("\t")[0]] *)
Definition before_tab (s : string) : string :=
  match split_on "009" s with
  | p :: _ => p
  | [] => EmptyString
  end.

(** [s.find(pat)]; [None] stands for the result [-1]. *)
Fixpoint find (pat s : string) : option nat :=
  if String.prefix pat s then Some O
  else match s with
       | EmptyString => None
       | String _ rest => option_map S (find pat rest)
       end.

(** [s.rfind(pat)]; [None] stands for the result [-1]. *)
Fixpoint rfind (pat s : string) : option nat :=
  match s with
  | EmptyString => if String.prefix pat s then Some O else None
  | String _ rest =>
      match rfind pat rest with
      | Some k => Some (S k)
      | None => if String.prefix pat s then Some O else None
      end
  end.

(** [pat in s] *)
Definition contains (pat s : string) : bool :=
  match find pat s with Some _ => true | None => false end.

(** [s[a:b]] for [0 <= a] *)
Definition substr (a b : nat) (s : string) : string :=
  String.substring a (b - a) s.

(** [int(ds)] for a run of ASCII digits *)
Fixpoint int_of_digits_acc (ds : string) (acc : Z) : Z :=
  match ds with
  | EmptyString => acc
  | String c rest => int_of_digits_acc rest (10 * acc + (Z.of_N (code c) - 48))
  end.

Definition int_of_digits (ds : string) : Z := int_of_digits_acc ds 0.

(** The longest run of digits at the front of [s], and what follows it. *)
Fixpoint take_digits (s : string) : string * string :=
  match s with
  | EmptyString => (EmptyString, EmptyString)
  | String c rest =>
      if is_digit c then
        let (ds, r) := take_digits rest in (String c ds, r)
      else (EmptyString, s)
  end.

(** [str(n)] for a natural number *)
Definition str_of_nat (n : nat) : string :=
  NilEmpty.string_of_uint (Nat.to_uint n).

(** [os.path.normpath] on POSIX. *)
Definition normpath_push (acc : list string) (initial_slashes : nat) (comp : string)
  : list string :=
  if (is_empty comp || String.eqb comp ".")%bool then acc
  else if (negb (String.eqb comp "..")
           || ((initial_slashes =? 0)%nat && match acc with [] => true | _ => false end)
           || match acc with c :: _ => String.eqb c ".." | [] => false end)%bool
       then comp :: acc
       else match acc with
            | _ :: acc' => acc'
            | [] => acc
            end.

Fixpoint repeat_slash (n : nat) : string :=
  match n with O => EmptyString | S n' => String "/" (repeat_slash n') end.

Definition normpath (path : string) : string :=
  if is_empty path then "."
  else
    let initial_slashes : nat :=
      if startswith path "/" then
        if (startswith path "//" && negb (startswith path "///"))%bool then 2%nat
        else 1%nat
      else 0%nat in
    let comps := fold_left (fun acc c => normpath_push acc initial_slashes c)
                           (split_on "/" path) [] in
    let p := repeat_slash initial_slashes ++ join "/" (List.rev comps) in
    if is_empty p then "." else p.

End PyStr.


(** ** Diff patch engine ([apply_unified_diff_to_text]) *)

Module Diff.
Import PyStr.

(** The [ValueError]s raised by [apply_unified_diff_to_text]. *)
Inductive diff_error : Type :=
| MissingOriginalHeader   (* "Diff is missing original file header" *)
| TargetMismatch          (* "Diff targets ... but patch path is ..." *)
| MalformedHunkHeader     (* "Malformed hunk header: ..." *)
| OverlappingHunks        (* "Overlapping hunks or repeated context in diff" *)
| ContextMismatch         (* "Context line mismatch while applying diff" *)
| DeletionMismatch        (* "Deletion line mismatch while applying diff" *)
| UnsupportedLine         (* "Unsupported diff line: ..." *)
| NoHunks.                (* "Diff contained no hunks to apply" *)

(** [line[4:].strip().split("\t")[0]] *)
Definition header_field (line : string) : string :=
  before_tab (strip (drop 4 line)).

(** The local function [normalize_header]. *)
Definition normalize_header (header : string) : string :=
  normpath (if (startswith header "a/" || startswith header "b/")%bool
            then drop 2 header else header).

(** The optional group [(?:,(\d+))?]: taken when a comma and at least one
    digit follow, skipped otherwise. *)
Definition skip_count (s : string) : string :=
  match s with
  | String "," rest =>
      let (ds, r) := take_digits rest in
      if is_empty ds then s else r
  | _ => s
  end.

Definition expect (p s : string) : option string :=
  if startswith s p then Some (drop (String.length p) s) else None.

(** [re.match(r"@@ -(\d+)(?:,(\d+))? \+(\d+)(?:,(\d+))? @@", line)] followed by
    [int(m.group(1))].  Every alternative of the pattern is decided by the
    next character, so the match is computed left to right. *)
Definition parse_hunk_header (line : string) : option Z :=
  match expect "@@ -" line with
  | None => None
  | Some s1 =>
      let (a_digits, s2) := take_digits s1 in
      if is_empty a_digits then None
      else
        match expect " +" (skip_count s2) with
        | None => None
        | Some s3 =>
            let (b_digits, s4) := take_digits s3 in
            if is_empty b_digits then None
            else
              match expect " @@" (skip_count s4) with
              | None => None
              | Some _ => Some (int_of_digits a_digits)
              end
        end
  end.

(** [lines[a:b]] for [0 <= a <= b] *)
Definition slice (lines : list string) (a b : Z) : list string :=
  firstn (Z.to_nat (b - a)) (skipn (Z.to_nat a) lines).

(** [idx >= len(original_lines) or original_lines[idx] != expected] *)
Definition line_differs (original_lines : list string) (idx : Z) (expected : string)
  : bool :=
  if idx >=? Z.of_nat (List.length original_lines) then true
  else match nth_error original_lines (Z.to_nat idx) with
       | Some l => negb (String.eqb l expected)
       | None => true
       end.

(** The loop variables of [apply_unified_diff_to_text].  [in_hunk] tells
    whether control is inside the inner [while] (the hunk body). *)
Record loop_state : Type := mkLoop {
  idx : Z;
  patched_lines : list string;
  current_file : option string;
  applied_hunk : bool;
  in_hunk : bool
}.

Definition loop_init : loop_state :=
  mkLoop 0 [] None false false.

(** The lines on which the inner [while] breaks. *)
Definition breaks_hunk (line : string) : bool :=
  (startswith line "@@ " || startswith line "--- " || startswith line "+++ ")%bool.

(** One iteration of the inner [while] on a line that does not break it. *)
Definition hunk_line_step (original_lines : list string) (st : loop_state)
  (hunk_line : string) : result diff_error loop_state :=
  if startswith hunk_line (backslash ++ " No newline at end of file") then Ok st
  else if startswith hunk_line " " then
    let expected := drop 1 hunk_line in
    if line_differs original_lines (idx st) expected then Err ContextMismatch
    else Ok (mkLoop (idx st + 1) (patched_lines st ++ [expected])
                    (current_file st) (applied_hunk st) true)
  else if startswith hunk_line "-" then
    let expected := drop 1 hunk_line in
    if line_differs original_lines (idx st) expected then Err DeletionMismatch
    else Ok (mkLoop (idx st + 1) (patched_lines st)
                    (current_file st) (applied_hunk st) true)
  else if startswith hunk_line "+" then
    Ok (mkLoop (idx st) (patched_lines st ++ [drop 1 hunk_line])
               (current_file st) (applied_hunk st) true)
  else Err UnsupportedLine.

(** One iteration of the outer [while]. *)
Definition outer_line_step (original_lines : list string) (repo_path : string)
  (st : loop_state) (line : string) : result diff_error loop_state :=
  if startswith line "--- " then
    Ok (mkLoop (idx st) (patched_lines st) (Some (header_field line))
               (applied_hunk st) false)
  else if startswith line "+++ " then
    match current_file st with
    | None => Err MissingOriginalHeader
    | Some _ =>
        if String.eqb (normalize_header (header_field line)) (normpath repo_path)
        then Ok (mkLoop (idx st) (patched_lines st) (current_file st)
                        (applied_hunk st) false)
        else Err TargetMismatch
    end
  else if startswith line "@@ " then
    match parse_hunk_header line with
    | None => Err MalformedHunkHeader
    | Some a_start =>
        let desired_idx := a_start - 1 in
        if desired_idx <? idx st then Err OverlappingHunks
        else Ok (mkLoop desired_idx
                        (patched_lines st ++ slice original_lines (idx st) desired_idx)
                        (current_file st) true true)
    end
  else Ok (mkLoop (idx st) (patched_lines st) (current_file st)
                  (applied_hunk st) false).

(** The two nested [while] loops over [diff_lines]: every diff line is looked
    at once, by the inner loop when a hunk is open and the line does not break
    it, by the outer loop otherwise. *)
Fixpoint run_loop (original_lines : list string) (repo_path : string)
  (diff_lines : list string) (st : loop_state) : result diff_error loop_state :=
  match diff_lines with
  | [] => Ok st
  | line :: rest =>
      let r := if (in_hunk st && negb (breaks_hunk line))%bool
               then hunk_line_step original_lines st line
               else outer_line_step original_lines repo_path st line in
      match r with
      | Ok st' => run_loop original_lines repo_path rest st'
      | Err e => Err e
      end
  end.

Definition apply_unified_diff_to_text (original diff_text repo_path : string)
  : result diff_error string :=
  let diff_lines := splitlines diff_text in
  let original_lines := splitlines original in
  let original_has_trailing_newline := ends_with_nl original in
  match run_loop original_lines repo_path diff_lines loop_init with
  | Err e => Err e
  | Ok st =>
      let patched := (patched_lines st ++ skipn (Z.to_nat (idx st)) original_lines)%list in
      if negb (applied_hunk st) then Err NoHunks
      else
        let result := join nl patched in
        if (original_has_trailing_newline && negb (ends_with_nl result))%bool
        then Ok (result ++ nl)
        else Ok result
  end.

(** *** Unified diffs as data

    A diff that describes an edit of a file: for each hunk, the number of
    untouched lines between the previous hunk and this one, and the hunk's
    lines.  [edit_lines] is the edit the diff describes, [diff_text] the text a
    diff tool writes for it. *)

Inductive hunk_line : Type :=
| Context (l : string)
| Deletion (l : string)
| Addition (l : string)
| NoNewlineMarker.

Record hunk : Type := mkHunk {
  hunk_gap : nat;
  hunk_body : list hunk_line
}.

(** Applies a hunk body to the lines that remain of the old file: the new
    lines it yields and the old lines left. *)
Fixpoint edit_body (body : list hunk_line) (old : list string)
  : option (list string * list string) :=
  match body with
  | [] => Some ([], old)
  | Context l :: body' =>
      match old with
      | o :: old' =>
          if String.eqb o l then
            option_map (fun r => (l :: fst r, snd r)) (edit_body body' old')
          else None
      | [] => None
      end
  | Deletion l :: body' =>
      match old with
      | o :: old' => if String.eqb o l then edit_body body' old' else None
      | [] => None
      end
  | Addition l :: body' =>
      option_map (fun r => (l :: fst r, snd r)) (edit_body body' old)
  | NoNewlineMarker :: body' => edit_body body' old
  end.

(** The lines of the new file, from the lines of the old one. *)
Fixpoint edit_lines (hunks : list hunk) (old : list string) : option (list string) :=
  match hunks with
  | [] => Some old
  | h :: hunks' =>
      if (hunk_gap h <=? List.length old)%nat then
        match edit_body (hunk_body h) (skipn (hunk_gap h) old) with
        | Some (new, old') =>
            option_map (fun r => (firstn (hunk_gap h) old ++ new ++ r)%list)
                       (edit_lines hunks' old')
        | None => None
        end
      else None
  end.

Definition old_count (body : list hunk_line) : nat :=
  List.length (filter (fun l => match l with Context _ | Deletion _ => true
                                        | _ => false end) body).

Definition new_count (body : list hunk_line) : nat :=
  List.length (filter (fun l => match l with Context _ | Addition _ => true
                                        | _ => false end) body).

Definition render_line (l : hunk_line) : string :=
  match l with
  | Context s => " " ++ s
  | Deletion s => "-" ++ s
  | Addition s => "+" ++ s
  | NoNewlineMarker => backslash ++ " No newline at end of file"
  end.

(** A range of a hunk header: [start,count], where an empty range names the
    line before it. *)
Definition render_range (before count : nat) : string :=
  str_of_nat (if (count =? 0)%nat then before else S before) ++ "," ++ str_of_nat count.

Definition render_hunk_header (old_before new_before : nat) (body : list hunk_line)
  : string :=
  "@@ -" ++ render_range old_before (old_count body)
         ++ " +" ++ render_range new_before (new_count body) ++ " @@".

(** The diff lines of the hunks, [old_before] and [new_before] being the
    numbers of old and new lines that precede them. *)
Fixpoint render_hunks (hunks : list hunk) (old_before new_before : nat) : list string :=
  match hunks with
  | [] => []
  | h :: hunks' =>
      let ob := (old_before + hunk_gap h)%nat in
      let nb := (new_before + hunk_gap h)%nat in
      render_hunk_header ob nb (hunk_body h)
        :: (map render_line (hunk_body h)
            ++ render_hunks hunks' (ob + old_count (hunk_body h))%nat
                                   (nb + new_count (hunk_body h))%nat)%list
  end.

Definition diff_lines_of (path : string) (hunks : list hunk) : list string :=
  ("--- a/" ++ path) :: ("+++ b/" ++ path) :: render_hunks hunks 0 0.

(** The text of the diff: its lines, each ended by a newline. *)
Definition diff_text (path : string) (hunks : list hunk) : string :=
  join nl (diff_lines_of path hunks) ++ nl.

(** No character of the text is a line boundary. *)
Fixpoint one_line (s : string) : bool :=
  match s with
  | EmptyString => true
  | String c rest => (negb (is_linebreak c) && one_line rest)%bool
  end.

Fixpoint no_tab (s : string) : bool :=
  match s with
  | EmptyString => true
  | String c rest => (negb (Ascii.eqb c "009") && no_tab rest)%bool
  end.

(** A path that a header line carries unchanged: one line, no tab, no
    white space at its end. *)
Definition plain_path (path : string) : bool :=
  (one_line path && no_tab path && String.eqb (rstrip path) path)%bool.

(** A hunk line that the diff format does not confuse with a header: a
    deleted line does not begin with ["-- "], an added line is one line of
    text and does not begin with ["++ "]. *)
Definition plain_line (l : hunk_line) : bool :=
  match l with
  | Context _ => true
  | Deletion s => negb (startswith s "-- ")
  | Addition s => (one_line s && negb (startswith s "++ "))%bool
  | NoNewlineMarker => true
  end.

(** A hunk with at least one line of the old file, made of plain lines. *)
Definition plain_hunk (h : hunk) : bool :=
  ((1 <=? old_count (hunk_body h))%nat && forallb plain_line (hunk_body h))%bool.

(** The text is empty or begins with a character that is not a digit. *)
Definition no_digit_first (s : string) : bool :=
  match s with
  | EmptyString => true
  | String c _ => negb (is_digit c)
  end.

(** [text], with the final newline of [original] when [text] has none. *)
Definition with_final_newline_of (original text : string) : string :=
  if (ends_with_nl original && negb (ends_with_nl text))%bool
  then text ++ nl else text.


End Diff.

(** ** JSON values and the AGTAG metadata codec *)

Module Agtag.
Import PyStr.

(** What [json.loads] returns: [None], [bool], [int], [str], [list], [dict].
    A [dict] keeps its keys in insertion order.  Numbers with a fraction or an
    exponent are not part of the model. *)
#[warnings="-register-all"]
Inductive json : Type :=
| JNull
| JBool (b : bool)
| JInt (n : Z)
| JStr (s : string)
| JArr (items : list json)
| JObj (fields : list (string * json)).

Definition MAX_AGTAG_SIZE : Z := 100000.
Definition MAX_JSON_DEPTH : Z := 10.

Definition AGTAG_START : string := nl ++ nl ++ "<!--AGTAG v1 START-->".
Definition AGTAG_END : string := "<!--AGTAG v1 END-->".

(** [d.get(key)] *)
Fixpoint assoc_get (key : string) (fields : list (string * json)) : option json :=
  match fields with
  | [] => None
  | (k, v) :: rest => if String.eqb k key then Some v else assoc_get key rest
  end.

Definition get (key : string) (obj : json) : option json :=
  match obj with
  | JObj fields => assoc_get key fields
  | _ => None
  end.

(** Python truth value of a JSON value. *)
Definition truthy (v : json) : bool :=
  match v with
  | JNull => false
  | JBool b => b
  | JInt n => negb (n =? 0)
  | JStr s => negb (is_empty s)
  | JArr items => match items with [] => false | _ => true end
  | JObj fields => match fields with [] => false | _ => true end
  end.

(** [split_agtag]: the content before the last start marker and the block
    from that marker on, when the block holds the end marker. *)
Definition split_agtag (content : string) : string * option string :=
  match rfind AGTAG_START content with
  | None => (content, None)
  | Some i =>
      let tail := drop i content in
      if contains AGTAG_END tail
      then (String.substring 0 i content, Some tail)
      else (content, None)
  end.

(** [check_json_depth]: [true] when the call returns, [false] when it raises
    "JSON nesting too deep". *)
Fixpoint check_json_depth (obj : json) (max_depth current_depth : Z) : bool :=
  if current_depth >? max_depth then false
  else
    match obj with
    | JObj fields =>
        forallb (fun kv => let '(_, value) := kv in
                           check_json_depth value max_depth (current_depth + 1))
                fields
    | JArr items =>
        forallb (fun item => check_json_depth item max_depth (current_depth + 1)) items
    | _ => true
    end.

(** *** [AGTAG_SCHEMA], as [jsonschema.validate] checks it *)

Definition is_string (v : json) : bool :=
  match v with JStr _ => true | _ => false end.
Definition is_object (v : json) : bool :=
  match v with JObj _ => true | _ => false end.
Definition is_array (v : json) : bool :=
  match v with JArr _ => true | _ => false end.
Definition is_string_or_null (v : json) : bool :=
  match v with JStr _ | JNull => true | _ => false end.
Definition is_integer_or_null (v : json) : bool :=
  match v with JInt _ | JNull => true | _ => false end.

(** A property constrains the value only when the key is present. *)
Definition property (key : string) (check : json -> bool) (obj : json) : bool :=
  match get key obj with
  | Some v => check v
  | None => true
  end.

Definition required (key : string) (obj : json) : bool :=
  match get key obj with Some _ => true | None => false end.

(** ["lines": {"type": "array", "items": {"type": ["integer", "null"]},
    "minItems": 2, "maxItems": 2}] *)
Definition lines_schema (v : json) : bool :=
  match v with
  | JArr items => (forallb is_integer_or_null items
                   && (List.length items =? 2)%nat)%bool
  | _ => false
  end.

Definition symbol_schema (s : json) : bool :=
  (is_object s
   && required "name" s && required "kind" s
   && property "path" is_string s
   && property "name" is_string s
   && property "kind" is_string s
   && property "qualified_name" is_string s
   && property "signature" is_string s
   && property "summary_l0" is_string s
   && property "contract_l1" is_string s
   && property "pseudocode_l2" is_string_or_null s
   && property "ast_excerpt_l3" is_object s
   && property "ast_l3" is_object s
   && property "lines" lines_schema s)%bool.

Definition version_schema (v : json) : bool :=
  match v with JStr s => String.eqb s "v1" | _ => false end.

Definition symbols_schema (v : json) : bool :=
  match v with JArr items => forallb symbol_schema items | _ => false end.

Definition AGTAG_SCHEMA (agtag : json) : bool :=
  (is_object agtag
   && required "version" agtag && required "symbols" agtag
   && property "version" version_schema agtag
   && property "symbols" symbols_schema agtag
   && property "docs" is_array agtag
   && property "tests" is_array agtag)%bool.

(** The failures of [parse_agtag_block], one per [raise]. *)
Inductive agtag_error : Type :=
| MissingJson          (* "AGTAG block missing JSON" *)
| TooLarge (size : Z)  (* "AGTAG JSON too large: ..." *)
| InvalidJson          (* "Invalid JSON in AGTAG block: ..." *)
| TooDeep              (* "JSON nesting too deep: ..." *)
| SchemaViolation      (* jsonschema.ValidationError *)
| UnsupportedVersion   (* "Unsupported AGTAG version (expected v1)" *)
| InvalidLinesArray.   (* "Symbol ... has invalid lines array" *)

(** [agtag.get("symbols", [])] *)
Definition symbols_of (agtag : json) : list json :=
  match get "symbols" agtag with
  | Some (JArr items) => items
  | _ => []
  end.

(** [symbol.get("lines") or []], then [lines and len(lines) != 2] *)
Definition lines_shape_bad (symbol : json) : bool :=
  match get "lines" symbol with
  | Some (JArr items) =>
      (match items with [] => false | _ => true end
       && negb (List.length items =? 2)%nat)%bool
  | _ => false
  end.

Definition validate_agtag_data (agtag : json) (repo_path : string)
  : result agtag_error unit :=
  if negb (AGTAG_SCHEMA agtag) then Err SchemaViolation
  else if negb (match get "version" agtag with
                | Some (JStr v) => String.eqb v "v1"
                | _ => false
                end)
  then Err UnsupportedVersion
  else if existsb lines_shape_bad (symbols_of agtag) then Err InvalidLinesArray
  else Ok tt.

Section Codec.

(** [json.loads]; [None] stands for [json.JSONDecodeError]. *)
Variable json_loads : string -> option json.

Definition parse_agtag_block (block repo_path : string) : result agtag_error json :=
  match find "{" block, rfind "}" block with
  | Some jstart, Some jend =>
      let jtxt := substr jstart (jend + 1) block in
      if Z.of_nat (String.length jtxt) >? MAX_AGTAG_SIZE
      then Err (TooLarge (Z.of_nat (String.length jtxt)))
      else
        match json_loads jtxt with
        | None => Err InvalidJson
        | Some data =>
            if negb (check_json_depth data MAX_JSON_DEPTH 0) then Err TooDeep
            else
              match validate_agtag_data data repo_path with
              | Err e => Err e
              | Ok _ => Ok data
              end
        end
  | _, _ => Err MissingJson
  end.

End Codec.

(** The nesting depth of a value, counting containers: a primitive has
    depth 0, a container one more than its deepest member. *)
Fixpoint container_depth (v : json) : Z :=
  match v with
  | JObj fields =>
      1 + fold_right (fun kv d => let '(_, value) := kv in
                                  Z.max (container_depth value) d) 0 fields
  | JArr items =>
      1 + fold_right (fun item d => Z.max (container_depth item) d) 0 items
  | _ => 0
  end.

(** The depth of the deepest member of a list or of a dict. *)
Definition items_depth (items : list json) : Z :=
  fold_right (fun item d => Z.max (container_depth item) d) 0 items.

Definition fields_depth (fields : list (string * json)) : Z :=
  fold_right (fun kv d => let '(_, value) := kv in
                          Z.max (container_depth value) d) 0 fields.

(** [n] lists nested in one another around [v]. *)
Fixpoint nest (n : nat) (v : json) : json :=
  match n with
  | O => v
  | S n' => JArr [nest n' v]
  end.

(** The number of levels a value reaches below itself: none for a primitive
    and for an empty container, one more than its deepest member
    otherwise. *)
Fixpoint levels_below (v : json) : Z :=
  match v with
  | JObj fields =>
      fold_right (fun kv d => let '(_, value) := kv in
                              Z.max (1 + levels_below value) d) 0 fields
  | JArr items =>
      fold_right (fun item d => Z.max (1 + levels_below item) d) 0 items
  | _ => 0
  end.

Definition items_below (items : list json) : Z :=
  fold_right (fun item d => Z.max (1 + levels_below item) d) 0 items.

Definition fields_below (fields : list (string * json)) : Z :=
  fold_right (fun kv d => let '(_, value) := kv in
                          Z.max (1 + levels_below value) d) 0 fields.

End Agtag.

(** ** The store: tables, connection and working tree *)

Module Store.
Import PyStr Agtag.

(** Rows of [files]; [last_seen] is a timestamp and is left out. *)
Record file_row : Type := mkFile {
  file_path : string;
  file_hash : string;
  db_state : string
}.

(** Rows of [symbols].  [name] and [kind] are strings by [AGTAG_SCHEMA]. *)
Record symbol_row : Type := mkSymbol {
  sym_id : Z;
  sym_path : string;
  sym_name : string;
  sym_kind : string;
  sym_signature : option string;
  sym_start_line : option Z;
  sym_end_line : option Z;
  sym_content_hash : string;
  sym_l0_overview : option string;
  sym_l1_contract : option string;
  sym_l2_pseudocode : option string;
  sym_l3_ast_json : option string
}.

Record fts_row : Type := mkFts {
  fts_rowid : Z;
  fts_path : string;
  fts_name : string;
  fts_l0_overview : option string;
  fts_l1_contract : option string
}.

Record edge_row : Type := mkEdge {
  src_id : Z;
  dst_id : Z;
  edge_type : string
}.

Record db : Type := mkDb {
  files : list file_row;
  symbols : list symbol_row;
  symbols_fts : list fts_row;
  edges : list edge_row;
  ops_log : list (string * string)
}.

Definition empty_db : db := mkDb [] [] [] [] [].

(** The working tree (path and content of every file), the connection's view
    of the database ([live], with the statements not yet committed), the
    database as last committed ([durable]) and every committed state so far,
    oldest first. *)
Record world : Type := mkWorld {
  disk : list (string * string);
  live : db;
  durable : db;
  commits : list db
}.

(** [conn.execute(...)] and friends act on the connection's view. *)
Definition with_live (w : world) (d : db) : world :=
  mkWorld (disk w) d (durable w) (commits w).

(** [conn.commit()] *)
Definition commit (w : world) : world :=
  mkWorld (disk w) (live w) (live w) (commits w ++ [live w]).

(** [sys.exit(2)]: the process ends and the open transaction is lost. *)
Definition exit (w : world) : world :=
  mkWorld (disk w) (durable w) (durable w) (commits w).

Fixpoint disk_read (path : string) (files : list (string * string)) : option string :=
  match files with
  | [] => None
  | (p, c) :: rest => if String.eqb p path then Some c else disk_read path rest
  end.

Fixpoint disk_put (path content : string) (files : list (string * string))
  : list (string * string) :=
  match files with
  | [] => [(path, content)]
  | (p, c) :: rest =>
      if String.eqb p path then (p, content) :: rest
      else (p, c) :: disk_put path content rest
  end.

(** [open(path, "w").write(content)] *)
Definition write_file (w : world) (path content : string) : world :=
  mkWorld (disk_put path content (disk w)) (live w) (durable w) (commits w).

(** [SELECT ... FROM files WHERE repo_path=?] *)
Definition file_row_of (d : db) (path : string) : option file_row :=
  List.find (fun r => String.eqb (file_path r) path) (files d).

(** [row[0] if row else "missing"] *)
Definition file_state (d : db) (path : string) : string :=
  match file_row_of d path with
  | Some row => db_state row
  | None => "missing"
  end.

Fixpoint put_file_row (row : file_row) (rows : list file_row) : list file_row :=
  match rows with
  | [] => [row]
  | r :: rest =>
      if String.eqb (file_path r) (file_path row) then row :: rest
      else r :: put_file_row row rest
  end.

(** [upsert_file] *)
Definition upsert_file (d : db) (repo_path file_hash state : string) : db :=
  mkDb (put_file_row (mkFile repo_path file_hash state) (files d))
       (symbols d) (symbols_fts d) (edges d) (ops_log d).

(** [INSERT INTO ops_log(op, details) VALUES(?,?)] *)
Definition log_op (d : db) (op details : string) : db :=
  mkDb (files d) (symbols d) (symbols_fts d) (edges d) (ops_log d ++ [(op, details)]).

Definition mem_Z (x : Z) (l : list Z) : bool := existsb (Z.eqb x) l.

(** [clear_symbols], with [_delete_edges_for_symbol_ids] *)
Definition clear_symbols (d : db) (repo_path : string) : db :=
  let symbol_ids :=
    map sym_id (filter (fun s => String.eqb (sym_path s) repo_path) (symbols d)) in
  let edges1 := filter (fun e => negb (mem_Z (src_id e) symbol_ids)) (edges d) in
  let edges2 := filter (fun e => negb (mem_Z (dst_id e) symbol_ids)) edges1 in
  mkDb (files d)
       (filter (fun s => negb (String.eqb (sym_path s) repo_path)) (symbols d))
       (filter (fun r => negb (String.eqb (fts_path r) repo_path)) (symbols_fts d))
       edges2
       (ops_log d).

(** [str.lower()] on code points below 256. *)
Definition lower_char (c : ascii) : ascii :=
  let n := code c in
  if ((65 <=? n) && (n <=? 90) || (192 <=? n) && (n <=? 222) && negb (n =? 215))%N
  then ascii_of_N (n + 32) else c.

Fixpoint lower (s : string) : string :=
  match s with
  | EmptyString => EmptyString
  | String c rest => String (lower_char c) (lower rest)
  end.

(** [s.endswith(suffix)] *)
Definition endswith (s suffix : string) : bool :=
  ((String.length suffix <=? String.length s)%nat
   && String.eqb (drop (String.length s - String.length suffix) s) suffix)%bool.

(** [s.encode("utf-8")] on code points below 256, a byte per character of
    the result. *)
Fixpoint encode_utf8 (s : string) : string :=
  match s with
  | EmptyString => EmptyString
  | String c rest =>
      let n := code c in
      if (n <? 128)%N then String c (encode_utf8 rest)
      else String (ascii_of_N (192 + N.shiftr n 6))
             (String (ascii_of_N (128 + N.land n 63)) (encode_utf8 rest))
  end.

(** *** Edge derivation *)

(** What [ast.walk] meets that [_find_symbol_node] looks at: the class and
    function definitions of the module, each with its name, its line, and the
    names [_collect_inheritance_targets] (for a class) or
    [_collect_call_targets] (for a function) collect from it. *)
Inductive def_node : Type :=
| ClassDef (name : string) (lineno : Z) (bases : list string)
| FunctionDef (name : string) (lineno : Z) (calls : list string).

(** What [ast.parse] does with a text: the tree, of which the rebuild reads
    the definitions, or an exception.  [SyntaxError] is the one that
    [upsert_symbols] catches; a text that holds a null byte raises
    [ValueError]; [ParseOtherError] is any other exception. *)
Inductive parse_exception : Type :=
| SyntaxError
| ParseValueError
| ParseOtherError.

Definition ast_outcome : Type := result parse_exception (list def_node).

(** The rows read back after the insert: [id, name, kind, start_line,
    end_line]. *)
Definition find_symbol_node (module_ast : option (list def_node)) (symbol : symbol_row)
  : option def_node :=
  match module_ast with
  | None => None
  | Some nodes =>
      match sym_start_line symbol with
      | None => None
      | Some target_line =>
          if is_empty (sym_name symbol) then None
          else
            List.find
              (fun node =>
                 match node with
                 | ClassDef name lineno _ =>
                     (String.eqb (lower (sym_kind symbol)) "class"
                      && String.eqb name (sym_name symbol)
                      && (lineno =? target_line))%bool
                 | FunctionDef name lineno _ =>
                     (String.eqb name (sym_name symbol) && (lineno =? target_line))%bool
                 end)
              nodes
      end
  end.

(** [name_to_id.get(target)]: the dict comprehension keeps, for a name, the
    id of the last symbol that bears it. *)
Definition name_to_id (symbols : list symbol_row) (target : string) : option Z :=
  option_map sym_id
    (List.find (fun s => (negb (is_empty (sym_name s))
                          && String.eqb (sym_name s) target)%bool)
               (List.rev symbols)).

Definition edge_eqb (a b : edge_row) : bool :=
  ((src_id a =? src_id b) && (dst_id a =? dst_id b)
   && String.eqb (edge_type a) (edge_type b))%bool.

(** [edges.add(e)] on a set kept in insertion order. *)
Definition add_edge (acc : list edge_row) (e : edge_row) : list edge_row :=
  if existsb (edge_eqb e) acc then acc else (acc ++ [e])%list.

Definition edges_to (symbols : list symbol_row) (symbol_id : Z) (label : string)
  (targets : list string) (acc : list edge_row) : list edge_row :=
  fold_left
    (fun acc target =>
       match name_to_id symbols target with
       | Some dst =>
           if (negb (dst =? 0) && negb (dst =? symbol_id))%bool
           then add_edge acc (mkEdge symbol_id dst label) else acc
       | None => acc
       end)
    targets acc.

(** [_build_symbol_edges] *)
Definition build_symbol_edges (module_ast : option (list def_node))
  (symbols : list symbol_row) : list edge_row :=
  match module_ast, symbols with
  | None, _ | _, [] => []
  | Some _, _ =>
      fold_left
        (fun acc symbol =>
           match find_symbol_node module_ast symbol with
           | None => acc
           | Some (FunctionDef _ _ calls) =>
               edges_to symbols (sym_id symbol) "calls" calls acc
           | Some (ClassDef _ _ bases) =>
               edges_to symbols (sym_id symbol) "inherits" bases acc
           end)
        symbols []
  end.

End Store.

(** ** Symbol index builder ([upsert_symbols]) *)

Module Index.
Import PyStr Agtag Store.

(** The exceptions that leave [upsert_symbols].  [Unvalidated] stands for
    what happens on a descriptor that [AGTAG_SCHEMA] rejects (a [lines] entry
    that is not a list of integers and nulls); both callers validate first.
    [SourceRejected] and [ParserFailed] come from [ast.parse],
    [IntegerOverflow] from the insert into [symbols]. *)
Inductive upsert_error : Type :=
| InvalidLineRange (name : string)   (* "Invalid line range for symbol ..." *)
| LinesBeyondFile (name : string)    (* "Symbol ... references lines beyond file length" *)
| Unvalidated
| SourceRejected                     (* the [ValueError] of [ast.parse] *)
| ParserFailed                       (* another exception of [ast.parse] *)
| IntegerOverflow.                   (* [OverflowError]: the integer does not fit SQLite *)

(** The exceptions that [except ValueError] catches. *)
Definition is_value_error (e : upsert_error) : bool :=
  match e with
  | ParserFailed | IntegerOverflow => false
  | _ => true
  end.

Definition text_of (v : option json) : option string :=
  match v with
  | Some (JStr s) => Some s
  | _ => None
  end.

Definition text_or_empty (v : option json) : string :=
  match text_of v with Some s => s | None => EmptyString end.

(** [int(x) if x is not None else None] *)
Definition line_number (v : json) : result upsert_error (option Z) :=
  match v with
  | JNull => Ok None
  | JInt n => Ok (Some n)
  | _ => Err Unvalidated
  end.

(** [raw_lines = s.get("lines") or [None, None]], padded to two entries;
    then [raw_lines[0]] and [raw_lines[1]]. *)
Definition raw_lines (s : json) : result upsert_error (json * json) :=
  match get "lines" s with
  | None => Ok (JNull, JNull)
  | Some v =>
      if negb (truthy v) then Ok (JNull, JNull)
      else match v with
           | JArr (a :: b :: _) => Ok (a, b)
           | JArr [a] => Ok (a, JNull)
           | _ => Err Unvalidated
           end
  end.

(** An integer that SQLite stores: 64 bits, signed. *)
Definition fits_int64 (n : Z) : bool :=
  ((- 2 ^ 63 <=? n) && (n <? 2 ^ 63))%bool.

(** A row whose parameters the insert can bind: [start_line] and [end_line]
    are the only integers among them. *)
Definition bindable (r : symbol_row) : bool :=
  (match sym_start_line r with Some n => fits_int64 n | None => true end
   && match sym_end_line r with Some n => fits_int64 n | None => true end)%bool.

(** The rows that [executemany] inserts before one fails to bind. *)
Fixpoint bound_rows (rows : list symbol_row) : list symbol_row :=
  match rows with
  | [] => []
  | r :: rest => if bindable r then r :: bound_rows rest else []
  end.

(** The next [id] of [symbols]: one more than the largest in the table. *)
Definition next_symbol_id (rows : list symbol_row) : Z :=
  1 + fold_right (fun r m => Z.max (sym_id r) m) 0 rows.

Section Builder.

(** [hashlib.sha256(b).hexdigest()] *)
Variable sha256_hex : string -> string.
(** [json.dumps] *)
Variable json_dumps : json -> string.
(** [ast.parse] and the walk over its result. *)
Variable ast_parse : string -> ast_outcome.

(** [sha256_bytes] *)
Definition sha256_bytes (b : string) : string := "sha256:" ++ sha256_hex b.

(** The body of the [for s in agtag.get("symbols", [])] loop: the row of one
    descriptor, its [id] still to be given by the insert. *)
Definition symbol_row_of (repo_path full_content : string) (s : json)
  : result upsert_error symbol_row :=
  let lines_cache := splitlines full_content in
  let total_lines := Z.of_nat (List.length lines_cache) in
  let name := text_or_empty (get "name" s) in
  let kind := text_or_empty (get "kind" s) in
  match raw_lines s with
  | Err e => Err e
  | Ok (raw0, raw1) =>
      match line_number raw0, line_number raw1 with
      | Err e, _ | _, Err e => Err e
      | Ok start_line, Ok end_line =>
          let signature := text_of (get "signature" s) in
          let l0 := text_of (get "summary_l0" s) in
          let l1 := text_of (get "contract_l1" s) in
          let l2 := text_of (get "pseudocode_l2" s) in
          let pick key :=
            match get key s with
            | Some v => if truthy v then Some v else None
            | None => None
            end in
          let l3_payload :=
            match pick "ast_excerpt_l3" with
            | Some v => Some v
            | None => pick "ast_l3"
            end in
          let l3 := option_map json_dumps l3_payload in
          let row chash :=
            mkSymbol 0 repo_path name kind signature start_line end_line chash
                     l0 l1 l2 l3 in
          match start_line, end_line with
          | Some sl, Some el =>
              if ((sl <? 1) || (el <? sl))%bool then Err (InvalidLineRange name)
              else if el >? total_lines then Err (LinesBeyondFile name)
              else
                let code_slice := join nl (Diff.slice lines_cache (sl - 1) el) in
                Ok (row (sha256_bytes (encode_utf8 code_slice)))
          | _, _ => Ok (row (sha256_bytes (encode_utf8 full_content)))
          end
      end
  end.

(** The whole loop: stops at the first descriptor that raises. *)
Fixpoint symbol_rows_of (repo_path full_content : string) (descriptors : list json)
  : result upsert_error (list symbol_row) :=
  match descriptors with
  | [] => Ok []
  | s :: rest =>
      match symbol_row_of repo_path full_content s with
      | Err e => Err e
      | Ok row =>
          match symbol_rows_of repo_path full_content rest with
          | Err e => Err e
          | Ok rows => Ok (row :: rows)
          end
      end
  end.

(** [cur.executemany("INSERT INTO symbols ...")]: each row gets the next id. *)
Fixpoint insert_symbols (table : list symbol_row) (rows : list symbol_row)
  : list symbol_row :=
  match rows with
  | [] => table
  | r :: rest =>
      let r' := mkSymbol (next_symbol_id table) (sym_path r) (sym_name r) (sym_kind r)
                         (sym_signature r) (sym_start_line r) (sym_end_line r)
                         (sym_content_hash r) (sym_l0_overview r) (sym_l1_contract r)
                         (sym_l2_pseudocode r) (sym_l3_ast_json r) in
      insert_symbols (table ++ [r'])%list rest
  end.

Definition fts_of (s : symbol_row) : fts_row :=
  mkFts (sym_id s) (sym_path s) (sym_name s) (sym_l0_overview s) (sym_l1_contract s).

(** [INSERT OR IGNORE INTO edges] *)
Definition insert_edges (table : list edge_row) (new : list edge_row) : list edge_row :=
  fold_left add_edge new table.

(** [parsed_ast]: the tree of a [.py] file, [None] for another file and
    after a [SyntaxError]; any other exception of [ast.parse] leaves
    [upsert_symbols]. *)
Definition parsed_ast_of (repo_path full_content : string)
  : result upsert_error (option (list def_node)) :=
  if endswith repo_path ".py" then
    match ast_parse full_content with
    | Ok defs => Ok (Some defs)
    | Err SyntaxError => Ok None
    | Err ParseValueError => Err SourceRejected
    | Err ParseOtherError => Err ParserFailed
    end
  else Ok None.

(** [upsert_symbols]: when it raises, what it has executed so far (the
    statements of [clear_symbols], and the rows inserted before one that
    does not bind) stays in the open transaction; otherwise the rebuild is
    committed. *)
Definition upsert_symbols (w : world) (repo_path : string) (agtag : json)
  (full_content : string) : result upsert_error unit * world :=
  let w1 := with_live w (clear_symbols (live w) repo_path) in
  match parsed_ast_of repo_path full_content with
  | Err e => (Err e, w1)
  | Ok parsed_ast =>
      match symbol_rows_of repo_path full_content (symbols_of agtag) with
      | Err e => (Err e, w1)
      | Ok symbol_rows =>
          let d := live w1 in
          if forallb bindable symbol_rows then
            let d' :=
              match symbol_rows with
              | [] => d
              | _ =>
                  let table := insert_symbols (symbols d) symbol_rows in
                  let inserted_symbols :=
                    filter (fun s => String.eqb (sym_path s) repo_path) table in
                  let fts := (symbols_fts d ++ map fts_of inserted_symbols)%list in
                  let new_edges := build_symbol_edges parsed_ast inserted_symbols in
                  mkDb (files d) table fts (insert_edges (edges d) new_edges) (ops_log d)
              end in
            (Ok tt, commit (with_live w1 d'))
          else
            (Err IntegerOverflow,
             with_live w1 (mkDb (files d)
                                (insert_symbols (symbols d) (bound_rows symbol_rows))
                                (symbols_fts d) (edges d) (ops_log d)))
      end
  end.

End Builder.

End Index.

(** ** Operations: [_ingest_file_content] and [patch] *)

Module Ops.
Import PyStr Agtag Store Index.

Inductive path_error : Type :=
| AbsolutePath       (* "Absolute paths are not allowed" *)
| OutsideRepository  (* "Path must stay within repository" *)
| EscapesRoot.       (* "Path escapes repository root" *)

(** The payloads of [IngestError]; [ingest_crashed] is not one of them but
    an exception of the rebuild that [_ingest_file_content] does not catch. *)
Inductive ingest_error : Type :=
| indexed_file_rejects_full_content (path : string)
| agtag_missing
| agtag_invalid (hint : agtag_error)
| agtag_symbol_invalid (hint : upsert_error)
| ingest_crashed (exc : upsert_error).

(** What [patch] prints before [sys.exit(2)]; [uncaught] is an exception
    that no handler of [patch] catches, [patch_crashed] one that comes from
    the rebuild. *)
Inductive patch_error : Type :=
| unsafe_path (hint : path_error)
| not_indexed
| hash_conflict (current : string)
| final_file_invalid
| patch_failed (hint : Diff.diff_error)
| final_file_mismatch
| patch_agtag_invalid (hint : agtag_error + upsert_error)
| uncaught
| patch_crashed (exc : upsert_error).

(** [\s*] *)
Fixpoint skip_spaces (s : string) : string :=
  match s with
  | String c rest => if is_space c then skip_spaces rest else s
  | EmptyString => s
  end.

(** [.*?\}\s*END] at the front of [s]: the length of the shortest match. *)
Fixpoint lazy_to_end (s : string) : option nat :=
  match s with
  | EmptyString => None
  | String c rest =>
      let here :=
        if Ascii.eqb c "}" then
          match Diff.expect "END" (skip_spaces rest) with
          | Some tail => Some (S (String.length rest - String.length tail))
          | None => None
          end
        else None in
      match here with
      | Some n => Some n
      | None => option_map S (lazy_to_end rest)
      end
  end.

Definition FINAL_MARK : string := "AGTAG_PATCH_FINAL_FILE".

(** [AGTAG_PATCH_FINAL_FILE\s*\{.*?\}\s*END] at the front of [s]. *)
Definition match_final_block (s : string) : option nat :=
  match Diff.expect FINAL_MARK s with
  | None => None
  | Some s1 =>
      let s2 := skip_spaces s1 in
      match Diff.expect "{" s2 with
      | None => None
      | Some s3 =>
          option_map (fun n => (String.length s - String.length s3 + n)%nat)
                     (lazy_to_end s3)
      end
  end.

(** [re.search(..., re.S)]: the leftmost match, as [(start, end)]. *)
Fixpoint search_final_block (s : string) (pos : nat) : option (nat * nat) :=
  match match_final_block s with
  | Some n => Some (pos, (pos + n)%nat)
  | None =>
      match s with
      | EmptyString => None
      | String _ rest => search_final_block rest (S pos)
      end
  end.

(** The text ends in one newline and no more. *)
Definition exactly_one_trailing_newline (s : string) : Prop :=
  exists body, s = body ++ nl /\ ends_with_nl body = false.

Section Operations.

Variable json_loads : string -> option json.
Variable sha256_hex : string -> string.
Variable json_dumps : json -> string.
Variable ast_parse : string -> ast_outcome.
(** [os.getcwd()], an absolute path. *)
Variable cwd : string.

(** [os.path.abspath] *)
Definition abspath (path : string) : string :=
  normpath (if startswith path "/" then path
            else if endswith cwd "/" then cwd ++ path
            else cwd ++ "/" ++ path).

Definition ensure_repo_relative_path (path : string) : result path_error string :=
  let norm := normpath path in
  if startswith norm "/" then Err AbsolutePath
  else if startswith norm ".." then Err OutsideRepository
  else
    let base := abspath "." in
    let abs_path := abspath norm in
    if (negb (startswith abs_path (base ++ "/")) && negb (String.eqb abs_path base))%bool
    then Err EscapesRoot
    else Ok norm.

(** [extract_final_file_payload]: [Err final_file_invalid] is a [ValueError],
    [Err uncaught] any other exception.  The value of [final_file] is
    returned whatever its type. *)
Definition extract_final_file_payload (diff_text : string)
  : result patch_error (option (json * (nat * nat))) :=
  match search_final_block diff_text 0 with
  | None => Ok None
  | Some (a, b) =>
      let final_block := substr a b diff_text in
      match find "{" final_block, rfind "}" final_block with
      | Some jstart, Some jend =>
          match json_loads (substr jstart (jend + 1) final_block) with
          | None => Err final_file_invalid
          | Some (JObj fields) =>
              match assoc_get "final_file" fields with
              | None | Some JNull => Err final_file_invalid
              | Some final_file => Ok (Some (final_file, (a, b)))
              end
          | Some _ => Err uncaught
          end
      | _, _ => Err final_file_invalid
      end
  end.

(** [final_payload.rstrip(...)] when [final_payload is not None]: a value
    that is not a string has no [rstrip], an [AttributeError]. *)
Definition final_text (final : option (json * (nat * nat)))
  : result patch_error (option string) :=
  match final with
  | None => Ok None
  | Some (JStr text, _) => Ok (Some text)
  | Some _ => Err uncaught
  end.

Definition path_details (safe_path : string) : string :=
  json_dumps (JObj [("path", JStr safe_path)]).

(** [_ingest_file_content] *)
Definition ingest_file_content (w : world) (safe_path content : string)
  (write_to_disk : bool) : result ingest_error (string * string) * world :=
  let file_hash := sha256_bytes sha256_hex (encode_utf8 content) in
  let state := file_state (live w) safe_path in
  if negb (String.eqb state "missing")
  then (Err (indexed_file_rejects_full_content safe_path), w)
  else
    match split_agtag content with
    | (_, None) => (Err agtag_missing, w)
    | (code, Some agtag_block) =>
        match parse_agtag_block json_loads agtag_block safe_path with
        | Err exc => (Err (agtag_invalid exc), w)
        | Ok agtag =>
            let w1 := if write_to_disk
                      then write_file w safe_path (rstrip_nl content ++ nl)
                      else w in
            match upsert_symbols sha256_hex json_dumps ast_parse w1 safe_path agtag code with
            | (Err exc, w2) =>
                if is_value_error exc then (Err (agtag_symbol_invalid exc), w2)
                else (Err (ingest_crashed exc), w2)
            | (Ok _, w2) =>
                let d := log_op (upsert_file (live w2) safe_path file_hash "indexed")
                                "ingest_file" (path_details safe_path) in
                (Ok (safe_path, file_hash), commit (with_live w2 d))
            end
        end
    end.

(** The [patch] command on a database whose schema is up to date, [stdin]
    being the text it reads.  A run that ends in [sys.exit(2)] or in an
    uncaught exception loses its open transaction. *)
Definition patch (w : world) (path hash_before stdin : string)
  : result patch_error (string * string) * world :=
  match ensure_repo_relative_path path with
  | Err exc => (Err (unsafe_path exc), exit w)
  | Ok safe_path =>
      match file_row_of (live w) safe_path with
      | None => (Err not_indexed, exit w)
      | Some row =>
          if negb (String.eqb (db_state row) "indexed") then (Err not_indexed, exit w)
          else if negb (String.eqb (file_hash row) hash_before)
          then (Err (hash_conflict (file_hash row)), exit w)
          else
            match extract_final_file_payload stdin with
            | Err e => (Err e, exit w)
            | Ok final =>
                let diff_to_apply :=
                  match final with
                  | Some (_, (a, _)) => substr 0 a stdin
                  | None => stdin
                  end in
                match disk_read safe_path (disk w) with
                | None => (Err uncaught, exit w)
                | Some original =>
                    match Diff.apply_unified_diff_to_text original diff_to_apply safe_path with
                    | Err exc => (Err (patch_failed exc), exit w)
                    | Ok patched_content =>
                        match final_text final with
                        | Err e => (Err e, exit w)
                        | Ok final_payload =>
                        let mismatch :=
                          match final_payload with
                          | Some text =>
                              negb (String.eqb (rstrip_nl patched_content)
                                               (rstrip_nl text))
                          | None => false
                          end in
                        if mismatch then (Err final_file_mismatch, exit w)
                        else
                          let final_content :=
                            rstrip_nl (match final_payload with
                                       | Some text => text
                                       | None => patched_content
                                       end) ++ nl in
                          let w1 := write_file w safe_path final_content in
                          let new_hash := sha256_bytes sha256_hex (encode_utf8 final_content) in
                          let finish (w2 : world) :=
                            let d := log_op (upsert_file (live w2) safe_path new_hash "indexed")
                                            "patch" (path_details safe_path) in
                            (Ok (safe_path, new_hash), commit (with_live w2 d)) in
                          match split_agtag final_content with
                          | (code, Some agtag_block) =>
                              match parse_agtag_block json_loads agtag_block safe_path with
                              | Err exc => (Err (patch_agtag_invalid (inl exc)), exit w1)
                              | Ok agtag =>
                                  match upsert_symbols sha256_hex json_dumps ast_parse
                                                       w1 safe_path agtag code with
                                  | (Err exc, w2) =>
                                      if is_value_error exc
                                      then (Err (patch_agtag_invalid (inr exc)), exit w2)
                                      else (Err (patch_crashed exc), exit w2)
                                  | (Ok _, w2) => finish w2
                                  end
                              end
                          | (_, None) =>
                              finish (with_live w1 (clear_symbols (live w1) safe_path))
                          end
                        end
                    end
                end
            end
      end
  end.

End Operations.

End Ops.

(** ** Focus graph ([FocusGraph.get_context]) *)

Module Focus.
Import PyStr Agtag Store.

(** [_serialize_primary] *)
Record primary_payload : Type := mkPrimary {
  p_id : Z;
  p_repo_path : string;
  p_name : string;
  p_kind : string;
  p_l0_overview : option string;
  p_l1_contract : option string;
  p_start_line : option Z;
  p_end_line : option Z
}.

(** [_serialize_neighbor] *)
Record neighbor_payload : Type := mkNeighbor {
  n_id : Z;
  n_repo_path : string;
  n_name : string;
  n_kind : string;
  n_l0_overview : option string
}.

(** An endpoint of [_serialize_edge]: [id], [name], [repo_path]. *)
Record endpoint : Type := mkEndpoint {
  e_id : Z;
  e_name : string;
  e_repo_path : string
}.

Record edge_payload : Type := mkEdgePayload {
  ep_type : string;
  ep_source : endpoint;
  ep_target : endpoint
}.

Record stats : Type := mkStats {
  symbols_returned : Z;
  edges_traversed : Z;
  max_depth_reached : Z
}.

(** The result of [get_context].  [neighbors] maps the key ["depth_k"],
    kept as the number [k], to its bucket, in insertion order. *)
Record context : Type := mkContext {
  primary : primary_payload;
  neighbors : list (Z * list neighbor_payload);
  ctx_edges : list edge_payload;
  ctx_stats : stats
}.

Definition serialize_primary (s : symbol_row) : primary_payload :=
  mkPrimary (sym_id s) (sym_path s) (sym_name s) (sym_kind s)
            (sym_l0_overview s) (sym_l1_contract s) (sym_start_line s) (sym_end_line s).

Definition serialize_neighbor (s : symbol_row) : neighbor_payload :=
  mkNeighbor (sym_id s) (sym_path s) (sym_name s) (sym_kind s) (sym_l0_overview s).

(** [_symbol_by_name]: the row of least [id] with that path and name. *)
Definition symbol_by_name (d : db) (repo_path name : string) : option symbol_row :=
  fold_left
    (fun best s =>
       if (String.eqb (sym_path s) repo_path && String.eqb (sym_name s) name)%bool
       then match best with
            | Some b => if sym_id s <? sym_id b then Some s else best
            | None => Some s
            end
       else best)
    (symbols d) None.

(** [_symbol_by_id]; the cache only saves queries. *)
Definition symbol_by_id (d : db) (symbol_id : Z) : option symbol_row :=
  List.find (fun s => sym_id s =? symbol_id) (symbols d).

Definition mem_str (x : string) (l : list string) : bool := existsb (String.eqb x) l.

(** [_edges_incident] *)
Definition edges_incident (d : db) (symbol_id : Z) (include_types : list string)
  : list edge_row :=
  filter
    (fun row =>
       (((src_id row =? symbol_id) || (dst_id row =? symbol_id))
        && (match include_types with [] => true | _ => false end
            || mem_str (edge_type row) include_types))%bool)
    (edges d).

(** [_serialize_edge] *)
Definition serialize_edge (d : db) (edge : edge_row) : option edge_payload :=
  match symbol_by_id d (src_id edge), symbol_by_id d (dst_id edge) with
  | Some src, Some dst =>
      Some (mkEdgePayload (edge_type edge)
              (mkEndpoint (sym_id src) (sym_name src) (sym_path src))
              (mkEndpoint (sym_id dst) (sym_name dst) (sym_path dst)))
  | _, _ => None
  end.

(** The variables of the traversal loop. *)
Record bfs_state : Type := mkBfs {
  neighbors_by_depth : list (Z * list neighbor_payload);
  visited : list Z;
  queue : list (Z * Z);
  edges_seen : list edge_row;
  edges_payload : list edge_payload
}.

(** [neighbors_by_depth.setdefault(key, []).append(item)] *)
Fixpoint bucket_append (key : Z) (item : neighbor_payload)
  (buckets : list (Z * list neighbor_payload)) : list (Z * list neighbor_payload) :=
  match buckets with
  | [] => [(key, [item])]
  | (k, b) :: rest =>
      if k =? key then (k, (b ++ [item])%list) :: rest
      else (k, b) :: bucket_append key item rest
  end.

(** The body of [for edge in edges]. *)
Definition visit_edge (d : db) (repo_path : string) (depth current_id current_depth : Z)
  (st : bfs_state) (edge : edge_row) : bfs_state :=
  let st1 :=
    if existsb (edge_eqb edge) (edges_seen st) then st
    else match serialize_edge d edge with
         | Some serialized =>
             mkBfs (neighbors_by_depth st) (visited st) (queue st)
                   (edges_seen st ++ [edge])%list
                   (edges_payload st ++ [serialized])%list
         | None => st
         end in
  let neighbor_id :=
    if current_id =? src_id edge then dst_id edge else src_id edge in
  if mem_Z neighbor_id (visited st1) then st1
  else
    match symbol_by_id d neighbor_id with
    | None => st1
    | Some neighbor =>
        if negb (String.eqb (sym_path neighbor) repo_path) then st1
        else
          let next_depth := current_depth + 1 in
          if next_depth >? depth then st1
          else
            mkBfs (bucket_append next_depth (serialize_neighbor neighbor)
                                 (neighbors_by_depth st1))
                  (visited st1 ++ [neighbor_id])%list
                  (queue st1 ++ [(neighbor_id, next_depth)])%list
                  (edges_seen st1) (edges_payload st1)
  end.

(** [while queue:], run for at most [fuel] iterations; [None] when the queue
    is not empty by then. *)
Fixpoint bfs_loop (fuel : nat) (d : db) (repo_path : string) (depth : Z)
  (type_set : list string) (st : bfs_state) : option bfs_state :=
  match queue st with
  | [] => Some st
  | (current_id, current_depth) :: rest =>
      match fuel with
      | O => None
      | S fuel' =>
          let st0 := mkBfs (neighbors_by_depth st) (visited st) rest
                           (edges_seen st) (edges_payload st) in
          if current_depth >=? depth then bfs_loop fuel' d repo_path depth type_set st0
          else
            bfs_loop fuel' d repo_path depth type_set
              (fold_left (visit_edge d repo_path depth current_id current_depth)
                         (edges_incident d current_id type_set) st0)
      end
  end.

(** [list.sort(key=...)]: a stable sort by [before], which holds when the
    key of its first argument is strictly less than the key of the second. *)
Fixpoint insert_sorted {A : Type} (before : A -> A -> bool) (x : A) (l : list A) : list A :=
  match l with
  | [] => [x]
  | y :: l' => if before x y then x :: y :: l' else y :: insert_sorted before x l'
  end.

Definition stable_sort {A : Type} (before : A -> A -> bool) (l : list A) : list A :=
  fold_left (fun acc x => insert_sorted before x acc) l [].

Definition lex (c1 c2 : comparison) : comparison :=
  match c1 with Eq => c2 | _ => c1 end.

Definition is_lt (c : comparison) : bool :=
  match c with Lt => true | _ => false end.

(** Key [(name, kind)]. *)
Definition neighbor_before (a b : neighbor_payload) : bool :=
  is_lt (lex (String.compare (n_name a) (n_name b))
             (String.compare (n_kind a) (n_kind b))).

(** Key [(source name, target name, type)]. *)
Definition edge_before (a b : edge_payload) : bool :=
  is_lt (lex (String.compare (e_name (ep_source a)) (e_name (ep_source b)))
             (lex (String.compare (e_name (ep_target a)) (e_name (ep_target b)))
                  (String.compare (ep_type a) (ep_type b)))).

Inductive focus_error : Type :=
| symbol_not_found (symbol repo_path : string).

(** The iterations the loop can need: one per symbol, and one for the start. *)
Definition bfs_fuel (d : db) : nat := S (List.length (symbols d)).

(** [get_context]; [None] only if the loop outlived [bfs_fuel]. *)
Definition get_context (d : db) (repo_path symbol_name : string) (depth : Z)
  (include_types : list string) : option (result focus_error context) :=
  match symbol_by_name d repo_path symbol_name with
  | None => Some (Err (symbol_not_found symbol_name repo_path))
  | Some symbol =>
      if depth <=? 0 then
        Some (Ok (mkContext (serialize_primary symbol) [] [] (mkStats 1 0 0)))
      else
        let type_set := filter (fun t => negb (is_empty t)) include_types in
        match bfs_loop (bfs_fuel d) d repo_path depth type_set
                       (mkBfs [] [sym_id symbol] [(sym_id symbol, 0)] [] []) with
        | None => None
        | Some st =>
            let buckets :=
              map (fun kb => (fst kb, stable_sort neighbor_before (snd kb)))
                  (neighbors_by_depth st) in
            let payload := stable_sort edge_before (edges_payload st) in
            let max_depth := fold_right (fun kb m => Z.max (fst kb) m) 0 buckets in
            Some (Ok (mkContext (serialize_primary symbol) buckets payload
                        (mkStats
                           (1 + fold_right (fun kb n => Z.of_nat (List.length (snd kb)) + n)
                                           0 buckets)
                           (Z.of_nat (List.length payload))
                           max_depth)))
        end
  end.

(** *** Distances in the traversed graph *)

(** One hop of the traversal from [u]: an edge incident to [u] that passes
    the type filter, to its other end, which is a symbol of the file. *)
Definition hop (d : db) (repo_path : string) (type_set : list string) (u v : Z) : Prop :=
  exists edge symbol,
    In edge (edges_incident d u type_set)
    /\ v = (if u =? src_id edge then dst_id edge else src_id edge)
    /\ symbol_by_id d v = Some symbol
    /\ sym_path symbol = repo_path.

(** [walk n u v]: [v] is reached from [u] in [n] hops. *)
Inductive walk (d : db) (repo_path : string) (type_set : list string) (u : Z)
  : nat -> Z -> Prop :=
| walk_here : walk d repo_path type_set u O u
| walk_hop : forall n v w,
    walk d repo_path type_set u n v ->
    hop d repo_path type_set v w ->
    walk d repo_path type_set u (S n) w.

(** [n] is the length of a shortest walk from [u] to [v]. *)
Definition distance (d : db) (repo_path : string) (type_set : list string)
  (u v : Z) (n : nat) : Prop :=
  walk d repo_path type_set u n v
  /\ forall m, walk d repo_path type_set u m v -> (n <= m)%nat.

(** A chain of [n] edges of the table from [u] to [v], in either direction,
    whatever their type and whatever file their ends belong to. *)
Inductive chain (d : db) (u : Z) : nat -> Z -> Prop :=
| chain_here : chain d u O u
| chain_edge : forall n v w edge,
    chain d u n v ->
    In edge (edges d) ->
    (src_id edge = v /\ dst_id edge = w) \/ (dst_id edge = v /\ src_id edge = w) ->
    chain d u (S n) w.

(** *** The state of the traversal, for its proof *)

(** The pairs [(id, k)] of the neighbors in the buckets and the keys
    [depth_k] they are under. *)
Definition assigned (buckets : list (Z * list neighbor_payload)) : list (Z * Z) :=
  flat_map (fun kb => map (fun n => (n_id n, fst kb)) (snd kb)) buckets.

(** The other end of [edge], seen from [u]. *)
Definition other_end (u : Z) (edge : edge_row) : Z :=
  if u =? src_id edge then dst_id edge else src_id edge.

(** The rows of [symbols] whose id is not in [seen]. *)
Definition unvisited (d : db) (seen : list Z) : nat :=
  List.length (filter (fun s => negb (mem_Z (sym_id s) seen)) (symbols d)).

(** A bound on the iterations the loop still has to make. *)
Definition work_left (d : db) (st : bfs_state) : nat :=
  (List.length (queue st) + unvisited d (visited st))%nat.

Section Invariant.

Variable d : db.
Variable repo : string.
Variable depth : Z.
Variable ts : list string.
Variable src : Z.

(** The depth given to a symbol: 0 for the start, the key of its bucket for
    a neighbor. *)
Definition level (buckets : list (Z * list neighbor_payload)) (v k : Z) : Prop :=
  (v = src /\ k = 0) \/ In (v, k) (assigned buckets).

(** The loop invariant.  [h] is the depth of the front of the queue, [cur]
    the symbol whose edges are being followed, if any, and [done] the symbols
    taken off the queue before. *)
Record Inv (h : Z) (cur : option Z) (done : list Z) (st : bfs_state) : Prop := mkInv {
  inv_src : In src (visited st);
  inv_level : forall v k,
    level (neighbors_by_depth st) v k ->
    In v (visited st) /\ 0 <= k <= depth /\ distance d repo ts src v (Z.to_nat k);
  inv_visited : forall v,
    In v (visited st) -> exists k, level (neighbors_by_depth st) v k;
  inv_queue : forall v k,
    In (v, k) (queue st) -> level (neighbors_by_depth st) v k /\ h <= k <= h + 1;
  inv_sorted : StronglySorted (fun a b : Z * Z => snd a <= snd b) (queue st);
  inv_where : forall v,
    In v (visited st) ->
    In v done \/ cur = Some v \/ exists k, In (v, k) (queue st);
  inv_done_seen : forall v, In v done -> In v (visited st);
  inv_done : forall v k w,
    In v done -> level (neighbors_by_depth st) v k -> k < depth -> hop d repo ts v w ->
    In w (visited st);
  inv_below : forall u i, walk d repo ts src i u -> Z.of_nat i < h -> In u done;
  inv_at : forall u, walk d repo ts src (Z.to_nat h) u -> In u (visited st);
  inv_h : 0 <= h;
  inv_cur : forall c, cur = Some c -> level (neighbors_by_depth st) c h /\ h < depth;
  inv_pos : forall v k, In (v, k) (assigned (neighbors_by_depth st)) -> 1 <= k
}.

End Invariant.

Arguments inv_src {d repo depth ts src h cur done st} _.
Arguments inv_level {d repo depth ts src h cur done st} _.
Arguments inv_visited {d repo depth ts src h cur done st} _.
Arguments inv_queue {d repo depth ts src h cur done st} _.
Arguments inv_sorted {d repo depth ts src h cur done st} _.
Arguments inv_where {d repo depth ts src h cur done st} _.
Arguments inv_done_seen {d repo depth ts src h cur done st} _.
Arguments inv_done {d repo depth ts src h cur done st} _.
Arguments inv_below {d repo depth ts src h cur done st} _.
Arguments inv_at {d repo depth ts src h cur done st} _.
Arguments inv_h {d repo depth ts src h cur done st} _.
Arguments inv_cur {d repo depth ts src h cur done st} _.
Arguments inv_pos {d repo depth ts src h cur done st} _.

(** A comparison that orders its arguments totally, up to the key it looks
    at. *)
Definition orders {A : Type} (c : A -> A -> comparison) : Prop :=
  (forall x y, c y x = CompOpp (c x y))
  /\ (forall x y z, c x y = Lt -> c y z = Lt -> c x z = Lt)
  /\ (forall x y z, c x y = Eq -> c y z = c x z).

(** The state of the traversal holds each symbol once: the visited set has
    no repetition and is made of the start and of the symbols in the
    buckets, and no key has two buckets. *)
Definition holds_once (src : Z) (st : bfs_state) : Prop :=
  NoDup (visited st)
  /\ Permutation (visited st) (src :: map fst (assigned (neighbors_by_depth st)))
  /\ NoDup (map fst (neighbors_by_depth st)).

End Focus.

(** ** Handles and the [focus] and [zoom] commands *)

Module Query.
Import PyStr Agtag Store Focus.

Record handle : Type := mkHandle {
  h_repo_path : string;
  h_symbol : string;
  h_hash : string;
  h_level : option Z
}.

(** [(.+?)] followed by what [next] accepts: the shortest non-empty run of
    characters other than a newline after which [next] succeeds. *)
Fixpoint lazy_plus {R : Type} (next : string -> string -> option R)
  (taken s : string) : option R :=
  match s with
  | EmptyString => None
  | String c rest =>
      if (code c =? 10)%N then None
      else
        let taken' := taken ++ String c EmptyString in
        match next taken' rest with
        | Some r => Some r
        | None => lazy_plus next taken' rest
        end
  end.

(** [[^#]+], greedy: the longest run of characters other than [#]. *)
Fixpoint take_not_hash (s : string) : string * string :=
  match s with
  | EmptyString => (EmptyString, EmptyString)
  | String c rest =>
      if Ascii.eqb c "#" then (EmptyString, s)
      else let (h, r) := take_not_hash rest in (String c h, r)
  end.

(** [(?:#l(\d+))?] and [int(m.group(4)) if m.group(4) else None] *)
Definition level_suffix (s : string) : option Z :=
  match Diff.expect "#l" s with
  | None => None
  | Some s' =>
      let (ds, _) := take_digits s' in
      if is_empty ds then None else Some (int_of_digits ds)
  end.

(** [parse_handle]: [re.match(r"ctx://(.+?)::(.+?)@([^#]+)(?:#l(\d+))?", handle)];
    [None] is the [ValueError] "Invalid handle". *)
Definition parse_handle (text : string) : option handle :=
  match Diff.expect "ctx://" text with
  | None => None
  | Some s =>
      lazy_plus
        (fun repo_path rest =>
           match Diff.expect "::" rest with
           | None => None
           | Some rest1 =>
               lazy_plus
                 (fun symbol rest2 =>
                    match Diff.expect "@" rest2 with
                    | None => None
                    | Some rest3 =>
                        let (hash, rest4) := take_not_hash rest3 in
                        if is_empty hash then None
                        else Some (mkHandle repo_path symbol hash (level_suffix rest4))
                    end)
                 EmptyString rest1
           end)
        EmptyString s
  end.

(** What the two commands print before [sys.exit(2)]; [query_uncaught] is an
    exception that the command does not catch. *)
Inductive query_error : Type :=
| bad_depth
| handle_invalid
| symbol_required
| not_indexed
| hash_conflict (expected handle_hash : string)
| focus_failed (e : focus_error)
| bad_level
| not_found
| query_uncaught.

Record focus_output : Type := mkFocusOutput {
  fo_handle : string;
  fo_depth : Z;
  fo_filters : list string;
  fo_context : context
}.

(** [[t.strip() for t in types_filter.split(",") if t.strip()]] *)
Definition parse_types (types_filter : string) : list string :=
  filter (fun t => negb (is_empty t)) (map strip (split_on "," types_filter)).

(** The [focus] command on a database whose schema is up to date; [None]
    only if the traversal outlived its fuel. *)
Definition focus (d : db) (handle_text : string) (depth : Z) (types_filter : string)
  : option (result query_error focus_output) :=
  if depth <? 0 then Some (Err bad_depth)
  else
    let include_types := parse_types types_filter in
    match parse_handle handle_text with
    | None => Some (Err handle_invalid)
    | Some h =>
        if String.eqb (h_symbol h) "ANY" then Some (Err symbol_required)
        else
          match file_row_of d (h_repo_path h) with
          | None => Some (Err not_indexed)
          | Some file_row =>
              if negb (String.eqb (db_state file_row) "indexed") then Some (Err not_indexed)
              else if (negb (is_empty (h_hash h))
                       && negb (String.eqb (lower (h_hash h)) "sha256:any")
                       && negb (String.eqb (file_hash file_row) (h_hash h)))%bool
              then Some (Err (hash_conflict (file_hash file_row) (h_hash h)))
              else
                match get_context d (h_repo_path h) (h_symbol h) depth include_types with
                | None => None
                | Some (Err e) => Some (Err (focus_failed e))
                | Some (Ok context) =>
                    Some (Ok (mkFocusOutput handle_text depth include_types context))
                end
          end
    end.

(** [lines[a:b]] for any integers [a] and [b]. *)
Definition py_slice {A : Type} (l : list A) (a b : Z) : list A :=
  let len := Z.of_nat (List.length l) in
  let clamp i := Z.max 0 (Z.min len (if i <? 0 then i + len else i)) in
  firstn (Z.to_nat (clamp b - clamp a)) (skipn (Z.to_nat (clamp a)) l).

(** The [data] of [zoom]: a key that is absent is [None]. *)
Record zoom_data : Type := mkZoomData {
  z_l0 : option string;
  z_l1 : option string;
  z_l2 : option (option string);
  z_l3 : option json;
  z_l4 : option string;
  z_l4_error : bool
}.

Section Zoom.

Variable json_loads : string -> option json.
(** The order in which the engine walks the rows of [symbols] for a query
    with no [ORDER BY]: [walk_before a b] when it meets [a] before [b]
    whatever their places in the table.  A scan of the table has none; a
    walk of [idx_symbols_lookup] goes by name. *)
Variable walk_before : symbol_row -> symbol_row -> bool.

(** [x or d] for integers *)
Definition or_int (x : option Z) (d : Z) : Z :=
  match x with
  | Some n => if n =? 0 then d else n
  | None => d
  end.

(** The [zoom] command, on the connection's database and the working tree. *)
Definition zoom (w : world) (handle_text : string) (level : Z)
  : result query_error (string * Z * zoom_data) :=
  if ((level <? 0) || (level >? 4))%bool then Err bad_level
  else
    match parse_handle handle_text with
    | None => Err query_uncaught
    | Some h =>
        match stable_sort walk_before
                (filter
                   (fun s => (String.eqb (sym_path s) (h_repo_path h)
                              && (String.eqb (sym_name s) (h_symbol h)
                                  || String.eqb (h_symbol h) "ANY"))%bool)
                   (symbols (live w))) with
        | [] => Err not_found
        | r :: _ =>
            let l3 :=
              if level >=? 3 then
                match sym_l3_ast_json r with
                | Some text => if is_empty text then json_loads "{}" else json_loads text
                | None => json_loads "{}"
                end
              else Some JNull in
            match l3 with
            | None => Err query_uncaught
            | Some l3_value =>
                let l4 :=
                  if level >=? 4 then
                    match disk_read (h_repo_path h) (disk w) with
                    | Some text =>
                        let lines := splitlines text in
                        let s := or_int (sym_start_line r) 1 in
                        let e := or_int (sym_end_line r) (Z.of_nat (List.length lines)) in
                        (Some (join nl (py_slice lines (s - 1) e)), false)
                    | None => (None, true)
                    end
                  else (None, false) in
                Ok (handle_text, level,
                    mkZoomData (sym_l0_overview r) (sym_l1_contract r)
                               (if level >=? 2 then Some (sym_l2_pseudocode r) else None)
                               (if level >=? 3 then Some l3_value else None)
                               (fst l4) (snd l4))
            end
        end
    end.

End Zoom.

(** No character of [s] is [c]. *)
Fixpoint lacks (c : ascii) (s : string) : bool :=
  match s with
  | EmptyString => true
  | String x rest => (negb (Ascii.eqb x c) && lacks c rest)%bool
  end.

(** The text of a handle, in the format the comment of [parse_handle]
    gives: [ctx://{repo_path}::{symbol}@{hash}], then [#l{level}] when a
    level is given. *)
Definition handle_text (h : handle) : string :=
  "ctx://" ++ h_repo_path h ++ "::" ++ h_symbol h ++ "@" ++ h_hash h
    ++ match h_level h with
       | Some n => "#l" ++ str_of_nat (Z.to_nat n)
       | None => EmptyString
       end.


End Query.

(** ** Migration runner *)

Module Migrations.

(** The [Migration] dataclass: [version], [description], [checksum] and the
    SQL it runs. *)
Record Migration : Type := mkMigration {
  version : string;
  description : string;
  checksum : string;
  sql : string
}.

(** A row of [schema_migrations], whose [version] is [TEXT PRIMARY KEY];
    [applied_at] is a timestamp and is left out. *)
Record migration_record : Type := mkRecord {
  rec_version : string;
  rec_checksum : string;
  rec_description : string
}.

(** How [migrate] ends: with one of the errors it prints before
    [sys.exit(2)], or with the exception that leaves it. *)
Inductive migrate_end : Type :=
| invalid_options
| no_db_found
| rollback_failed
| type_error.

Section Runner.

(** The tables other than [schema_migrations]. *)
Variable schema : Type.
(** [conn.executescript(sql)]: the tables it leaves, and whether it ran to
    its end ([false] when a statement raises).  The script runs outside any
    transaction, so what it did before raising stays. *)
Variable executescript : string -> schema -> schema * bool.
(** [_table_exists] and [DROP TABLE IF EXISTS] on these tables. *)
Variable table_exists : string -> schema -> bool.
Variable drop_table : string -> schema -> schema.

(** The database as committed: the other tables, and the rows of
    [schema_migrations], [None] when the table is not there. *)
Record mdb : Type := mkMdb {
  tables : schema;
  schema_migrations : option (list migration_record)
}.

(** The versions on record, in the order they were written. *)
Definition recorded (d : mdb) : list string :=
  match schema_migrations d with
  | Some records => map rec_version records
  | None => []
  end.

(** [MigrationRunner(conn)]: [CREATE TABLE IF NOT EXISTS schema_migrations],
    committed. *)
Definition ensure_migrations_table (d : mdb) : mdb :=
  match schema_migrations d with
  | Some _ => d
  | None => mkMdb (tables d) (Some [])
  end.

(** [INSERT INTO schema_migrations]; [None] when the version, the primary
    key, is already there. *)
Definition insert_record (m : Migration) (records : list migration_record)
  : option (list migration_record) :=
  if existsb (fun r => String.eqb (rec_version r) (version m)) records then None
  else Some (records ++ [mkRecord (version m) (checksum m) (description m)])%list.

(** [MigrationRunner.apply_migration]: runs the SQL, records the version
    and commits.  The boolean is [false] when a statement raises; the record
    is then not written. *)
Definition apply_migration (d : mdb) (migration : Migration) : mdb * bool :=
  match executescript (sql migration) (tables d) with
  | (tables', false) => (mkMdb tables' (schema_migrations d), false)
  | (tables', true) =>
      match schema_migrations d with
      | None => (mkMdb tables' None, false)
      | Some records =>
          match insert_record migration records with
          | None => (mkMdb tables' (Some records), false)
          | Some records' => (mkMdb tables' (Some records'), true)
          end
      end
  end.

(** [ORDER BY version] on the [TEXT] column: the order of the strings. *)
Fixpoint insert_version (v : string) (l : list string) : list string :=
  match l with
  | [] => [v]
  | x :: l' => if String.leb v x then v :: l else x :: insert_version v l'
  end.

Definition sort_versions (l : list string) : list string :=
  fold_right insert_version [] l.

(** [MigrationRunner.get_applied_migrations] *)
Definition get_applied_migrations (d : mdb) : list string :=
  sort_versions (recorded d).

(** [MigrationRunner.get_pending_migrations]: it takes no target, and "for
    MVP" returns the empty list. *)
Definition get_pending_migrations (d : mdb) : list Migration := [].

(** The [migrate] command with the [MigrationRunner] of the sources, on the
    database file, [None] when there is none.  The class has no [rollback]:
    the call is an [AttributeError], which [except Exception] turns into
    [rollback_failed].  Its [get_pending_migrations] takes no argument: the
    call [runner.get_pending_migrations(target_version)] is a [TypeError],
    which nothing catches, so what follows it in [migrate] is never run. *)
Definition migrate (file : option mdb) (target_version : option Z) (dry_run : bool)
  (rollback : option Z) : migrate_end * option mdb :=
  let rolling := match rollback with Some _ => true | None => false end in
  if (dry_run && rolling)%bool then (invalid_options, file)
  else
    match file with
    | None => (no_db_found, None)
    | Some d =>
        let legacy :=
          (match schema_migrations d with Some _ => true | None => false end
           && negb (table_exists "symbols" (tables d)))%bool in
        let d1 :=
          if (legacy && negb dry_run && negb rolling)%bool
          then mkMdb (drop_table "db_version" (tables d)) None
          else d in
        let d2 := ensure_migrations_table d1 in
        if rolling then (rollback_failed, Some d2)
        else (type_error, Some d2)
    end.

End Runner.

End Migrations.

(** ** What the tables keep from one operation to the next *)

Module Integrity.
Import PyStr Agtag Store.

(** The rows of [symbols] and of [symbols_fts] of one file. *)
Definition symbols_in (d : db) (repo_path : string) : list symbol_row :=
  filter (fun s => String.eqb (sym_path s) repo_path) (symbols d).

Definition fts_in (d : db) (repo_path : string) : list fts_row :=
  filter (fun r => String.eqb (fts_path r) repo_path) (symbols_fts d).

(** [i] is the [id] of a row of [symbols]. *)
Definition has_symbol (d : db) (i : Z) : Prop :=
  exists s, In s (symbols d) /\ sym_id s = i.

(** Every row of [edges] joins two rows of [symbols]. *)
Definition edges_closed (d : db) : Prop :=
  forall e, In e (edges d) -> has_symbol d (src_id e) /\ has_symbol d (dst_id e).

(** [id] is a key of [symbols], [repo_path] a key of [files]. *)
Definition ids_unique (d : db) : Prop := NoDup (map sym_id (symbols d)).

Definition paths_unique (d : db) : Prop := NoDup (map file_path (files d)).

(** The row [r] as the table stores it under the id [i]. *)
Definition with_id (i : Z) (r : symbol_row) : symbol_row :=
  mkSymbol i (sym_path r) (sym_name r) (sym_kind r) (sym_signature r)
           (sym_start_line r) (sym_end_line r) (sym_content_hash r)
           (sym_l0_overview r) (sym_l1_contract r) (sym_l2_pseudocode r)
           (sym_l3_ast_json r).

(** An edge that the rebuild of a file derives: it joins two different
    symbols of the file and is a call or an inheritance. *)
Definition derived_edge (d : db) (repo_path : string) (e : edge_row) : Prop :=
  (exists a, In a (symbols_in d repo_path) /\ sym_id a = src_id e)
  /\ (exists b, In b (symbols_in d repo_path) /\ sym_id b = dst_id e)
  /\ src_id e <> dst_id e
  /\ (edge_type e = "calls" \/ edge_type e = "inherits").

(** A path component that names an entry of a directory: not empty, not
    [.], not [..], and without a slash. *)
Definition plain_component (c : string) : bool :=
  (negb (is_empty c) && negb (String.eqb c ".") && negb (String.eqb c "..")
   && Query.lacks "/" c)%bool.

(** The hash of a row whose two line numbers are given is the hash of
    those lines of [full_content], joined by newlines. *)
Definition hashed_slice (sha256_hex : string -> string) (full_content : string)
  (row : symbol_row) : Prop :=
  forall a b, sym_start_line row = Some a -> sym_end_line row = Some b ->
    1 <= a /\ a <= b /\ b <= Z.of_nat (List.length (splitlines full_content))
    /\ sym_content_hash row
       = Index.sha256_bytes sha256_hex
           (encode_utf8 (join nl (Diff.slice (splitlines full_content) (a - 1) b))).

End Integrity.

(** ** The [inventory] command *)

Module Inventory.
Import PyStr Agtag Store Index.

(** One line of the output: the row of [files] and what the command adds to
    it. *)
Record entry : Type := mkEntry {
  en_row : file_row;
  exists_on_disk : bool;
  disk_hash : option string;
  hash_matches : bool;
  status : string
}.

(** [counts[key] = counts.get(key, 0) + 1] on a dict kept in insertion
    order. *)
Fixpoint bump (key : string) (counts : list (string * Z)) : list (string * Z) :=
  match counts with
  | [] => [(key, 1)]
  | (k, n) :: rest =>
      if String.eqb k key then (k, n + 1) :: rest else (k, n) :: bump key rest
  end.

(** [counts.get(key, 0)] *)
Definition get_count (key : string) (counts : list (string * Z)) : Z :=
  match List.find (fun kv => String.eqb (fst kv) key) counts with
  | Some kv => snd kv
  | None => 0
  end.

(** The ["summary"] object: [by_state], [by_status], [total]. *)
Record summary : Type := mkSummary {
  by_state : list (string * Z);
  by_status : list (string * Z);
  total : Z
}.

(** [ORDER BY repo_path] *)
Definition path_before (a b : file_row) : bool :=
  Focus.is_lt (String.compare (file_path a) (file_path b)).

Section Command.

Variable sha256_hex : string -> string.

(** [get_file_hash]: the digest of the bytes of the file, [None] when there
    is no such file. *)
Definition get_file_hash (fs : list (string * string)) (path : string) : option string :=
  option_map (fun content => sha256_bytes sha256_hex (encode_utf8 content))
             (disk_read path fs).

(** The body of [for r in rows]. *)
Definition entry_of (fs : list (string * string)) (r : file_row) : entry :=
  let exists_ := match disk_read (file_path r) fs with Some _ => true | None => false end in
  let disk_hash := if exists_ then get_file_hash fs (file_path r) else None in
  let hash_matches :=
    match disk_hash with
    | Some h => (negb (is_empty (file_hash r)) && negb (is_empty h)
                 && String.eqb (file_hash r) h)%bool
    | None => false
    end in
  let status :=
    if String.eqb (db_state r) "missing" then "missing_in_db"
    else if negb exists_ then "missing_on_disk"
    else if hash_matches then "in_sync"
    else "stale_on_disk" in
  mkEntry r exists_ disk_hash hash_matches status.

(** The [inventory] command: the lines it prints, and the summary when it is
    asked for. *)
Definition inventory (w : world) (with_summary : bool) : list entry * option summary :=
  let rows := Focus.stable_sort path_before (files (live w)) in
  let entries := map (entry_of (disk w)) rows in
  (entries,
   if with_summary then
     Some (mkSummary
             (fold_left (fun counts e => bump (db_state (en_row e)) counts) entries [])
             (fold_left (fun counts e => bump (status e) counts) entries [])
             (Z.of_nat (List.length rows)))
   else None).

End Command.

End Inventory.

(** ** The [ingest] command *)

Module Cli.
Import PyStr Agtag Store Index Ops.

(** An entry of [failures] in directory mode. *)
Inductive bulk_failure : Type :=
| bulk_unsafe_path (rel : string) (hint : path_error)
| bulk_read_failed (rel : string)
| bulk_ingest_error (path : string) (e : ingest_error).

(** The variables of the loop over the files of a directory. *)
Record bulk_state : Type := mkBulk {
  successes : list (string * string);
  failures : list bulk_failure;
  bulk_world : world
}.

(** What directory mode prints: [ok], [files_ingested], [results] and
    [errors] (absent when empty); the exit status is 2 when [ok] is false. *)
Record bulk_report : Type := mkReport {
  ok : bool;
  files_ingested : Z;
  results : list (string * string);
  errors : list bulk_failure
}.

(** What single-file mode prints before [sys.exit(2)]; [cli_crashed] is an
    exception that the command does not catch: it prints nothing. *)
Inductive ingest_cli_error : Type :=
| invalid_arguments
| cli_unsafe_path (hint : path_error)
| cli_ingest_error (e : ingest_error)
| cli_crashed (exc : upsert_error).

Section Ingest.

Variable json_loads : string -> option json.
Variable sha256_hex : string -> string.
Variable json_dumps : json -> string.
Variable ast_parse : string -> ast_outcome.
Variable cwd : string.
(** [agentdb.auto_tagger.generate_agtag] *)
Variable generate_agtag : string -> string -> string.

(** [_maybe_auto_tag] *)
Definition maybe_auto_tag (content safe_path : string) (auto_tag : bool) : string :=
  if negb auto_tag then content
  else if ((endswith (lower safe_path) ".md" || endswith (lower safe_path) ".markdown")
           && negb (contains AGTAG_START content))%bool
  then generate_agtag content safe_path
  else content.

(** The body of [for file_path in bar], [rel] being the path of the file
    relative to the working directory.  An [IngestError] is caught and goes
    to [failures]; any other exception leaves the loop, and is returned
    beside the state. *)
Definition bulk_step (auto_tag : bool) (st : bulk_state) (rel : string)
  : option upsert_error * bulk_state :=
  match ensure_repo_relative_path cwd rel with
  | Err exc =>
      (None,
       mkBulk (successes st) (failures st ++ [bulk_unsafe_path rel exc]) (bulk_world st))
  | Ok safe_path =>
      match disk_read rel (disk (bulk_world st)) with
      | None =>
          (None,
           mkBulk (successes st) (failures st ++ [bulk_read_failed rel]) (bulk_world st))
      | Some text =>
          let content := maybe_auto_tag text safe_path auto_tag in
          match ingest_file_content json_loads sha256_hex json_dumps ast_parse
                  (bulk_world st) safe_path content auto_tag with
          | (Ok result, w') => (None, mkBulk (successes st ++ [result]) (failures st) w')
          | (Err (ingest_crashed exc), w') =>
              (Some exc, mkBulk (successes st) (failures st) w')
          | (Err e, w') =>
              (None,
               mkBulk (successes st) (failures st ++ [bulk_ingest_error safe_path e]) w')
          end
      end
  end.

(** The loop over the files. *)
Fixpoint bulk_loop (auto_tag : bool) (files : list string) (st : bulk_state)
  : option upsert_error * bulk_state :=
  match files with
  | [] => (None, st)
  | rel :: rest =>
      match bulk_step auto_tag st rel with
      | (Some exc, st') => (Some exc, st')
      | (None, st') => bulk_loop auto_tag rest st'
      end
  end.

(** Directory mode, on the files [_collect_directory_files] found: the
    report it prints, or the exception that ends it before it prints.  The
    connection is closed at the end either way, which drops what is not
    committed. *)
Definition ingest_directory (w : world) (files : list string) (auto_tag : bool)
  : result ingest_cli_error bulk_report * world :=
  match bulk_loop auto_tag files (mkBulk [] [] w) with
  | (Some exc, st) => (Err (cli_crashed exc), exit (bulk_world st))
  | (None, st) =>
      (Ok (mkReport (match failures st with [] => true | _ => false end)
                    (Z.of_nat (List.length (successes st)))
                    (successes st) (failures st)),
       exit (bulk_world st))
  end.

(** Single-file mode, [stdin] being the text it reads. *)
Definition ingest_path (w : world) (path stdin : string) (auto_tag : bool)
  : result ingest_cli_error (string * string) * world :=
  match ensure_repo_relative_path cwd path with
  | Err exc => (Err (cli_unsafe_path exc), exit w)
  | Ok safe_path =>
      let content := maybe_auto_tag stdin safe_path auto_tag in
      match ingest_file_content json_loads sha256_hex json_dumps ast_parse
              w safe_path content true with
      | (Ok result, w') => (Ok result, exit w')
      | (Err (ingest_crashed exc), w') => (Err (cli_crashed exc), exit w')
      | (Err e, w') => (Err (cli_ingest_error e), exit w')
      end
  end.

(** The [ingest] command: exactly one of [--path] and [--directory]. *)
Definition ingest (w : world) (path : option string) (directory : option (list string))
  (stdin : string) (auto_tag : bool)
  : (result ingest_cli_error (string * string)
     + result ingest_cli_error bulk_report) * world :=
  let path_given :=
    match path with Some p => negb (is_empty p) | None => false end in
  match directory with
  | Some files =>
      if path_given then (inl (Err invalid_arguments), w)
      else let (r, w') := ingest_directory w files auto_tag in (inr r, w')
  | None =>
      match path with
      | Some p =>
          if path_given then let (r, w') := ingest_path w p stdin auto_tag in (inl r, w')
          else (inl (Err invalid_arguments), w)
      | None => (inl (Err invalid_arguments), w)
      end
  end.

End Ingest.

End Cli.

(** ** SHA-256, as [hashlib.sha256] computes it *)

Module Sha256.
Import PyStr.

(** Words are 32-bit integers; sums wrap around. *)
Definition mask32 : Z := 4294967295.
Definition add32 (a b : Z) : Z := Z.land (a + b) mask32.
Definition rotr (n x : Z) : Z :=
  Z.land (Z.lor (Z.shiftr x n) (Z.shiftl x (32 - n))) mask32.
Definition shr (n x : Z) : Z := Z.shiftr x n.
Definition not32 (x : Z) : Z := Z.lxor x mask32.

Definition ch (x y z : Z) : Z := Z.lxor (Z.land x y) (Z.land (not32 x) z).
Definition maj (x y z : Z) : Z :=
  Z.lxor (Z.lxor (Z.land x y) (Z.land x z)) (Z.land y z).
Definition big_sigma0 (x : Z) : Z := Z.lxor (Z.lxor (rotr 2 x) (rotr 13 x)) (rotr 22 x).
Definition big_sigma1 (x : Z) : Z := Z.lxor (Z.lxor (rotr 6 x) (rotr 11 x)) (rotr 25 x).
Definition small_sigma0 (x : Z) : Z := Z.lxor (Z.lxor (rotr 7 x) (rotr 18 x)) (shr 3 x).
Definition small_sigma1 (x : Z) : Z := Z.lxor (Z.lxor (rotr 17 x) (rotr 19 x)) (shr 10 x).

(** The largest [r] below [2 ^ bits] with [r ^ 3 <= n]. *)
Fixpoint cube_root (bits : nat) (n r : Z) : Z :=
  match bits with
  | O => r
  | S b =>
      let r' := r + Z.shiftl 1 (Z.of_nat b) in
      cube_root b n (if r' * r' * r' <=? n then r' else r)
  end.

Definition primes : list Z :=
  [2; 3; 5; 7; 11; 13; 17; 19; 23; 29; 31; 37; 41; 43; 47; 53;
   59; 61; 67; 71; 73; 79; 83; 89; 97; 101; 103; 107; 109; 113; 127; 131;
   137; 139; 149; 151; 157; 163; 167; 173; 179; 181; 191; 193; 197; 199; 211; 223;
   227; 229; 233; 239; 241; 251; 257; 263; 269; 271; 277; 281; 283; 293; 307; 311].

(** The round constants: the first 32 bits of the fractional parts of the
    cube roots of the first 64 primes. *)
Definition K : list Z :=
  Eval vm_compute in
    map (fun p => Z.land (cube_root 36 (Z.shiftl p 96) 0) mask32) primes.

(** The initial hash: the same of the square roots of the first 8 primes. *)
Definition H0 : list Z :=
  Eval vm_compute in
    map (fun p => Z.land (Z.sqrt (Z.shiftl p 64)) mask32) (firstn 8 primes).

Fixpoint bytes_of (s : string) : list Z :=
  match s with
  | EmptyString => []
  | String c rest => Z.of_N (code c) :: bytes_of rest
  end.

(** The message, the byte 0x80, zero bytes up to 56 modulo 64, and the
    length of the message in bits on eight bytes. *)
Definition pad (message : list Z) : list Z :=
  let len := Z.of_nat (List.length message) in
  let zeros := Z.to_nat ((55 - len) mod 64) in
  let bits := 8 * len in
  (message ++ [128] ++ repeat 0 zeros
     ++ map (fun i => Z.land (Z.shiftr bits (8 * (7 - Z.of_nat i))) 255) (seq 0 8))%list.

(** Big-endian words of four bytes. *)
Fixpoint words_of (fuel : nat) (bytes : list Z) : list Z :=
  match fuel, bytes with
  | S fuel', a :: b :: c :: d :: rest =>
      (Z.shiftl a 24 + Z.shiftl b 16 + Z.shiftl c 8 + d) :: words_of fuel' rest
  | _, _ => []
  end.

Definition word (ws : list Z) (i : nat) : Z := nth i ws 0.

(** The message schedule: sixteen words of the block, then 48 derived. *)
Fixpoint schedule (n : nat) (ws : list Z) : list Z :=
  match n with
  | O => ws
  | S n' =>
      let t := List.length ws in
      let w := add32 (add32 (small_sigma1 (word ws (t - 2))) (word ws (t - 7)))
                     (add32 (small_sigma0 (word ws (t - 15))) (word ws (t - 16))) in
      schedule n' (ws ++ [w])%list
  end.

Definition round (state : list Z) (kw : Z * Z) : list Z :=
  match state with
  | [a; b; c; d; e; f; g; h] =>
      let t1 := add32 (add32 (add32 h (big_sigma1 e)) (add32 (ch e f g) (fst kw))) (snd kw) in
      let t2 := add32 (big_sigma0 a) (maj a b c) in
      [add32 t1 t2; a; b; c; add32 d t1; e; f; g]
  | _ => state
  end.

Definition compress (hash block : list Z) : list Z :=
  let w := schedule 48 block in
  let out := fold_left round (combine K w) hash in
  map (fun p => add32 (fst p) (snd p)) (combine hash out).

Fixpoint blocks_of (fuel : nat) (ws : list Z) : list (list Z) :=
  match fuel, ws with
  | O, _ | _, [] => []
  | S fuel', _ => firstn 16 ws :: blocks_of fuel' (skipn 16 ws)
  end.

Definition hex_digit (n : Z) : ascii :=
  if n <? 10 then ascii_of_N (Z.to_N (48 + n)) else ascii_of_N (Z.to_N (87 + n)).

Definition hex_word (w : Z) : string :=
  fold_right (fun i s => String (hex_digit (Z.land (Z.shiftr w (4 * (7 - Z.of_nat i))) 15)) s)
             EmptyString (seq 0 8).

(** [hashlib.sha256(b).hexdigest()], [b] given a character per byte. *)
Definition hexdigest (b : string) : string :=
  let bytes := pad (bytes_of b) in
  let ws := words_of (List.length bytes) bytes in
  let h := fold_left compress (blocks_of (List.length ws) ws) H0 in
  String.concat EmptyString (map hex_word h).

End Sha256.

(** ** Concrete runs: library functions and sample inputs *)

Module Sample.
Import PyStr Agtag Store.

(** A [json.loads] that knows one document. *)
Definition loads_only (text : string) (value : json) (s : string) : option json :=
  if String.eqb s text then Some value else None.

Definition quoted (s : string) : string := dquote ++ s ++ dquote.

Fixpoint escape (s : string) : string :=
  match s with
  | EmptyString => EmptyString
  | String c rest =>
      if (Ascii.eqb c "034" || Ascii.eqb c "092")%bool
      then String "092" (String c (escape rest))
      else String c (escape rest)
  end.

(** [json.dumps], on values whose strings are printable ASCII. *)
Fixpoint dumps (v : json) : string :=
  match v with
  | JNull => "null"
  | JBool true => "true"
  | JBool false => "false"
  | JInt n => NilEmpty.string_of_int (Z.to_int n)
  | JStr s => quoted (escape s)
  | JArr items => "[" ++ String.concat ", " (map dumps items) ++ "]"
  | JObj fields =>
      "{" ++ String.concat ", "
               (map (fun kv => let '(k, x) := kv in
                               quoted (escape k) ++ ": " ++ dumps x) fields)
          ++ "}"
  end.

Definition example_code : string :=
  "def example(a,b):" ++ nl ++ "    return a+b" ++ nl.

Definition edited_code : string :=
  "def example(a,b):" ++ nl ++ "    return a-b" ++ nl.

(** [ast.parse] and the walk over its result, on the two sources of the
    examples: one function, [example], defined on line 1, that calls
    nothing. *)
Definition parse_known (source : string) : ast_outcome :=
  if (String.eqb source example_code || String.eqb source edited_code)%bool
  then Ok [FunctionDef "example" 1 []] else Err SyntaxError.

Definition example_symbol : json :=
  JObj [("path", JStr "src/example.py"); ("name", JStr "example");
        ("kind", JStr "function"); ("lines", JArr [JInt 1; JInt 2]);
        ("summary_l0", JStr "adds two numbers");
        ("contract_l1", JStr "@io a:int,b:int -> int")].

Definition example_agtag : json :=
  JObj [("version", JStr "v1"); ("symbols", JArr [example_symbol])].

(** The text of [example_agtag]. *)
Definition example_json : string :=
  "{" ++ quoted "version" ++ ":" ++ quoted "v1" ++ "," ++ quoted "symbols" ++ ":[{"
      ++ quoted "path" ++ ":" ++ quoted "src/example.py" ++ ","
      ++ quoted "name" ++ ":" ++ quoted "example" ++ ","
      ++ quoted "kind" ++ ":" ++ quoted "function" ++ ","
      ++ quoted "lines" ++ ":[1,2],"
      ++ quoted "summary_l0" ++ ":" ++ quoted "adds two numbers" ++ ","
      ++ quoted "contract_l1" ++ ":" ++ quoted "@io a:int,b:int -> int" ++ "}]}".

(** [json.loads] on the one document of the examples. *)
Definition loads : string -> option json := loads_only example_json example_agtag.

(** A file as [ingest] receives it: the code, then the metadata block. *)
Definition example_content : string :=
  example_code ++ nl ++ nl ++ "<!--AGTAG v1 START-->" ++ nl
    ++ example_json ++ nl ++ "<!--AGTAG v1 END-->" ++ nl.

Definition blank_world : world := mkWorld [] empty_db empty_db [].

(** A metadata document whose extra key [x] holds ten lists nested in one
    another, the innermost empty: with the document itself, eleven
    containers. *)
Definition deep_agtag : json :=
  JObj [("version", JStr "v1"); ("symbols", JArr []); ("x", nest 9 (JArr []))].

Definition deep_text : string :=
  "{" ++ quoted "version" ++ ":" ++ quoted "v1" ++ "," ++ quoted "symbols" ++ ":[],"
      ++ quoted "x" ++ ":[[[[[[[[[[]]]]]]]]]]}".

Definition deep_block : string :=
  AGTAG_START ++ nl ++ deep_text ++ nl ++ AGTAG_END ++ nl.

(** The same nesting around a number. *)
Definition deep_agtag_filled : json :=
  JObj [("version", JStr "v1"); ("symbols", JArr []); ("x", nest 9 (JArr [JInt 0]))].

(** The store after the ingest of a file in which [main] calls [helper]. *)
Definition demo_symbol (id : Z) (name : string) (first last : Z) (l0 : string)
  : symbol_row :=
  mkSymbol id "src/focus_demo.py" name "function" None (Some first) (Some last)
           "sha256:aa" (Some l0) None None None.

Definition focus_db : db :=
  mkDb [mkFile "src/focus_demo.py" "sha256:1234" "indexed"]
       [demo_symbol 1 "helper" 1 2 "returns 42"; demo_symbol 2 "main" 5 7 "calls helper"]
       []
       [mkEdge 2 1 "calls"]
       [].

Definition focus_world : world := mkWorld [] focus_db focus_db [].

(** A handle on [main] that carries a hash other than the stored one. *)
Definition stale_handle : string := "ctx://src/focus_demo.py::main@sha256:deadbeef".

(** A store in which [src/example.py] is indexed. *)
Definition indexed_world : world :=
  let d := mkDb [mkFile "src/example.py" "sha256:00" "indexed"] [] [] [] [] in
  mkWorld [] d d [].

(** The first ingest of the example file into an empty store. *)
Definition first_ingest : result Ops.ingest_error (string * string) * world :=
  Ops.ingest_file_content loads Sha256.hexdigest dumps parse_known
    blank_world "src/example.py" example_content true.


(** A database in which no version is recorded, the tables being stood for
    by their names, and [migrate --target-version 1] on it. *)
Definition has_table (name : string) (names : list string) : bool :=
  existsb (String.eqb name) names.

Definition without_table (name : string) (names : list string) : list string :=
  filter (fun n => negb (String.eqb n name)) names.

Definition run_script (sql : string) (names : list string) : list string * bool :=
  ((names ++ [sql])%list, negb (String.eqb sql "RAISE")).

Definition unmigrated : Migrations.mdb (list string) :=
  Migrations.mkMdb (list string) ["files"; "symbols"] (Some []).

Definition migrate_to_1 : Migrations.migrate_end * option (Migrations.mdb (list string)) :=
  Migrations.migrate (list string) has_table without_table
    (Some unmigrated) (Some 1) false None.

(** The database of [tests/test_migrate_command.py]: [schema_migrations]
    with one row and no other table; and [migrate] on it. *)
Definition legacy_db : Migrations.mdb (list string) :=
  Migrations.mkMdb (list string) []
    (Some [Migrations.mkRecord "001_initial_schema" "abc" "legacy"]).

Definition migrate_legacy : Migrations.migrate_end * option (Migrations.mdb (list string)) :=
  Migrations.migrate (list string) has_table without_table
    (Some legacy_db) None false None.


(** The [patch] command on the store the first ingest leaves, with the hash
    that ingest recorded. *)
Definition run_patch (stdin : string)
  : result Ops.patch_error (string * string) * world :=
  Ops.patch loads Sha256.hexdigest dumps parse_known "/repo"
    (snd first_ingest) "src/example.py"
    (Index.sha256_bytes Sha256.hexdigest (encode_utf8 example_content)) stdin.

(** A diff that replaces the JSON line of the metadata block by text without
    braces. *)
Definition breaking_diff : string :=
  Diff.diff_text "src/example.py"
    [Diff.mkHunk 5 [Diff.Deletion example_json; Diff.Addition "broken"]].

Definition broken_content : string :=
  example_code ++ nl ++ nl ++ "<!--AGTAG v1 START-->" ++ nl
    ++ "broken" ++ nl ++ "<!--AGTAG v1 END-->" ++ nl.

(** A file without a final newline, and the diff that adds one. *)
Definition unterminated : string := "a" ++ nl ++ "b".

Definition terminated : string := "a" ++ nl ++ "b" ++ nl.

Definition terminating_hunks : list Diff.hunk :=
  [Diff.mkHunk 0 [Diff.Context "a"; Diff.Deletion "b"; Diff.NoNewlineMarker;
                  Diff.Addition "b"]].

(** A diff that names its file and has no hunk. *)
Definition headers_only : string :=
  "--- a/f.py" ++ nl ++ "+++ b/f.py" ++ nl.

(** A diff that edits the body of [example]. *)
Definition editing_diff : string :=
  Diff.diff_text "src/example.py"
    [Diff.mkHunk 1 [Diff.Deletion "    return a+b"; Diff.Addition "    return a-b"]].

(** The file of the traversal tests, in which [main] calls [helper]. *)
Definition demo_code : string :=
  "def helper():" ++ nl ++ "    return 42" ++ nl ++ nl ++ nl
    ++ "def main():" ++ nl ++ "    value = helper()" ++ nl
    ++ "    return value * 2" ++ nl.

Definition demo_descriptor (name : string) (first last : Z) (l0 : string) : json :=
  JObj [("path", JStr "src/focus_demo.py"); ("name", JStr name);
        ("kind", JStr "function"); ("lines", JArr [JInt first; JInt last]);
        ("summary_l0", JStr l0); ("contract_l1", JStr "@io -> int")].

Definition demo_agtag : json :=
  JObj [("version", JStr "v1");
        ("symbols", JArr [demo_descriptor "helper" 1 2 "returns 42";
                          demo_descriptor "main" 5 7 "calls helper"])].

Definition demo_json : string := dumps demo_agtag.

Definition demo_content : string :=
  demo_code ++ nl ++ nl ++ "<!--AGTAG v1 START-->" ++ nl
    ++ demo_json ++ nl ++ "<!--AGTAG v1 END-->" ++ nl.

Definition demo_loads : string -> option json := loads_only demo_json demo_agtag.

(** [ast.parse] on [demo_code]: two functions, the second calls the first. *)
Definition parse_demo (source : string) : ast_outcome :=
  if String.eqb source demo_code
  then Ok [FunctionDef "helper" 1 []; FunctionDef "main" 5 ["helper"]]
  else Err SyntaxError.

(** The rebuild of the symbols of that file in an empty store, and its
    ingest. *)
Definition demo_rebuild : result Index.upsert_error unit * world :=
  Index.upsert_symbols Sha256.hexdigest dumps parse_demo
    blank_world "src/focus_demo.py" demo_agtag demo_code.

Definition demo_ingest : result Ops.ingest_error (string * string) * world :=
  Ops.ingest_file_content demo_loads Sha256.hexdigest dumps parse_demo
    blank_world "src/focus_demo.py" demo_content true.

(** The context of [main] at depth 1 in the store that ingest leaves. *)
Definition demo_store : db := live (snd demo_ingest).

(** The row of [main] in that store. *)
Definition demo_main : symbol_row :=
  match Focus.symbol_by_name demo_store "src/focus_demo.py" "main" with
  | Some symbol => symbol
  | None => mkSymbol 0 EmptyString EmptyString EmptyString None None None EmptyString
                     None None None None
  end.

Definition demo_context : Focus.context :=
  match Focus.get_context demo_store "src/focus_demo.py" "main" 1 [] with
  | Some (Ok ctx) => ctx
  | _ => Focus.mkContext
           (Focus.mkPrimary 0 EmptyString EmptyString EmptyString None None None None)
           [] [] (Focus.mkStats 0 0 0)
  end.

(** [zoom] on [main] in the store that ingest leaves, with a [json.loads]
    that knows the empty object. *)
Definition demo_handle : string := "ctx://src/focus_demo.py::main@sha256:ANY".

Definition loads_empty_object : string -> option json := loads_only "{}" (JObj []).

(** A decoder that knows the sample document and the empty object. *)
Definition demo_loads_all (text : string) : option json :=
  if String.eqb text "{}" then Some (JObj []) else demo_loads text.

(** The order of a walk of [idx_symbols_lookup], an index on
    [(repo_path, name)]: by name, then by [id]. *)
Definition index_order (a b : symbol_row) : bool :=
  Focus.is_lt (Focus.lex (String.compare (sym_name a) (sym_name b))
                         (Z.compare (sym_id a) (sym_id b))).

Definition demo_zoom (level : Z) : result Query.query_error (string * Z * Query.zoom_data) :=
  Query.zoom loads_empty_object index_order (snd demo_ingest) demo_handle level.

(** What [zoom] prints at level 4. *)
Definition demo_zoom_out : string * Z * Query.zoom_data :=
  match demo_zoom 4 with
  | Ok out => out
  | Err _ => (EmptyString, 0, Query.mkZoomData None None None None None false)
  end.

Definition demo_zoom_data (level : Z) : Query.zoom_data :=
  match demo_zoom level with
  | Ok (_, _, data) => data
  | Err _ => Query.mkZoomData None None None None None false
  end.

(** A tree of two files, the second without a metadata block, and the
    bulk ingest of both without [--auto-tag]. *)
Definition bulk_tree : world :=
  mkWorld [("notes.md", "plain notes"); ("src/focus_demo.py", demo_content)]
          empty_db empty_db [].

Definition keep_text (content safe_path : string) : string := content.

Definition demo_bulk : result Cli.ingest_cli_error Cli.bulk_report * world :=
  Cli.ingest_directory demo_loads Sha256.hexdigest dumps parse_demo "/repo" keep_text
    bulk_tree ["notes.md"; "src/focus_demo.py"] false.

Definition demo_bulk_report : Cli.bulk_report :=
  match fst demo_bulk with
  | Ok report => report
  | Err _ => Cli.mkReport false 0 [] []
  end.

(** [inventory --summary] on what that run leaves. *)
Definition demo_inventory : list Inventory.entry * option Inventory.summary :=
  Inventory.inventory Sha256.hexdigest (snd demo_bulk) true.

Definition demo_summary : Inventory.summary :=
  match snd demo_inventory with
  | Some sm => sm
  | None => Inventory.mkSummary [] [] 0
  end.

(** A document whose one symbol names lines 1 to 9. *)
Definition long_range_agtag : json :=
  JObj [("version", JStr "v1");
        ("symbols", JArr [JObj [("name", JStr "f"); ("kind", JStr "function");
                                ("lines", JArr [JInt 1; JInt 9])]])].

(** A file of one line whose block is [long_range_agtag], and its ingest
    into an empty store. *)
Definition long_range_content : string :=
  "pass" ++ nl ++ nl ++ nl ++ "<!--AGTAG v1 START-->" ++ nl
    ++ dumps long_range_agtag ++ nl ++ "<!--AGTAG v1 END-->" ++ nl.

Definition long_range_ingest : result Ops.ingest_error (string * string) * world :=
  Ops.ingest_file_content (loads_only (dumps long_range_agtag) long_range_agtag)
    Sha256.hexdigest dumps parse_known blank_world "f.py" long_range_content true.





(** The example file after [editing_diff]. *)
Definition edited_content : string :=
  edited_code ++ nl ++ nl ++ "<!--AGTAG v1 START-->" ++ nl
    ++ example_json ++ nl ++ "<!--AGTAG v1 END-->" ++ nl.

End Sample.

(** * Properties *)

(** ** File state machine *)

Module StoreFacts.
Import PyStr Agtag Store Index Ops.

Lemma find_put_file_row : forall row rows,
  List.find (fun r => String.eqb (file_path r) (file_path row)) (put_file_row row rows)
  = Some row.
Proof.
  intros row rows. induction rows as [|r rows IH]; simpl.
  - now rewrite String.eqb_refl.
  - destruct (String.eqb (file_path r) (file_path row)) eqn:E; simpl.
    + now rewrite String.eqb_refl.
    + now rewrite E.
Qed.

Lemma file_state_upsert_file : forall d path h st,
  file_state (upsert_file d path h st) path = st.
Proof.
  intros. unfold file_state, file_row_of, upsert_file. simpl.
  now rewrite (find_put_file_row (mkFile path h st)).
Qed.

Lemma file_row_upsert_file : forall d path h st,
  file_row_of (upsert_file d path h st) path = Some (mkFile path h st).
Proof.
  intros. unfold file_row_of, upsert_file. simpl.
  apply (find_put_file_row (mkFile path h st)).
Qed.

Lemma file_state_log_op : forall d op details path,
  file_state (log_op d op details) path = file_state d path.
Proof. reflexivity. Qed.

Lemma disk_read_put : forall path content fs,
  disk_read path (disk_put path content fs) = Some content.
Proof.
  intros path content fs. induction fs as [|[p c] fs IH]; simpl.
  - now rewrite String.eqb_refl.
  - destruct (String.eqb p path) eqn:E; simpl; now rewrite E.
Qed.

Section WithLibraries.

Variable json_loads : string -> option json.
Variable sha256_hex : string -> string.
Variable json_dumps : json -> string.
Variable ast_parse : string -> ast_outcome.

Local Abbreviation upsert_symbols := (upsert_symbols sha256_hex json_dumps ast_parse).
Local Abbreviation ingest_file_content :=
  (ingest_file_content json_loads sha256_hex json_dumps ast_parse).

(** The rebuild leaves the [files] table and the working tree alone. *)
Lemma upsert_symbols_files : forall w path agtag content r w',
  upsert_symbols w path agtag content = (r, w') ->
  files (live w') = files (live w) /\ disk w' = disk w.
Proof.
  intros w path agtag content r w' H. unfold Index.upsert_symbols in H.
  destruct (parsed_ast_of _ _ _) as [parsed|e]; [|inversion H; subst; simpl; auto].
  destruct (symbol_rows_of _ _ _ _ _) as [rows|e]; [|inversion H; subst; simpl; auto].
  destruct (forallb bindable rows); inversion H; subst; clear H.
  - destruct rows; simpl; auto.
  - simpl; auto.
Qed.

(** What a successful ingest leaves behind. *)
Lemma ingest_success : forall w path content to_disk r w',
  ingest_file_content w path content to_disk = (Ok r, w') ->
  r = (path, sha256_bytes sha256_hex (encode_utf8 content))
  /\ file_state (live w) path = "missing"
  /\ file_row_of (live w') path
     = Some (mkFile path (sha256_bytes sha256_hex (encode_utf8 content)) "indexed")
  /\ durable w' = live w'
  /\ disk w' = (if to_disk then disk_put path (rstrip_nl content ++ nl) (disk w)
                else disk w).
Proof.
  intros w path content to_disk r w' H. unfold Ops.ingest_file_content in H.
  destruct (String.eqb (file_state (live w) path) "missing") eqn:Est; simpl in H;
    [|discriminate].
  apply String.eqb_eq in Est.
  destruct (split_agtag content) as [code [block|]]; [|discriminate].
  destruct (parse_agtag_block json_loads block path) as [agtag|e]; [|discriminate].
  destruct (Index.upsert_symbols _ _ _ _ _ _ _) as [[u|e] w2] eqn:Eup;
    [|destruct (is_value_error e); discriminate].
  apply upsert_symbols_files in Eup. destruct Eup as [Hf Hd].
  inversion H; subst; clear H. simpl.
  repeat split; auto.
  - apply file_row_upsert_file.
  - rewrite Hd. destruct to_disk; reflexivity.
Qed.

Lemma ingest_not_missing : forall w path content to_disk,
  file_state (live w) path <> "missing" ->
  ingest_file_content w path content to_disk
  = (Err (indexed_file_rejects_full_content path), w).
Proof.
  intros w path content to_disk H. unfold Ops.ingest_file_content.
  destruct (String.eqb (file_state (live w) path) "missing") eqn:E.
  - apply String.eqb_eq in E. contradiction.
  - reflexivity.
Qed.

(** C5. [ingest] goes through only from the state [missing]: on a path whose
    state is anything else, [indexed] in particular, it fails with
    [indexed_file_rejects_full_content] and leaves the working tree, the open
    transaction and the committed database as they were. *)
Theorem ingest_rejected_unless_missing : forall w path content to_disk,
  file_state (live w) path <> "missing" ->
  ingest_file_content w path content to_disk
  = (Err (indexed_file_rejects_full_content path), w).
Proof. exact ingest_not_missing. Qed.

(** A run that succeeds started from [missing]. *)
Lemma ingest_ok_from_missing : forall w path content to_disk r w',
  ingest_file_content w path content to_disk = (Ok r, w') ->
  file_state (live w) path = "missing".
Proof. intros w path content to_disk r w' H. now apply ingest_success in H. Qed.

(** C8. After a first ingest of a file, ingesting the same content again does
    not rebuild anything: the call is rejected and the [symbols] and [edges]
    rows, committed or not, are the ones the first ingest wrote. *)
Theorem reingest_keeps_rows : forall w path content to_disk r w1,
  ingest_file_content w path content to_disk = (Ok r, w1) ->
  forall to_disk',
  let (outcome, w2) := ingest_file_content w1 path content to_disk' in
  outcome = Err (indexed_file_rejects_full_content path)
  /\ symbols (live w2) = symbols (live w1)
  /\ edges (live w2) = edges (live w1)
  /\ symbols (durable w2) = symbols (live w1)
  /\ edges (durable w2) = edges (live w1)
  /\ w2 = w1.
Proof.
  intros w path content to_disk r w1 H to_disk'.
  apply ingest_success in H. destruct H as (_ & _ & Hrow & Hdur & _).
  rewrite ingest_not_missing.
  - rewrite Hdur. repeat split; reflexivity.
  - unfold file_state. rewrite Hrow. simpl. discriminate.
Qed.

End WithLibraries.

Lemma ingest_rejected_unless_missing_witness :
  file_state (live Sample.indexed_world) "src/example.py" <> "missing"
  /\ Ops.ingest_file_content Sample.loads
       Sha256.hexdigest Sample.dumps Sample.parse_known
       Sample.indexed_world "src/example.py" Sample.example_content true
     = (Err (indexed_file_rejects_full_content "src/example.py"), Sample.indexed_world).
Proof.
  split.
  - discriminate.
  - apply ingest_rejected_unless_missing. discriminate.
Defined.

Lemma reingest_keeps_rows_witness :
  fst Sample.first_ingest
  = Ok ("src/example.py", Index.sha256_bytes Sha256.hexdigest (encode_utf8 Sample.example_content))
  /\ let (outcome, w2) :=
       Ops.ingest_file_content Sample.loads
         Sha256.hexdigest Sample.dumps Sample.parse_known
         (snd Sample.first_ingest) "src/example.py" Sample.example_content true in
     outcome = Err (indexed_file_rejects_full_content "src/example.py")
     /\ symbols (live w2) = symbols (live (snd Sample.first_ingest))
     /\ edges (live w2) = edges (live (snd Sample.first_ingest))
     /\ symbols (durable w2) = symbols (live (snd Sample.first_ingest))
     /\ edges (durable w2) = edges (live (snd Sample.first_ingest))
     /\ w2 = snd Sample.first_ingest.
Proof.
  split.
  - reflexivity.
  - apply (reingest_keeps_rows Sample.loads
             Sha256.hexdigest Sample.dumps Sample.parse_known
             Sample.blank_world "src/example.py" Sample.example_content true
             ("src/example.py", Index.sha256_bytes Sha256.hexdigest (encode_utf8 Sample.example_content))
             (snd Sample.first_ingest)).
    reflexivity.
Defined.

(** *** The recorded hash and the bytes on disk *)

Lemma ends_with_nl_cons : forall c s,
  s <> EmptyString -> ends_with_nl (String c s) = ends_with_nl s.
Proof. intros c s H. destruct s; [contradiction|reflexivity]. Qed.

Lemma rstrip_nl_cons : forall c r,
  rstrip_nl (String c r)
  = if ((code c =? 10)%N && is_empty (rstrip_nl r))%bool then EmptyString
    else String c (rstrip_nl r).
Proof. reflexivity. Qed.

Lemma rstrip_nl_append_nl : forall body,
  ends_with_nl body = false -> rstrip_nl (body ++ nl) = body.
Proof.
  induction body as [|c r IH]; intros H.
  - reflexivity.
  - change (String c r ++ nl) with (String c (r ++ nl)).
    rewrite rstrip_nl_cons.
    destruct r as [|c' r'].
    + simpl in *. rewrite H. reflexivity.
    + rewrite ends_with_nl_cons in H by discriminate.
      rewrite (IH H). simpl. now rewrite andb_false_r.
Qed.

Lemma rstrip_nl_no_trailing_nl : forall s, ends_with_nl (rstrip_nl s) = false.
Proof.
  induction s as [|c r IH]; [reflexivity|].
  simpl. destruct (rstrip_nl r) as [|c' r'] eqn:E.
  - destruct (code c =? 10)%N eqn:Ec; simpl; [reflexivity|exact Ec].
  - rewrite andb_false_r. rewrite ends_with_nl_cons by discriminate. exact IH.
Qed.

(** [s.rstrip("\n") + "\n"] is [s] exactly when [s] ends in one newline. *)
Lemma normalized_iff_one_newline : forall s,
  rstrip_nl s ++ nl = s <-> exactly_one_trailing_newline s.
Proof.
  intros s. split.
  - intros H. exists (rstrip_nl s). split; [now symmetry|apply rstrip_nl_no_trailing_nl].
  - intros [body [-> Hb]]. now rewrite rstrip_nl_append_nl.
Qed.

Lemma code_inj : forall a b, code a = code b -> a = b.
Proof.
  intros a b H. rewrite <- (ascii_N_embedding a), <- (ascii_N_embedding b).
  unfold code in H. now rewrite H.
Qed.

Lemma code_lt_256 : forall a, (code a < 256)%N.
Proof. intros a. apply N_ascii_bounded. Qed.

Lemma code_ascii_of_N : forall n, (n < 256)%N -> code (ascii_of_N n) = n.
Proof. intros n H. apply N_ascii_embedding. exact H. Qed.

Lemma encode_utf8_cons : forall c r,
  encode_utf8 (String c r)
  = if (code c <? 128)%N then String c (encode_utf8 r)
    else String (ascii_of_N (192 + N.shiftr (code c) 6))
           (String (ascii_of_N (128 + N.land (code c) 63)) (encode_utf8 r)).
Proof. reflexivity. Qed.

Lemma String_inj : forall c c' s s',
  String c s = String c' s' -> c = c' /\ s = s'.
Proof. intros c c' s s' H. now inversion H. Qed.

(** The UTF-8 encoding loses nothing. *)
Lemma encode_utf8_inj : forall a b, encode_utf8 a = encode_utf8 b -> a = b.
Proof.
  induction a as [|c a IH]; intros b H.
  - destruct b as [|c' b]; [reflexivity|]. rewrite encode_utf8_cons in H.
    simpl in H. destruct (code c' <? 128)%N; discriminate.
  - destruct b as [|c' b]; rewrite ?encode_utf8_cons in H.
    + simpl in H. destruct (code c <? 128)%N; discriminate.
    + pose proof (code_lt_256 c) as Hc. pose proof (code_lt_256 c') as Hc'.
      assert (Hs : forall n, (n < 256)%N -> (N.shiftr n 6 < 4)%N).
      { intros n Hn. rewrite N.shiftr_div_pow2. apply N.Div0.div_lt_upper_bound.
        exact Hn. }
      assert (Hl : forall n, (N.land n 63 < 64)%N).
      { intros n. change 63%N with (N.ones 6). rewrite N.land_ones.
        apply N.mod_lt. discriminate. }
      pose proof (Hs _ Hc) as H1. pose proof (Hs _ Hc') as H1'.
      pose proof (Hl (code c)) as H2. pose proof (Hl (code c')) as H2'.
      destruct (code c <? 128)%N eqn:E; destruct (code c' <? 128)%N eqn:E';
        apply String_inj in H; destruct H as [H Hrest].
      * subst c'. f_equal. now apply IH.
      * apply N.ltb_lt in E. apply N.ltb_ge in E'. exfalso.
        apply (f_equal code) in H. rewrite code_ascii_of_N in H by lia. lia.
      * apply N.ltb_ge in E. apply N.ltb_lt in E'. exfalso.
        apply (f_equal code) in H. rewrite code_ascii_of_N in H by lia. lia.
      * apply String_inj in Hrest. destruct Hrest as [Hlow Hrest].
        apply (f_equal code) in H, Hlow.
        rewrite !code_ascii_of_N in H, Hlow by lia.
        assert (Hq : N.shiftr (code c) 6 = N.shiftr (code c') 6) by lia.
        assert (Hr : N.land (code c) 63 = N.land (code c') 63) by lia.
        rewrite !N.shiftr_div_pow2 in Hq.
        change 63%N with (N.ones 6) in Hr. rewrite !N.land_ones in Hr.
        assert (Hcc : code c = code c').
        { rewrite (N.div_mod (code c) (2 ^ 6)), (N.div_mod (code c') (2 ^ 6))
            by discriminate.
          now rewrite Hq, Hr. }
        apply code_inj in Hcc. subst c'. f_equal. now apply IH.
Qed.

Section HashAndDisk.

Variable json_loads : string -> option json.
Variable sha256_hex : string -> string.
Variable json_dumps : json -> string.
Variable ast_parse : string -> ast_outcome.

Local Abbreviation ingest_file_content :=
  (ingest_file_content json_loads sha256_hex json_dumps ast_parse).
Local Abbreviation sha256_bytes := (sha256_bytes sha256_hex).

(** C9. After a successful single-file ingest the [files] row holds the digest
    of the content as submitted, and the file on disk holds the content with
    its trailing newlines replaced by one.  Unless the digest collides on
    these two byte strings, the recorded hash is the hash of the file on disk
    exactly when the submitted content ended in one newline and no more. *)
Theorem ingest_hash_and_disk : forall w path content r w',
  ingest_file_content w path content true = (Ok r, w') ->
  (sha256_hex (encode_utf8 content) = sha256_hex (encode_utf8 (rstrip_nl content ++ nl)) ->
   encode_utf8 content = encode_utf8 (rstrip_nl content ++ nl)) ->
  exists row on_disk,
    file_row_of (live w') path = Some row
    /\ disk_read path (disk w') = Some on_disk
    /\ file_hash row = sha256_bytes (encode_utf8 content)
    /\ on_disk = rstrip_nl content ++ nl
    /\ (file_hash row = sha256_bytes (encode_utf8 on_disk)
        <-> exactly_one_trailing_newline content).
Proof.
  intros w path content r w' H Hfree.
  apply (ingest_success json_loads sha256_hex json_dumps ast_parse) in H.
  destruct H as (_ & _ & Hrow & _ & Hdisk).
  exists (mkFile path (sha256_bytes (encode_utf8 content)) "indexed"),
         (rstrip_nl content ++ nl).
  repeat split; auto.
  - rewrite Hdisk. apply disk_read_put.
  - simpl. intros Heq. apply normalized_iff_one_newline.
    unfold Index.sha256_bytes in Heq. simpl in Heq.
    injection Heq as Heq. symmetry. apply encode_utf8_inj. now apply Hfree.
  - simpl. intros Hone. apply normalized_iff_one_newline in Hone. now rewrite Hone.
Qed.

End HashAndDisk.

Lemma ingest_hash_and_disk_witness :
  exists row on_disk,
    file_row_of (live (snd Sample.first_ingest)) "src/example.py" = Some row
    /\ disk_read "src/example.py" (disk (snd Sample.first_ingest)) = Some on_disk
    /\ file_hash row = sha256_bytes Sha256.hexdigest (encode_utf8 Sample.example_content)
    /\ on_disk = rstrip_nl Sample.example_content ++ nl
    /\ (file_hash row = sha256_bytes Sha256.hexdigest (encode_utf8 on_disk)
        <-> exactly_one_trailing_newline Sample.example_content).
Proof.
  apply (ingest_hash_and_disk Sample.loads
           Sha256.hexdigest Sample.dumps Sample.parse_known
           Sample.blank_world "src/example.py" Sample.example_content
           ("src/example.py", Index.sha256_bytes Sha256.hexdigest (encode_utf8 Sample.example_content))
           (snd Sample.first_ingest)).
  - vm_compute. reflexivity.
  - intros _. vm_compute. reflexivity.
Defined.

End StoreFacts.

(** ** Symbol index builder *)

Module IndexFacts.
Import PyStr Agtag Store Index.

Section Builder.

Variable sha256_hex : string -> string.
Variable json_dumps : json -> string.

Local Abbreviation symbol_row_of := (symbol_row_of sha256_hex json_dumps).
Local Abbreviation sha256_bytes := (sha256_bytes sha256_hex).

(** C10. A [lines] entry with one null endpoint passes [AGTAG_SCHEMA], and
    the row of its descriptor is built without any range check: whatever the
    other endpoint and whatever the length of the file, no line-range error
    is raised, both endpoints are stored as given, and [content_hash] is the
    digest of the whole text handed to the rebuild. *)
Theorem one_null_endpoint_skips_range_check :
  forall repo_path full_content s lines n,
  get "lines" s = Some (JArr lines) ->
  lines = [JInt n; JNull] \/ lines = [JNull; JInt n] ->
  lines_schema (JArr lines) = true
  /\ exists row,
       symbol_row_of repo_path full_content s = Ok row
       /\ sym_content_hash row = sha256_bytes (encode_utf8 full_content)
       /\ (lines = [JInt n; JNull] ->
           sym_start_line row = Some n /\ sym_end_line row = None)
       /\ (lines = [JNull; JInt n] ->
           sym_start_line row = None /\ sym_end_line row = Some n).
Proof.
  intros repo_path full_content s lines n Hget Hshape.
  split.
  - destruct Hshape as [-> | ->]; reflexivity.
  - unfold Index.symbol_row_of, raw_lines. rewrite Hget.
    destruct Hshape as [-> | ->]; simpl; eexists;
      (split; [reflexivity|]); (split; [reflexivity|]);
      split; intros Heq; try discriminate Heq; split; reflexivity.
Qed.

(** When both endpoints are given, the range is checked against the file. *)
Lemma both_endpoints_checked : forall repo_path full_content s a b,
  get "lines" s = Some (JArr [JInt a; JInt b]) ->
  b > Z.of_nat (List.length (splitlines full_content)) ->
  exists e, symbol_row_of repo_path full_content s = Err e.
Proof.
  intros repo_path full_content s a b Hget Hb.
  unfold Index.symbol_row_of, raw_lines. rewrite Hget. simpl.
  destruct ((a <? 1) || (b <? a))%bool; [eexists; reflexivity|].
  destruct (b >? Z.of_nat (List.length (splitlines full_content))) eqn:E.
  - eexists; reflexivity.
  - exfalso. rewrite Z.gtb_ltb, Z.ltb_ge in E. lia.
Qed.

End Builder.

Lemma one_null_endpoint_skips_range_check_witness :
  let s := JObj [("name", JStr "f"); ("kind", JStr "function");
                 ("lines", JArr [JInt 99999; JNull])] in
  lines_schema (JArr [JInt 99999; JNull]) = true
  /\ exists row,
       Index.symbol_row_of Sha256.hexdigest Sample.dumps "f.py" "pass" s = Ok row
       /\ sym_content_hash row = Index.sha256_bytes Sha256.hexdigest (encode_utf8 "pass")
       /\ ([JInt 99999; JNull] = [JInt 99999; JNull] ->
           sym_start_line row = Some 99999 /\ sym_end_line row = None)
       /\ ([JInt 99999; JNull] = [JNull; JInt 99999] ->
           sym_start_line row = None /\ sym_end_line row = Some 99999).
Proof.
  apply (one_null_endpoint_skips_range_check Sha256.hexdigest Sample.dumps
           "f.py" "pass" _ [JInt 99999; JNull] 99999).
  - reflexivity.
  - left. reflexivity.
Defined.

End IndexFacts.

(** ** Metadata codec *)

Module AgtagFacts.
Import PyStr Agtag.

(** Induction on JSON values, with the hypothesis on every member of a
    container. *)
Lemma json_induction : forall P : json -> Prop,
  P JNull ->
  (forall b, P (JBool b)) ->
  (forall n, P (JInt n)) ->
  (forall s, P (JStr s)) ->
  (forall items, Forall P items -> P (JArr items)) ->
  (forall fields, Forall (fun kv => P (snd kv)) fields -> P (JObj fields)) ->
  forall v, P v.
Proof.
  intros P Hnull Hbool Hint Hstr Harr Hobj.
  fix IH 1. intros [| b | n | s | items | fields].
  - exact Hnull.
  - apply Hbool.
  - apply Hint.
  - apply Hstr.
  - apply Harr. induction items as [|v items IHitems]; constructor.
    + apply IH.
    + exact IHitems.
  - apply Hobj. induction fields as [|[k v] fields IHfields]; constructor.
    + apply IH.
    + exact IHfields.
Qed.

Lemma check_json_depth_arr : forall items m c,
  check_json_depth (JArr items) m c
  = if c >? m then false
    else forallb (fun item => check_json_depth item m (c + 1)) items.
Proof. reflexivity. Qed.

Lemma check_json_depth_obj : forall fields m c,
  check_json_depth (JObj fields) m c
  = if c >? m then false
    else forallb (fun kv => let '(_, value) := kv in
                            check_json_depth value m (c + 1)) fields.
Proof. reflexivity. Qed.

Lemma container_depth_arr : forall items,
  container_depth (JArr items) = 1 + items_depth items.
Proof. reflexivity. Qed.

Lemma container_depth_obj : forall fields,
  container_depth (JObj fields) = 1 + fields_depth fields.
Proof. reflexivity. Qed.

Lemma items_depth_cons : forall v items,
  items_depth (v :: items) = Z.max (container_depth v) (items_depth items).
Proof. reflexivity. Qed.

Lemma fields_depth_cons : forall k v fields,
  fields_depth ((k, v) :: fields) = Z.max (container_depth v) (fields_depth fields).
Proof. reflexivity. Qed.

Lemma items_depth_nonneg : forall items, 0 <= items_depth items.
Proof.
  induction items as [|v items IH]; [reflexivity|].
  rewrite items_depth_cons. lia.
Qed.

Lemma fields_depth_nonneg : forall fields, 0 <= fields_depth fields.
Proof.
  induction fields as [|[k v] fields IH]; [reflexivity|].
  rewrite fields_depth_cons. lia.
Qed.

Lemma container_depth_nonneg : forall v, 0 <= container_depth v.
Proof.
  intros v. destruct v as [| | | | items | fields];
    try (cbn [container_depth]; lia).
  - rewrite container_depth_arr. pose proof (items_depth_nonneg items). lia.
  - rewrite container_depth_obj. pose proof (fields_depth_nonneg fields). lia.
Qed.

Lemma primitive_check : forall v m c,
  (forall items, v <> JArr items) -> (forall fields, v <> JObj fields) ->
  check_json_depth v m c = negb (c >? m).
Proof.
  intros v m c Ha Ho. destruct v; simpl; try (destruct (c >? m); reflexivity).
  - exfalso. now apply (Ha items).
  - exfalso. now apply (Ho fields).
Qed.

(** A value nested no deeper than the room left passes the check. *)
Lemma shallow_passes : forall v max_depth current_depth,
  current_depth + container_depth v <= max_depth ->
  check_json_depth v max_depth current_depth = true.
Proof.
  intros v max_depth. induction v as [| b | n | s | items IH | fields IH]
    using json_induction; intros cur H.
  1-4: rewrite primitive_check by discriminate;
       destruct (Z.gtb_spec cur max_depth); [cbn [container_depth] in H; lia|reflexivity].
  - rewrite container_depth_arr in H. rewrite check_json_depth_arr.
    pose proof (items_depth_nonneg items) as Hn.
    destruct (Z.gtb_spec cur max_depth); [lia|].
    induction IH as [|v items Hv Hitems IHitems]; [reflexivity|].
    rewrite items_depth_cons in H. pose proof (items_depth_nonneg items).
    cbn [forallb]. rewrite Hv by lia. apply IHitems; lia.
  - rewrite container_depth_obj in H. rewrite check_json_depth_obj.
    pose proof (fields_depth_nonneg fields) as Hn.
    destruct (Z.gtb_spec cur max_depth); [lia|].
    induction IH as [|[k v] fields Hv Hfields IHfields]; [reflexivity|].
    rewrite fields_depth_cons in H. pose proof (fields_depth_nonneg fields).
    cbn [forallb]. cbn [snd] in Hv. rewrite Hv by lia. apply IHfields; lia.
Qed.

(** A value nested two or more levels deeper than the room left fails it. *)
Lemma deeper_fails : forall v max_depth current_depth,
  current_depth + container_depth v > max_depth + 1 ->
  check_json_depth v max_depth current_depth = false.
Proof.
  intros v max_depth. induction v as [| b | n | s | items IH | fields IH]
    using json_induction; intros cur H.
  1-4: rewrite primitive_check by discriminate;
       destruct (Z.gtb_spec cur max_depth); [reflexivity|cbn [container_depth] in H; lia].
  - rewrite container_depth_arr in H. rewrite check_json_depth_arr.
    destruct (Z.gtb_spec cur max_depth); [reflexivity|].
    induction IH as [|v items Hv Hitems IHitems].
    + cbn in H. lia.
    + rewrite items_depth_cons in H. cbn [forallb].
      destruct (Z.max_spec (container_depth v) (items_depth items))
        as [[Hlt Hmax]|[Hle Hmax]]; rewrite Hmax in H.
      * rewrite IHitems by lia. apply andb_false_r.
      * rewrite Hv by lia. reflexivity.
  - rewrite container_depth_obj in H. rewrite check_json_depth_obj.
    destruct (Z.gtb_spec cur max_depth); [reflexivity|].
    induction IH as [|[k v] fields Hv Hfields IHfields].
    + cbn in H. lia.
    + rewrite fields_depth_cons in H. cbn [forallb]. cbn [snd] in Hv.
      destruct (Z.max_spec (container_depth v) (fields_depth fields))
        as [[Hlt Hmax]|[Hle Hmax]]; rewrite Hmax in H.
      * rewrite IHfields by lia. apply andb_false_r.
      * rewrite Hv by lia. reflexivity.
Qed.

(** Nesting depth at the ceiling is accepted. *)
Corollary depth_at_ceiling_passes : forall v,
  container_depth v = MAX_JSON_DEPTH ->
  check_json_depth v MAX_JSON_DEPTH 0 = true.
Proof. intros v H. apply shallow_passes. lia. Qed.

Section Codec.

Variable json_loads : string -> option json.

(** The size check comes first: a payload over the ceiling is rejected
    whatever [json.loads] would make of it. *)
Lemma oversized_rejected : forall block path jstart jend,
  find "{" block = Some jstart ->
  rfind "}" block = Some jend ->
  Z.of_nat (String.length (substr jstart (jend + 1) block)) > MAX_AGTAG_SIZE ->
  parse_agtag_block json_loads block path
  = Err (TooLarge (Z.of_nat (String.length (substr jstart (jend + 1) block)))).
Proof.
  intros block path jstart jend Hs He Hsize. unfold parse_agtag_block.
  rewrite Hs, He.
  destruct (Z.gtb_spec (Z.of_nat (String.length (substr jstart (jend + 1) block)))
                       MAX_AGTAG_SIZE); [reflexivity|lia].
Qed.

(** A payload of exactly the ceiling goes on to the parser, and is accepted
    when it is a valid document nested no deeper than the ceiling. *)
Lemma size_at_ceiling_accepted : forall block path jstart jend data,
  find "{" block = Some jstart ->
  rfind "}" block = Some jend ->
  Z.of_nat (String.length (substr jstart (jend + 1) block)) = MAX_AGTAG_SIZE ->
  json_loads (substr jstart (jend + 1) block) = Some data ->
  container_depth data <= MAX_JSON_DEPTH ->
  validate_agtag_data data path = Ok tt ->
  parse_agtag_block json_loads block path = Ok data.
Proof.
  intros block path jstart jend data Hs He Hsize Hload Hdepth Hvalid.
  unfold parse_agtag_block. rewrite Hs, He, Hsize. simpl.
  rewrite Hload, shallow_passes by lia. simpl. now rewrite Hvalid.
Qed.

End Codec.

(** C3, at the input on which the code departs from it.  The document
    [deep_agtag] nests eleven containers, one more than [MAX_JSON_DEPTH], and
    every stage of [parse_agtag_block] accepts it: the depth check returns, the
    schema holds, the block parses.  The same nesting around a number is
    rejected. *)
Theorem eleven_levels_accepted :
  container_depth Sample.deep_agtag = MAX_JSON_DEPTH + 1
  /\ check_json_depth Sample.deep_agtag MAX_JSON_DEPTH 0 = true
  /\ parse_agtag_block (Sample.loads_only Sample.deep_text Sample.deep_agtag)
       Sample.deep_block "src/example.py"
     = Ok Sample.deep_agtag
  /\ container_depth Sample.deep_agtag_filled = MAX_JSON_DEPTH + 1
  /\ check_json_depth Sample.deep_agtag_filled MAX_JSON_DEPTH 0 = false.
Proof. repeat split; vm_compute; reflexivity. Qed.

End AgtagFacts.

(** ** Handles, [focus] and [zoom] *)

Module QueryFacts.
Import PyStr Agtag Store Focus Query.

(** [focus] compares a hash that is not the wildcard with the stored one. *)
Lemma focus_checks_hash : forall d text depth types_filter h row,
  0 <= depth ->
  parse_handle text = Some h ->
  h_symbol h <> "ANY" ->
  file_row_of d (h_repo_path h) = Some row ->
  db_state row = "indexed" ->
  h_hash h <> EmptyString ->
  lower (h_hash h) <> "sha256:any" ->
  file_hash row <> h_hash h ->
  focus d text depth types_filter
  = Some (Err (hash_conflict (file_hash row) (h_hash h))).
Proof.
  intros d text depth types_filter h row Hd Hp Hsym Hrow Hst Hne Hany Hneq.
  unfold focus. destruct (Z.ltb_spec depth 0); [lia|].
  rewrite Hp. apply String.eqb_neq in Hsym. rewrite Hsym, Hrow, Hst. simpl.
  apply String.eqb_neq in Hany, Hneq. rewrite Hany, Hneq.
  destruct (h_hash h); [contradiction|reflexivity].
Qed.

Section Zoom.

Variable json_loads : string -> option json.
Variable walk_before : symbol_row -> symbol_row -> bool.

(** [zoom] has no path that ends in [hash_conflict]. *)
Lemma zoom_never_hash_conflict : forall w text level expected handle_hash,
  zoom json_loads walk_before w text level <> Err (hash_conflict expected handle_hash).
Proof.
  intros w text level expected handle_hash. unfold zoom.
  destruct ((level <? 0) || (level >? 4))%bool; [discriminate|].
  destruct (parse_handle text) as [h|]; [|discriminate].
  destruct (stable_sort _ _) as [|r rows]; [discriminate|].
  destruct (if level >=? 3 then _ else _); discriminate.
Qed.

(** C4, at the input on which the code departs from it.  The handle
    [stale_handle] names a hash that is neither the wildcard nor the stored
    hash of its file: [focus] fails with [hash_conflict], [zoom] answers with
    the payload of the symbol. *)
Theorem zoom_accepts_stale_hash :
  option_map h_hash (parse_handle Sample.stale_handle) = Some "sha256:deadbeef"
  /\ option_map file_hash (file_row_of Sample.focus_db "src/focus_demo.py")
     = Some "sha256:1234"
  /\ focus Sample.focus_db Sample.stale_handle 1 EmptyString
     = Some (Err (hash_conflict "sha256:1234" "sha256:deadbeef"))
  /\ zoom json_loads walk_before Sample.focus_world Sample.stale_handle 1
     = Ok (Sample.stale_handle, 1,
           mkZoomData (Some "calls helper") None None None None false).
Proof. repeat split; reflexivity. Qed.

End Zoom.

End QueryFacts.

(** ** Transactions of [ingest] and [patch] *)

Module OpsFacts.
Import PyStr Agtag Store Index Ops.

Section Commits.

Variable sha256_hex : string -> string.
Variable json_dumps : json -> string.
Variable ast_parse : string -> ast_outcome.

(** The rebuild ends in a [commit] of its own: when it returns, the rebuilt
    rows are durable while the [files] table is still the one it found. *)
Lemma upsert_symbols_commits : forall w path agtag content w',
  upsert_symbols sha256_hex json_dumps ast_parse w path agtag content = (Ok tt, w') ->
  durable w' = live w'
  /\ commits w' = (commits w ++ [durable w'])%list
  /\ files (durable w') = files (live w).
Proof.
  intros w path agtag content w' H. unfold upsert_symbols in H.
  destruct (parsed_ast_of _ _ _) as [parsed|e]; [|discriminate].
  destruct (symbol_rows_of _ _ _ _ _) as [rows|e]; [|discriminate].
  destruct (forallb bindable rows); [|discriminate].
  inversion H; subst; clear H. simpl. destruct rows; simpl; auto.
Qed.

End Commits.

(** C1, at inputs on which the code departs from it.  On the store left by the
    ingest of the example file: a patch whose result has no JSON in its
    metadata block fails with [agtag_invalid] after it has rewritten the file
    on disk, so the committed [files] row and symbols still describe the old
    text; and a patch that succeeds commits twice, the first committed state
    holding the rebuilt symbols next to the old hash of the file. *)
Theorem patch_is_not_one_transaction :
  let before := snd Sample.first_ingest in
  let old_hash := Index.sha256_bytes Sha256.hexdigest (encode_utf8 Sample.example_content) in
  (let (outcome, after) := Sample.run_patch Sample.breaking_diff in
   outcome = Err (patch_agtag_invalid (inl MissingJson))
   /\ durable after = durable before
   /\ disk_read "src/example.py" (disk before) = Some Sample.example_content
   /\ disk_read "src/example.py" (disk after) = Some Sample.broken_content
   /\ option_map file_hash (file_row_of (durable after) "src/example.py")
      = Some old_hash)
  /\ (let (outcome, after) := Sample.run_patch Sample.editing_diff in
      exists new_hash first_commit,
        outcome = Ok ("src/example.py", new_hash)
        /\ new_hash <> old_hash
        /\ commits after = (commits before ++ [first_commit; durable after])%list
        /\ option_map file_hash (file_row_of first_commit "src/example.py")
           = Some old_hash
        /\ symbols first_commit = symbols (durable after)
        /\ symbols first_commit <> symbols (durable before)
        /\ option_map file_hash (file_row_of (durable after) "src/example.py")
           = Some new_hash).
Proof.
  split.
  - vm_compute. repeat split; reflexivity.
  - vm_compute. eexists. eexists. repeat split; try reflexivity; discriminate.
Qed.

End OpsFacts.

(** ** Migration runner *)

Module MigrationFacts.
Import Migrations.

Section Runner.

Variable schema : Type.
Variable executescript : string -> schema -> schema * bool.
Variable table_exists : string -> schema -> bool.
Variable drop_table : string -> schema -> schema.

Local Abbreviation mdb := (mdb schema).
Local Abbreviation recorded := (recorded schema).
Local Abbreviation apply_migration := (apply_migration schema executescript).
Local Abbreviation migrate := (migrate schema table_exists drop_table).

(** [apply_migration] records a version right after its SQL has run to the
    end, and only then; the tables are those the SQL leaves. *)
Lemma apply_migration_records : forall (d : mdb) m d' ok,
  apply_migration d m = (d', ok) ->
  tables schema d' = fst (executescript (sql m) (tables schema d))
  /\ (if ok then recorded d' = (recorded d ++ [version m])%list
            /\ snd (executescript (sql m) (tables schema d)) = true
            /\ ~ In (version m) (recorded d)
      else recorded d' = recorded d).
Proof.
  intros d m d' ok H. unfold Migrations.apply_migration in H.
  destruct (executescript (sql m) (tables schema d)) as [t' [|]].
  - unfold Migrations.recorded.
    destruct (schema_migrations schema d) as [records|] eqn:Erec.
    + unfold insert_record in H.
      destruct (existsb _ records) eqn:Ex; inversion H; subst; clear H; cbn.
      * split; reflexivity.
      * split; [reflexivity|]. split; [|split; [reflexivity|]].
        -- rewrite map_app. reflexivity.
        -- intros Hin. rewrite in_map_iff in Hin. destruct Hin as (r & Hr & Hin).
           assert (Hex : existsb (fun r => String.eqb (rec_version r) (version m)) records
                         = true).
           { apply existsb_exists. exists r. split; [exact Hin|]. now apply String.eqb_eq. }
           congruence.
    + inversion H; subst; clear H. cbn. split; reflexivity.
  - inversion H; subst; clear H. cbn. split; reflexivity.
Qed.

Lemma ensure_keeps_records : forall d : mdb,
  recorded (ensure_migrations_table schema d) = recorded d
  /\ tables schema (ensure_migrations_table schema d) = tables schema d.
Proof.
  intros d. unfold ensure_migrations_table, Migrations.recorded.
  destruct (schema_migrations schema d) eqn:E; [rewrite E|]; split; reflexivity.
Qed.

(** C7, where the code departs from it.  With the [MigrationRunner] of the
    sources, [migrate] without [--rollback] runs no migration, whatever the
    database, the target and [--dry-run]: the call of
    [get_pending_migrations] with a target raises [TypeError] before
    anything is applied, no version is recorded that was not, and the
    runner's own [get_pending_migrations] has nothing pending anyway.  So it
    is on a database in which no version is recorded, with target 1; and on
    the database of the tests, which holds [schema_migrations] alone, the
    one version on record is dropped with the table and nothing is run. *)
Theorem migrate_runs_no_migration :
  (forall (d : mdb) target_version dry_run,
     exists d',
       migrate (Some d) target_version dry_run None = (type_error, Some d')
       /\ (forall v, In v (recorded d') -> In v (recorded d))
       /\ (tables schema d' = tables schema d
           \/ tables schema d' = drop_table "db_version" (tables schema d))
       /\ get_pending_migrations schema d' = [])
  /\ Sample.migrate_to_1 = (type_error, Some Sample.unmigrated)
  /\ Migrations.recorded (list string) Sample.unmigrated = []
  /\ Sample.migrate_legacy
     = (type_error, Some (mkMdb (list string) [] (Some [])))
  /\ Migrations.recorded (list string) Sample.legacy_db = ["001_initial_schema"].
Proof.
  split; [|repeat split; reflexivity].
  intros d target_version dry_run. unfold Migrations.migrate.
  rewrite andb_false_r. eexists. split; [reflexivity|].
  split; [|split; [|reflexivity]].
  - intros v. rewrite (proj1 (ensure_keeps_records _)).
    destruct (_ && _ && _)%bool; [intros []|auto].
  - rewrite (proj2 (ensure_keeps_records _)).
    destruct (_ && _ && _)%bool; [right|left]; reflexivity.
Qed.

End Runner.

End MigrationFacts.

(** ** Focus graph *)

Module FocusFacts.
Import PyStr Agtag Store Focus.

Lemma assigned_bucket_append : forall key item buckets v k,
  In (v, k) (assigned (bucket_append key item buckets))
  <-> In (v, k) (assigned buckets) \/ (v = n_id item /\ k = key).
Proof.
  intros key item buckets v k. induction buckets as [|[k0 b] buckets IH].
  - simpl. split.
    + intros [H|[]]. inversion H; subst. now right.
    + intros [[]|[-> ->]]. now left.
  - cbn [bucket_append]. destruct (Z.eqb_spec k0 key) as [->|Hne].
    + unfold assigned. cbn [flat_map fst snd]. rewrite map_app, !in_app_iff.
      cbn [map In]. split.
      * intros [[H|[H|[]]]|H]; auto. inversion H; subst. now right.
      * intros [[H|H]|[-> ->]]; auto.
    + unfold assigned in *. cbn [flat_map fst snd]. rewrite !in_app_iff, IH.
      tauto.
Qed.

Lemma symbol_by_id_found : forall d i s,
  symbol_by_id d i = Some s -> In s (symbols d) /\ sym_id s = i.
Proof.
  intros d i s H. unfold symbol_by_id in H. apply find_some in H.
  destruct H as [Hin Heq]. apply Z.eqb_eq in Heq. now split.
Qed.

Lemma mem_Z_true : forall x l, mem_Z x l = true <-> In x l.
Proof.
  intros x l. unfold mem_Z. rewrite existsb_exists. split.
  - intros [y [Hy Heq]]. apply Z.eqb_eq in Heq. now subst.
  - intros H. exists x. split; [exact H|apply Z.eqb_refl].
Qed.

Lemma mem_Z_false : forall x l, mem_Z x l = false <-> ~ In x l.
Proof.
  intros x l. rewrite <- mem_Z_true. destruct (mem_Z x l); intuition congruence.
Qed.

(** What one pass of the body of [for edge in edges] does to the visited
    set, the queue and the buckets: nothing, or it admits the other end. *)
Lemma visit_edge_cases : forall d repo depth cur h st e,
  let st' := visit_edge d repo depth cur h st e in
  let w := other_end cur e in
  (visited st' = visited st /\ queue st' = queue st
   /\ neighbors_by_depth st' = neighbors_by_depth st
   /\ (In w (visited st)
       \/ symbol_by_id d w = None
       \/ (exists s, symbol_by_id d w = Some s /\ sym_path s <> repo)
       \/ h + 1 > depth))
  \/ (exists s,
        ~ In w (visited st) /\ symbol_by_id d w = Some s /\ sym_path s = repo
        /\ h + 1 <= depth
        /\ visited st' = (visited st ++ [w])%list
        /\ queue st' = (queue st ++ [(w, h + 1)])%list
        /\ neighbors_by_depth st'
           = bucket_append (h + 1) (serialize_neighbor s) (neighbors_by_depth st)).
Proof.
  intros d repo depth cur h st e. cbv zeta. unfold visit_edge, other_end.
  set (st1 := if existsb (edge_eqb e) (edges_seen st) then st else _).
  assert (H1 : visited st1 = visited st /\ queue st1 = queue st
               /\ neighbors_by_depth st1 = neighbors_by_depth st).
  { unfold st1. destruct (existsb _ _); [auto|].
    destruct (serialize_edge d e); simpl; auto. }
  destruct H1 as (Hv & Hq & Hb).
  set (w := if cur =? src_id e then dst_id e else src_id e).
  destruct (mem_Z w (visited st1)) eqn:Em.
  - left. rewrite Hv in Em. apply mem_Z_true in Em. auto.
  - rewrite Hv in Em. apply mem_Z_false in Em.
    destruct (symbol_by_id d w) as [s|] eqn:Es; [|left; repeat split; auto].
    destruct (String.eqb_spec (sym_path s) repo) as [Hp|Hp]; simpl.
    + destruct (Z.gtb_spec (h + 1) depth).
      * left. repeat split; auto. right. right. right. lia.
      * right. exists s. simpl. rewrite Hv, Hq, Hb. repeat split; auto.
    + left. repeat split; auto. right. right. left. now exists s.
Qed.


(** *** The traversal ends within its fuel *)

Lemma filter_length_lt : forall (A : Type) (f g : A -> bool) (l : list A) (x : A),
  (forall y, g y = true -> f y = true) ->
  In x l -> f x = true -> g x = false ->
  (List.length (filter g l) < List.length (filter f l))%nat.
Proof.
  intros A f g l x Himp. induction l as [|y l IH]; intros Hin Hf Hg; [contradiction|].
  assert (Hle : forall l', (List.length (filter g l') <= List.length (filter f l'))%nat).
  { induction l' as [|z l' IH']; simpl; [lia|].
    destruct (g z) eqn:Egz.
    - rewrite (Himp _ Egz). simpl. lia.
    - destruct (f z); simpl; lia. }
  simpl. destruct Hin as [->|Hin].
  - rewrite Hf, Hg. simpl. specialize (Hle l). lia.
  - specialize (IH Hin Hf Hg). destruct (g y) eqn:Egy.
    + rewrite (Himp _ Egy). simpl. lia.
    + destruct (f y); simpl; lia.
Qed.

Lemma unvisited_shrinks : forall d seen w s,
  ~ In w seen -> symbol_by_id d w = Some s ->
  (unvisited d (seen ++ [w]) < unvisited d seen)%nat.
Proof.
  intros d seen w s Hnot Hs. apply symbol_by_id_found in Hs. destruct Hs as [Hin Hid].
  unfold unvisited. apply filter_length_lt with (x := s); auto.
  - intros y Hy. rewrite negb_true_iff, mem_Z_false in *.
    intros Hc. apply Hy. apply in_or_app. now left.
  - rewrite negb_true_iff, mem_Z_false, Hid. exact Hnot.
  - rewrite negb_false_iff, mem_Z_true, Hid. apply in_or_app. right. now left.
Qed.

Lemma visit_edge_work : forall d repo depth cur h st e,
  (work_left d (visit_edge d repo depth cur h st e) <= work_left d st)%nat.
Proof.
  intros d repo depth cur h st e. unfold work_left.
  destruct (visit_edge_cases d repo depth cur h st e)
    as [(Hv & Hq & _)|(s & Hnot & Hs & _ & _ & Hv & Hq & _)].
  - rewrite Hv, Hq. lia.
  - rewrite Hv, Hq, length_app. simpl.
    pose proof (unvisited_shrinks d _ _ _ Hnot Hs). lia.
Qed.

Lemma visit_edges_work : forall d repo depth cur h es st,
  (work_left d (fold_left (visit_edge d repo depth cur h) es st) <= work_left d st)%nat.
Proof.
  intros d repo depth cur h es. induction es as [|e es IH]; intros st; simpl; [lia|].
  etransitivity; [apply IH|apply visit_edge_work].
Qed.

Lemma bfs_loop_total : forall d repo depth types fuel st,
  (work_left d st <= fuel)%nat ->
  exists st', bfs_loop fuel d repo depth types st = Some st'.
Proof.
  intros d repo depth types fuel. induction fuel as [|fuel IH]; intros st Hfuel.
  - destruct st as [b v q es ep]. destruct q as [|[c k] q].
    + eexists. reflexivity.
    + unfold work_left in Hfuel. simpl in Hfuel. lia.
  - destruct st as [b v q es ep]. destruct q as [|[c k] q].
    + eexists. reflexivity.
    + cbn [bfs_loop queue neighbors_by_depth visited edges_seen edges_payload].
      assert (H0 : (work_left d (mkBfs b v q es ep) <= fuel)%nat).
      { unfold work_left in *. simpl in *. lia. }
      destruct (k >=? depth); apply IH; [exact H0|].
      etransitivity; [apply visit_edges_work|exact H0].
Qed.

Lemma bfs_fuel_enough : forall d repo depth types start,
  exists st,
    bfs_loop (bfs_fuel d) d repo depth types (mkBfs [] [start] [(start, 0)] [] [])
    = Some st.
Proof.
  intros d repo depth types start. apply bfs_loop_total.
  unfold work_left, bfs_fuel, unvisited.
  cbn [queue visited List.length].
  pose proof (filter_length_le (fun s => negb (mem_Z (sym_id s) [start]))
                (symbols d)). lia.
Qed.

(** *** Buckets hold shortest distances *)

Section Traversal.

Variable d : db.
Variable repo : string.
Variable depth : Z.
Variable ts : list string.
Variable src : Z.
Hypothesis depth_pos : 0 < depth.

Local Abbreviation hop := (hop d repo ts).
Local Abbreviation walk := (walk d repo ts src).
Local Abbreviation distance := (distance d repo ts src).
Local Abbreviation level := (level src).
Local Abbreviation Inv := (Inv d repo depth ts src).

Lemma distance_unique : forall v i j, distance v i -> distance v j -> i = j.
Proof.
  intros v i j [Hi Hmi] [Hj Hmj]. specialize (Hmi _ Hj). specialize (Hmj _ Hi). lia.
Qed.

Lemma level_unique : forall h cur done st v k k',
  Inv h cur done st ->
  level (neighbors_by_depth st) v k -> level (neighbors_by_depth st) v k' -> k = k'.
Proof.
  intros h cur done st v k k' I Hk Hk'.
  destruct (inv_level I _ _ Hk) as (_ & Hr & Hd).
  destruct (inv_level I _ _ Hk') as (_ & Hr' & Hd').
  pose proof (distance_unique _ _ _ Hd Hd'). lia.
Qed.

(** A symbol with a level is no farther than any walk that reaches it. *)
Lemma level_le_walk : forall h cur done st v k m,
  Inv h cur done st -> level (neighbors_by_depth st) v k -> walk m v ->
  k <= Z.of_nat m.
Proof.
  intros h cur done st v k m I Hk Hw.
  destruct (inv_level I _ _ Hk) as (_ & Hr & [_ Hmin]).
  specialize (Hmin _ Hw). lia.
Qed.

Lemma walk_inv : forall m v,
  walk m v ->
  (m = O /\ v = src) \/ exists n x, m = S n /\ walk n x /\ hop x v.
Proof.
  intros m v H. destruct H as [|n x w Hx Hhop].
  - now left.
  - right. now exists n, x.
Qed.

Lemma inv_init :
  Inv 0 None [] (mkBfs [] [src] [(src, 0)] [] []).
Proof.
  constructor; simpl.
  - now left.
  - intros v k [[-> ->]|[]]. split; [now left|]. split; [lia|].
    split; [constructor|]. intros m _. simpl. lia.
  - intros v [<-|[]]. exists 0. now left.
  - intros v k [H|[]]. inversion H; subst. split; [now left|lia].
  - repeat constructor.
  - intros v [<-|[]]. right. right. exists 0. now left.
  - intros v [].
  - intros v k w [].
  - intros u i _ H. lia.
  - intros u H. inversion H; subst. now left.
  - lia.
  - intros c H. discriminate.
  - intros v k [].
Qed.

(** No symbol of depth [h] is left in the queue: the front moves on. *)
Lemma inv_next_level : forall h done st c rest,
  Inv h None done st -> queue st = (c, h + 1) :: rest ->
  Inv (h + 1) None done st.
Proof.
  intros h done st c rest I Hq.
  assert (Hge : forall v k, In (v, k) (queue st) -> h + 1 <= k).
  { intros v k Hin. pose proof (inv_sorted I) as Hs. rewrite Hq in Hs, Hin.
    inversion Hs as [|? ? _ Hall]; subst. destruct Hin as [Heq|Hin].
    - inversion Heq; subst. lia.
    - rewrite Forall_forall in Hall. apply (Hall _ Hin). }
  assert (Hc : level (neighbors_by_depth st) c (h + 1)).
  { apply (inv_queue I). rewrite Hq. now left. }
  assert (Hdepth : h < depth).
  { destruct (inv_level I _ _ Hc) as (_ & Hr & _). lia. }
  pose proof (inv_h I) as Hh.
  assert (Hbelow : forall u i, walk i u -> Z.of_nat i < h + 1 -> In u done).
  { intros u i Hw Hi. destruct (Z.eq_dec (Z.of_nat i) h) as [Heq|Hne].
    - assert (Hi' : i = Z.to_nat h) by lia. subst i.
      pose proof (inv_at I _ Hw) as Hv.
      destruct (inv_where I _ Hv) as [Hd|[Hd|[k Hk]]];
        [exact Hd|discriminate|].
      exfalso. pose proof (Hge _ _ Hk).
      destruct (inv_queue I _ _ Hk) as [Hl _].
      pose proof (level_le_walk _ _ _ _ _ _ _ I Hl Hw). lia.
    - apply (inv_below I u i Hw). lia. }
  constructor.
  - apply (inv_src I).
  - apply (inv_level I).
  - apply (inv_visited I).
  - intros v k Hin. destruct (inv_queue I _ _ Hin) as [Hl Hr].
    split; [exact Hl|]. pose proof (Hge _ _ Hin). lia.
  - apply (inv_sorted I).
  - apply (inv_where I).
  - apply (inv_done_seen I).
  - apply (inv_done I).
  - exact Hbelow.
  - intros u Hw. replace (Z.to_nat (h + 1)) with (S (Z.to_nat h)) in Hw by lia.
    inversion Hw as [|n x w Hx Hhop]; subst.
    assert (Hxd : In x done) by (apply (Hbelow x (Z.to_nat h) Hx); lia).
    pose proof (inv_done_seen I _ Hxd) as Hxv.
    destruct (inv_visited I _ Hxv) as [kx Hkx].
    pose proof (level_le_walk _ _ _ _ _ _ _ I Hkx Hx).
    apply (inv_done I x kx u Hxd Hkx); [lia|exact Hhop].
  - lia.
  - intros c0 H. discriminate.
  - apply (inv_pos I).
Qed.

(** The front of the queue is taken off. *)
Lemma inv_pop : forall h done st c rest,
  Inv h None done st -> queue st = (c, h) :: rest ->
  let st0 := mkBfs (neighbors_by_depth st) (visited st) rest
                   (edges_seen st) (edges_payload st) in
  (depth <= h -> Inv h None (c :: done) st0)
  /\ (h < depth -> Inv h (Some c) done st0).
Proof.
  intros h done st c rest I Hq st0.
  assert (Hc : level (neighbors_by_depth st) c h).
  { apply (inv_queue I). rewrite Hq. now left. }
  assert (Hsub : forall v k, In (v, k) rest -> In (v, k) (queue st)).
  { intros v k Hin. rewrite Hq. now right. }
  assert (Hsort : StronglySorted (fun a b : Z * Z => snd a <= snd b) rest).
  { pose proof (inv_sorted I) as Hs. rewrite Hq in Hs. now inversion Hs. }
  split; intros Hh; constructor; simpl.
  - apply (inv_src I).
  - apply (inv_level I).
  - apply (inv_visited I).
  - intros v k Hin. apply (inv_queue I). now apply Hsub.
  - exact Hsort.
  - intros v Hv. destruct (inv_where I _ Hv) as [Hd|[Hd|[k Hk]]].
    + left. now right.
    + discriminate.
    + rewrite Hq in Hk. destruct Hk as [Heq|Hk].
      * inversion Heq; subst. left. now left.
      * right. right. now exists k.
  - intros v [<-|Hd]; [|now apply (inv_done_seen I)].
    now apply (inv_level I _ _ Hc).
  - intros v k w [<-|Hd] Hl Hk Hhop.
    + pose proof (level_unique _ _ _ _ _ _ _ I Hl Hc). lia.
    + now apply (inv_done I v k w).
  - intros u i Hw Hi. right. now apply (inv_below I u i).
  - apply (inv_at I).
  - apply (inv_h I).
  - intros c0 H. discriminate.
  - apply (inv_pos I).
  - apply (inv_src I).
  - apply (inv_level I).
  - apply (inv_visited I).
  - intros v k Hin. apply (inv_queue I). now apply Hsub.
  - exact Hsort.
  - intros v Hv. destruct (inv_where I _ Hv) as [Hd|[Hd|[k Hk]]].
    + now left.
    + discriminate.
    + rewrite Hq in Hk. destruct Hk as [Heq|Hk].
      * inversion Heq; subst. right. now left.
      * right. right. now exists k.
  - apply (inv_done_seen I).
  - apply (inv_done I).
  - apply (inv_below I).
  - apply (inv_at I).
  - apply (inv_h I).
  - intros c0 H. inversion H; subst. now split.
  - apply (inv_pos I).
Qed.

(** The invariant reads only the visited set, the queue and the buckets. *)
Lemma inv_ext : forall h cur done st st',
  Inv h cur done st ->
  visited st' = visited st -> queue st' = queue st ->
  neighbors_by_depth st' = neighbors_by_depth st ->
  Inv h cur done st'.
Proof.
  intros h cur done st st' I Hv Hq Hb.
  destruct I. constructor; rewrite ?Hv, ?Hq, ?Hb; assumption.
Qed.

Lemma sorted_snoc : forall (l : list (Z * Z)) (a : Z * Z),
  StronglySorted (fun a b : Z * Z => snd a <= snd b) l ->
  (forall x, In x l -> snd x <= snd a) ->
  StronglySorted (fun a b : Z * Z => snd a <= snd b) (l ++ [a]).
Proof.
  intros l a Hs Hle. induction Hs as [|x l Hs IH Hall]; simpl.
  - repeat constructor.
  - constructor.
    + apply IH. intros y Hy. apply Hle. now right.
    + rewrite Forall_app. split; [exact Hall|].
      constructor; [|constructor]. apply Hle. now left.
Qed.

(** One edge of [c] is followed. *)
Lemma inv_visit_edge : forall h done st c e,
  Inv h (Some c) done st ->
  In e (edges_incident d c ts) ->
  let st' := visit_edge d repo depth c h st e in
  Inv h (Some c) done st'
  /\ (forall v, In v (visited st) -> In v (visited st'))
  /\ (forall s, symbol_by_id d (other_end c e) = Some s -> sym_path s = repo ->
                In (other_end c e) (visited st')).
Proof.
  intros h done st c e I He st'.
  destruct (inv_cur I c eq_refl) as [Hc Hdepth].
  pose proof (inv_h I) as Hh.
  destruct (visit_edge_cases d repo depth c h st e)
    as [(Hv & Hq & Hb & Hwhy)|(s & Hnot & Hs & Hp & Hle & Hv & Hq & Hb)];
    fold st' in Hv, Hq, Hb.
  - split; [exact (inv_ext _ _ _ _ _ I Hv Hq Hb)|]. rewrite Hv. split; [auto|].
    intros s Hs Hp. destruct Hwhy as [Hin|[Hnone|[[s' [Hs' Hp']]|Hgt]]].
    + exact Hin.
    + congruence.
    + congruence.
    + lia.
  - set (w := other_end c e) in *.
    assert (Hid : n_id (serialize_neighbor s) = w).
    { apply symbol_by_id_found in Hs. now destruct Hs. }
    assert (Hlevel : forall v k,
               level (neighbors_by_depth st') v k
               <-> level (neighbors_by_depth st) v k \/ (v = w /\ k = h + 1)).
    { intros v k. unfold level. rewrite Hb, assigned_bucket_append, Hid. tauto. }
    assert (Hwalk : walk (S (Z.to_nat h)) w).
    { destruct (inv_level I _ _ Hc) as (_ & _ & [Hwc _]).
      apply walk_hop with (v := c); [exact Hwc|].
      exists e, s. repeat split; auto. }
    assert (Hmin : forall m, walk m w -> (S (Z.to_nat h) <= m)%nat).
    { intros m Hw. destruct (Nat.le_gt_cases (S (Z.to_nat h)) m) as [|Hlt]; [assumption|].
      exfalso. apply Hnot.
      destruct (walk_inv _ _ Hw) as [[_ ->]|(n & x & -> & Hx & Hhop)].
      - apply (inv_src I).
      - assert (Hxd : In x done) by (apply (inv_below I x n Hx); lia).
        pose proof (inv_done_seen I _ Hxd) as Hxv.
        destruct (inv_visited I _ Hxv) as [kx Hkx].
        pose proof (level_le_walk _ _ _ _ _ _ _ I Hkx Hx).
        apply (inv_done I x kx w Hxd Hkx); [lia|exact Hhop]. }
    split; [|split].
    + constructor.
      * rewrite Hv. apply in_or_app. left. apply (inv_src I).
      * intros v k Hl. apply Hlevel in Hl. rewrite Hv.
        destruct Hl as [Hl|[-> ->]].
        -- destruct (inv_level I _ _ Hl) as (Hin & Hr & Hd).
           split; [apply in_or_app; now left|now split].
        -- split; [apply in_or_app; right; now left|]. split; [lia|].
           replace (Z.to_nat (h + 1)) with (S (Z.to_nat h)) by lia.
           now split.
      * intros v Hin. rewrite Hv in Hin. apply in_app_or in Hin.
        destruct Hin as [Hin|[<-|[]]].
        -- destruct (inv_visited I _ Hin) as [k Hk]. exists k.
           apply Hlevel. now left.
        -- exists (h + 1). apply Hlevel. now right.
      * intros v k Hin. rewrite Hq in Hin. apply in_app_or in Hin.
        destruct Hin as [Hin|[Heq|[]]].
        -- destruct (inv_queue I _ _ Hin) as [Hl Hr].
           split; [apply Hlevel; now left|exact Hr].
        -- inversion Heq; subst. split; [apply Hlevel; now right|lia].
      * rewrite Hq. apply sorted_snoc; [apply (inv_sorted I)|].
        intros [v k] Hin. simpl. now apply (inv_queue I) in Hin.
      * intros v Hin. rewrite Hv in Hin. apply in_app_or in Hin. rewrite Hq.
        destruct Hin as [Hin|[<-|[]]].
        -- destruct (inv_where I _ Hin) as [Hd|[Hd|[k Hk]]]; auto.
           right. right. exists k. apply in_or_app. now left.
        -- right. right. exists (h + 1). apply in_or_app. right. now left.
      * intros v Hd. rewrite Hv. apply in_or_app. left.
        now apply (inv_done_seen I).
      * intros v k x Hd Hl Hk Hhop. rewrite Hv. apply in_or_app. left.
        apply Hlevel in Hl. destruct Hl as [Hl|[-> ->]].
        -- now apply (inv_done I v k x).
        -- exfalso. apply Hnot. now apply (inv_done_seen I).
      * apply (inv_below I).
      * intros u Hu. rewrite Hv. apply in_or_app. left. now apply (inv_at I).
      * exact Hh.
      * intros c0 Hc0. inversion Hc0; subst. split; [apply Hlevel; now left|exact Hdepth].
      * intros v k Hin. rewrite Hb, assigned_bucket_append in Hin.
        destruct Hin as [Hin|[_ ->]]; [now apply (inv_pos I v)|lia].
    + intros v Hin. rewrite Hv. apply in_or_app. now left.
    + intros _ _ _. rewrite Hv. apply in_or_app. right. now left.
Qed.

(** All the edges of a list are followed. *)
Lemma inv_visit_edges : forall h done c es st,
  Inv h (Some c) done st ->
  (forall e, In e es -> In e (edges_incident d c ts)) ->
  let st' := fold_left (visit_edge d repo depth c h) es st in
  Inv h (Some c) done st'
  /\ (forall v, In v (visited st) -> In v (visited st'))
  /\ (forall e s, In e es -> symbol_by_id d (other_end c e) = Some s ->
                  sym_path s = repo -> In (other_end c e) (visited st')).
Proof.
  intros h done c es. induction es as [|e es IH]; intros st I Hes; simpl.
  - split; [exact I|]. split; [auto|]. intros e s [].
  - destruct (inv_visit_edge h done st c e I (Hes e (or_introl eq_refl)))
      as (I1 & Hmono1 & Hend1).
    destruct (IH _ I1 (fun e' H => Hes e' (or_intror H))) as (I2 & Hmono2 & Hend2).
    split; [exact I2|]. split; [auto|].
    intros e' s [<-|Hin] Hs Hp.
    + apply Hmono2. now apply (Hend1 s).
    + now apply (Hend2 e' s).
Qed.

(** Every edge of [c] has been followed: [c] is done. *)
Lemma inv_expanded : forall h done c st,
  Inv h (Some c) done st ->
  (forall e s, In e (edges_incident d c ts) ->
               symbol_by_id d (other_end c e) = Some s -> sym_path s = repo ->
               In (other_end c e) (visited st)) ->
  Inv h None (c :: done) st.
Proof.
  intros h done c st I Hall.
  destruct (inv_cur I c eq_refl) as [Hc Hdepth].
  constructor.
  - apply (inv_src I).
  - apply (inv_level I).
  - apply (inv_visited I).
  - apply (inv_queue I).
  - apply (inv_sorted I).
  - intros v Hv. destruct (inv_where I _ Hv) as [Hd|[Hd|Hk]].
    + left. now right.
    + inversion Hd; subst. left. now left.
    + now right; right.
  - intros v [<-|Hd]; [|now apply (inv_done_seen I)].
    now apply (inv_level I _ _ Hc).
  - intros v k w [<-|Hd] Hl Hk Hhop.
    + destruct Hhop as (e & s & He & -> & Hs & Hp). now apply (Hall e s).
    + now apply (inv_done I v k w).
  - intros u i Hw Hi. right. now apply (inv_below I u i).
  - apply (inv_at I).
  - apply (inv_h I).
  - intros c0 H. discriminate.
  - apply (inv_pos I).
Qed.

Lemma bfs_loop_nil : forall fuel st,
  queue st = [] -> bfs_loop fuel d repo depth ts st = Some st.
Proof. intros fuel st H. destruct fuel; simpl; now rewrite H. Qed.

Lemma bfs_loop_cons : forall fuel st c k rest,
  queue st = (c, k) :: rest ->
  bfs_loop (S fuel) d repo depth ts st
  = let st0 := mkBfs (neighbors_by_depth st) (visited st) rest
                     (edges_seen st) (edges_payload st) in
    if k >=? depth then bfs_loop fuel d repo depth ts st0
    else bfs_loop fuel d repo depth ts
           (fold_left (visit_edge d repo depth c k) (edges_incident d c ts) st0).
Proof. intros fuel st c k rest H. simpl. now rewrite H. Qed.

(** The invariant holds when the loop ends. *)
Lemma bfs_loop_inv : forall fuel h done st st',
  Inv h None done st ->
  bfs_loop fuel d repo depth ts st = Some st' ->
  exists h' done', Inv h' None done' st'.
Proof.
  induction fuel as [|fuel IH]; intros h done st st' I Hrun.
  - destruct (queue st) as [|[c k] rest] eqn:Hq.
    + rewrite bfs_loop_nil in Hrun by exact Hq. inversion Hrun; subst. eauto.
    + simpl in Hrun. rewrite Hq in Hrun. discriminate.
  - destruct (queue st) as [|[c k] rest] eqn:Hq.
    + rewrite bfs_loop_nil in Hrun by exact Hq. inversion Hrun; subst. eauto.
    + rewrite (bfs_loop_cons fuel st c k rest Hq) in Hrun. cbv zeta in Hrun.
      assert (Ik : Inv k None done st).
      { assert (Hk : h <= k <= h + 1).
        { apply (inv_queue I c k). rewrite Hq. now left. }
        destruct (Z.eq_dec k h) as [->|Hne]; [exact I|].
        assert (k = h + 1) by lia. subst k.
        now apply (inv_next_level h done st c rest). }
      destruct (inv_pop k done st c rest Ik Hq) as [Hskip Hexpand].
      destruct (Z.geb_spec k depth) as [Hge|Hlt].
      * apply (IH _ _ _ _ (Hskip ltac:(lia)) Hrun).
      * destruct (inv_visit_edges k done c (edges_incident d c ts) _
                    (Hexpand Hlt) (fun e H => H)) as (I1 & _ & Hend).
        apply (IH _ _ _ _ (inv_expanded _ _ _ _ I1 Hend) Hrun).
Qed.

(** Every neighbor the loop has put in a bucket sits at its distance from
    the start, which is between 1 and [depth]. *)
Lemma bfs_loop_buckets : forall fuel st' v k,
  bfs_loop fuel d repo depth ts (mkBfs [] [src] [(src, 0)] [] []) = Some st' ->
  In (v, k) (assigned (neighbors_by_depth st')) ->
  1 <= k <= depth /\ distance v (Z.to_nat k).
Proof.
  intros fuel st' v k Hrun Hin.
  destruct (bfs_loop_inv fuel 0 [] _ st' inv_init Hrun) as (h' & done' & I).
  destruct (inv_level I v k (or_intror Hin)) as (_ & Hr & Hd).
  pose proof (inv_pos I v k Hin). split; [lia|exact Hd].
Qed.

End Traversal.


Lemma in_insert_sorted : forall (A : Type) (before : A -> A -> bool) x y l,
  In y (insert_sorted before x l) <-> y = x \/ In y l.
Proof.
  intros A before x y l. induction l as [|z l IH]; simpl.
  - intuition.
  - destruct (before x z); simpl; [intuition|]. rewrite IH. intuition.
Qed.

(** Sorting keeps the members of a list. *)
Lemma in_stable_sort : forall (A : Type) (before : A -> A -> bool) y l,
  In y (stable_sort before l) <-> In y l.
Proof.
  intros A before y l. unfold stable_sort.
  assert (H : forall acc, In y (fold_left (fun acc x => insert_sorted before x acc) l acc)
                          <-> In y acc \/ In y l).
  { induction l as [|x l IH]; intros acc; simpl; [intuition|].
    rewrite IH, in_insert_sorted. intuition. }
  rewrite H. simpl. intuition.
Qed.

(** A walk of the traversal is a chain of edges of the table. *)
Lemma walk_chain : forall d repo ts u n v,
  walk d repo ts u n v -> chain d u n v.
Proof.
  intros d repo ts u n v H. induction H as [|n v w Hw IH Hhop]; [constructor|].
  destruct Hhop as (e & s & He & Hend & _).
  unfold edges_incident in He. apply filter_In in He. destruct He as [Hin Hinc].
  apply chain_edge with (v := v) (edge := e); [exact IH|exact Hin|].
  apply andb_prop in Hinc. destruct Hinc as [Hinc _].
  destruct (Z.eqb_spec v (src_id e)) as [Hsrc|Hsrc].
  - left. split; [now symmetry|now symmetry].
  - right. split; [|now symmetry]. apply orb_prop in Hinc.
    destruct Hinc as [Hinc|Hinc]; apply Z.eqb_eq in Hinc; congruence.
Qed.

(** C6.  [get_context] always returns.  For a symbol that is not in the
    file the answer is [symbol_not_found]; for one that is, the answer is a
    context whose primary symbol is that symbol.  With a depth of 0 (or less)
    the context is the primary symbol alone: no neighbors, no edges,
    [symbols_returned] 1.  Otherwise every neighbor returned under the key
    [depth_k] has [1 <= k <= depth] and [k] is its shortest distance from the
    primary symbol in the graph the traversal walks (edges of the admitted
    types, either way, between symbols of the file); in particular a chain
    of [k] edges of the table joins it to the primary symbol, so no symbol
    farther than [depth] is returned. *)
Theorem focus_buckets_hold_shortest_depths : forall d repo name depth types,
  (symbol_by_name d repo name = None ->
   get_context d repo name depth types = Some (Err (symbol_not_found name repo)))
  /\ forall symbol,
       symbol_by_name d repo name = Some symbol ->
       exists ctx,
         get_context d repo name depth types = Some (Ok ctx)
         /\ primary ctx = serialize_primary symbol
         /\ (depth <= 0 ->
             neighbors ctx = [] /\ ctx_edges ctx = []
             /\ ctx_stats ctx = mkStats 1 0 0)
         /\ forall k bucket n,
              In (k, bucket) (neighbors ctx) -> In n bucket ->
              1 <= k <= depth
              /\ distance d repo (filter (fun t => negb (is_empty t)) types)
                          (sym_id symbol) (n_id n) (Z.to_nat k)
              /\ chain d (sym_id symbol) (Z.to_nat k) (n_id n).
Proof.
  intros d repo name depth types. unfold get_context. split.
  { intros Hnone. rewrite Hnone. reflexivity. }
  intros symbol Hsym. rewrite Hsym.
  destruct (Z.leb_spec depth 0) as [Hle|Hpos].
  - eexists. split; [reflexivity|]. simpl. split; [reflexivity|].
    split; [auto|]. intros k bucket n [].
  - set (ts := filter (fun t => negb (is_empty t)) types).
    destruct (bfs_fuel_enough d repo depth ts (sym_id symbol)) as [st Hst].
    rewrite Hst. eexists. split; [reflexivity|]. simpl. split; [reflexivity|].
    split; [intros; lia|].
    intros k bucket n Hin Hn. rewrite in_map_iff in Hin.
    destruct Hin as [[k0 b0] [Heq Hin]]. simpl in Heq. inversion Heq; subst; clear Heq.
    apply in_stable_sort in Hn.
    assert (Ha : In (n_id n, k) (assigned (neighbors_by_depth st))).
    { unfold assigned. rewrite in_flat_map. exists (k, b0). split; [exact Hin|].
      simpl. rewrite in_map_iff. now exists n. }
    destruct (bfs_loop_buckets d repo depth ts (sym_id symbol) Hpos _ _ _ _ Hst Ha)
      as [Hk Hd].
    split; [exact Hk|]. split; [exact Hd|]. apply (walk_chain d repo ts). apply Hd.
Qed.

(** The file in which [main] calls [helper], at depth 1: the answer is a
    context around [main], and what it returns lies one hop away. *)
Lemma focus_buckets_hold_shortest_depths_witness :
  symbol_by_name Sample.demo_store "src/focus_demo.py" "main" = Some Sample.demo_main
  /\ exists ctx,
       get_context Sample.demo_store "src/focus_demo.py" "main" 1 [] = Some (Ok ctx)
       /\ primary ctx = serialize_primary Sample.demo_main
       /\ (1 <= 0 ->
           neighbors ctx = [] /\ ctx_edges ctx = []
           /\ ctx_stats ctx = mkStats 1 0 0)
       /\ forall k bucket n,
            In (k, bucket) (neighbors ctx) -> In n bucket ->
            1 <= k <= 1
            /\ distance Sample.demo_store "src/focus_demo.py"
                        (filter (fun t => negb (is_empty t)) [])
                        (sym_id Sample.demo_main) (n_id n) (Z.to_nat k)
            /\ chain Sample.demo_store (sym_id Sample.demo_main) (Z.to_nat k) (n_id n).
Proof.
  assert (Hsym : symbol_by_name Sample.demo_store "src/focus_demo.py" "main"
                 = Some Sample.demo_main) by (vm_compute; reflexivity).
  split; [exact Hsym|].
  exact (proj2 (focus_buckets_hold_shortest_depths
                  Sample.demo_store "src/focus_demo.py" "main" 1 [])
               Sample.demo_main Hsym).
Defined.

End FocusFacts.

(** ** Diff patch engine *)

Module DiffFacts.
Import PyStr Diff.

(** *** Strings and lines *)

Lemma append_assoc : forall a b c : string, (a ++ b) ++ c = a ++ b ++ c.
Proof. induction a as [|x a IH]; intros b c; simpl; [reflexivity|now rewrite IH]. Qed.

Lemma append_nil_r : forall a : string, a ++ EmptyString = a.
Proof. induction a as [|x a IH]; simpl; [reflexivity|now rewrite IH]. Qed.

Lemma one_line_app : forall a b, one_line (a ++ b) = (one_line a && one_line b)%bool.
Proof.
  induction a as [|x a IH]; intros b; simpl; [reflexivity|].
  rewrite IH. now rewrite andb_assoc.
Qed.

(** A line, its newline, and what follows. *)
Lemma splitlines_line : forall l rest,
  one_line l = true -> splitlines (l ++ nl ++ rest) = l :: splitlines rest.
Proof.
  induction l as [|c l IH]; intros rest Hl.
  - simpl. destruct rest; reflexivity.
  - simpl in Hl. apply andb_prop in Hl. destruct Hl as [Hc Hl].
    apply negb_true_iff in Hc.
    change (String c l ++ nl ++ rest) with (String c (l ++ nl ++ rest)).
    cbn [splitlines]. rewrite Hc, (IH rest Hl). reflexivity.
Qed.

(** Lines written one per line read back as they are. *)
Lemma splitlines_join : forall ls,
  Forall (fun l => one_line l = true) ls -> ls <> [] ->
  splitlines (join nl ls ++ nl) = ls.
Proof.
  induction ls as [|l ls IH]; intros Hall Hne; [contradiction|].
  inversion Hall as [|? ? Hl Hls]; subst.
  destruct ls as [|l' ls'].
  - unfold join. simpl. rewrite <- (append_nil_r nl) at 1.
    rewrite (splitlines_line l EmptyString Hl). reflexivity.
  - unfold join in *. change (String.concat nl (l :: l' :: ls'))
      with (l ++ nl ++ String.concat nl (l' :: ls')).
    rewrite !append_assoc. rewrite (splitlines_line _ _ Hl).
    f_equal. apply IH; [exact Hls|discriminate].
Qed.

(** The lines [splitlines] returns hold no line boundary. *)
Lemma splitlines_one_line : forall s,
  Forall (fun l => one_line l = true) (splitlines s).
Proof.
  assert (H : forall n s, (String.length s <= n)%nat ->
                          Forall (fun l => one_line l = true) (splitlines s)).
  { induction n as [|n IH]; intros s Hlen.
    - destruct s; [constructor|simpl in Hlen; lia].
    - destruct s as [|c rest]; [constructor|]. simpl in Hlen.
      cbn [splitlines]. destruct (is_linebreak c) eqn:Ec.
      + constructor; [reflexivity|]. destruct rest as [|c' rest']; [constructor|].
        simpl in Hlen. destruct ((code c =? 13)%N && (code c' =? 10)%N)%bool;
          apply IH; simpl; lia.
      + assert (Hrest : Forall (fun l => one_line l = true) (splitlines rest))
          by (apply IH; lia).
        destruct (splitlines rest) as [|l ls]; constructor; try constructor.
        * simpl. now rewrite Ec.
        * inversion Hrest; subst. simpl. rewrite Ec. simpl. assumption.
        * now inversion Hrest. }
  intros s. apply (H (String.length s)). lia.
Qed.


Lemma prefix_app : forall p s, String.prefix p (p ++ s) = true.
Proof.
  induction p as [|c p IH]; intros s; simpl.
  - destruct s; reflexivity.
  - destruct (ascii_dec c c); [apply IH|contradiction].
Qed.

Lemma drop_app : forall p s, drop (String.length p) (p ++ s) = s.
Proof. induction p as [|c p IH]; intros s; simpl; [reflexivity|apply IH]. Qed.

Lemma expect_app : forall p s, expect p (p ++ s) = Some s.
Proof.
  intros p s. unfold expect, startswith. now rewrite prefix_app, drop_app.
Qed.

(** *** Numbers in hunk headers *)

Lemma take_digits_uint : forall u rest,
  no_digit_first rest = true ->
  take_digits (NilEmpty.string_of_uint u ++ rest) = (NilEmpty.string_of_uint u, rest).
Proof.
  induction u as [|u IH|u IH|u IH|u IH|u IH|u IH|u IH|u IH|u IH|u IH];
    intros rest Hrest;
    try (cbn [NilEmpty.string_of_uint append take_digits];
         change (is_digit _) with true; cbv iota; rewrite (IH rest Hrest); reflexivity).
  cbn [NilEmpty.string_of_uint append].
  destruct rest as [|c rest]; [reflexivity|].
  simpl in Hrest. apply negb_true_iff in Hrest. cbn [take_digits]. now rewrite Hrest.
Qed.

Lemma int_of_digits_uint : forall u acc,
  int_of_digits_acc (NilEmpty.string_of_uint u) (Z.of_nat acc)
  = Z.of_nat (Nat.of_uint_acc u acc).
Proof.
  induction u as [|u IH|u IH|u IH|u IH|u IH|u IH|u IH|u IH|u IH|u IH]; intros acc;
    [reflexivity|..];
    cbn [NilEmpty.string_of_uint int_of_digits_acc Nat.of_uint_acc];
    rewrite <- IH; f_equal; rewrite Nat.tail_mul_spec;
    match goal with
    | |- context [Z.of_N (code ?c)] =>
        let v := eval vm_compute in (Z.of_N (code c)) in
        change (Z.of_N (code c)) with v
    end; lia.
Qed.

Lemma to_little_uint_not_nil : forall n acc,
  acc <> Decimal.Nil -> Nat.to_little_uint n acc <> Decimal.Nil.
Proof.
  induction n as [|n IH]; intros acc Hacc; simpl; [exact Hacc|].
  apply IH. destruct acc; simpl; discriminate.
Qed.

Lemma str_of_nat_not_empty : forall n, is_empty (str_of_nat n) = false.
Proof.
  intros n. unfold str_of_nat.
  assert (H : Nat.to_uint n <> Decimal.Nil).
  { unfold Nat.to_uint. intros Hr. apply DecimalFacts.rev_nil_inv in Hr.
    revert Hr. apply to_little_uint_not_nil. discriminate. }
  destruct (Nat.to_uint n); [contradiction|reflexivity..].
Qed.

Lemma take_digits_str_of_nat : forall n rest,
  no_digit_first rest = true ->
  take_digits (str_of_nat n ++ rest) = (str_of_nat n, rest).
Proof. intros n rest H. now apply take_digits_uint. Qed.

Lemma int_of_str_of_nat : forall n, int_of_digits (str_of_nat n) = Z.of_nat n.
Proof.
  intros n. unfold int_of_digits, str_of_nat.
  change 0 with (Z.of_nat 0). rewrite int_of_digits_uint.
  f_equal. apply (DecimalNat.Unsigned.of_to n).
Qed.

Lemma one_line_uint : forall u, one_line (NilEmpty.string_of_uint u) = true.
Proof. induction u; simpl; auto. Qed.

Lemma one_line_str_of_nat : forall n, one_line (str_of_nat n) = true.
Proof. intros n. apply one_line_uint. Qed.

(** The header of a hunk that has a line of the old file reads back as the
    number of its first old line. *)
Lemma parse_rendered_header : forall old_before new_before body,
  (1 <= old_count body)%nat ->
  parse_hunk_header (render_hunk_header old_before new_before body)
  = Some (Z.of_nat (S old_before)).
Proof.
  intros ob nb body Hold. unfold render_hunk_header, render_range.
  destruct (Nat.eqb_spec (old_count body) 0) as [H0|_]; [lia|].
  unfold parse_hunk_header.
  rewrite expect_app. rewrite !append_assoc.
  rewrite take_digits_str_of_nat by reflexivity.
  rewrite str_of_nat_not_empty.
  assert (Hskip : forall n rest, no_digit_first rest = true ->
                                 skip_count ("," ++ str_of_nat n ++ rest) = rest).
  { intros n rest Hr. change ("," ++ str_of_nat n ++ rest)
      with (String "," (str_of_nat n ++ rest)). cbn [skip_count].
    rewrite take_digits_str_of_nat by exact Hr. now rewrite str_of_nat_not_empty. }
  rewrite Hskip by reflexivity.
  rewrite expect_app. rewrite take_digits_str_of_nat by reflexivity.
  rewrite str_of_nat_not_empty. rewrite Hskip by reflexivity.
  rewrite <- (append_nil_r " @@"), expect_app.
  now rewrite int_of_str_of_nat.
Qed.


(** *** Hunk bodies *)

Lemma skipn_cons_nth : forall (A : Type) (l : list A) i x r,
  skipn i l = x :: r ->
  nth_error l i = Some x /\ (i < List.length l)%nat /\ skipn (S i) l = r.
Proof.
  intros A l. induction l as [|y l IH]; intros i x r H.
  - destruct i; discriminate.
  - destruct i as [|i].
    + simpl in H. inversion H; subst. simpl. repeat split; lia.
    + simpl in H. destruct (IH i x r H) as (Hn & Hlt & Hs).
      simpl. repeat split; [exact Hn|lia|exact Hs].
Qed.

Lemma line_matches : forall original_lines i s r,
  skipn i original_lines = s :: r ->
  line_differs original_lines (Z.of_nat i) s = false.
Proof.
  intros ol i s r H. apply skipn_cons_nth in H. destruct H as (Hn & Hlt & _).
  unfold line_differs.
  destruct (Z.geb_spec (Z.of_nat i) (Z.of_nat (List.length ol))); [lia|].
  rewrite Nat2Z.id, Hn. now rewrite String.eqb_refl.
Qed.

(** What a hunk body leaves of the old lines. *)
Lemma edit_body_rest : forall body old new old',
  edit_body body old = Some (new, old') -> old' = skipn (old_count body) old.
Proof.
  induction body as [|l body IH]; intros old new old' H.
  - simpl in H. now inversion H.
  - destruct l as [s|s|s|]; simpl in H.
    + destruct old as [|o old]; [discriminate|].
      destruct (String.eqb o s); [|discriminate].
      destruct (edit_body body old) as [[n r]|] eqn:E; [|discriminate].
      simpl in H. inversion H; subst. now apply IH in E.
    + destruct old as [|o old]; [discriminate|].
      destruct (String.eqb o s); [|discriminate].
      now apply IH in H.
    + destruct (edit_body body old) as [[n r]|] eqn:E; [|discriminate].
      simpl in H. inversion H; subst. now apply IH in E.
    + now apply IH in H.
Qed.

Lemma prefix_empty : forall s, String.prefix EmptyString s = true.
Proof. destruct s; reflexivity. Qed.

Lemma step_context : forall original_lines i P cf ap s,
  line_differs original_lines i s = false ->
  hunk_line_step original_lines (mkLoop i P cf ap true) (render_line (Context s))
  = Ok (mkLoop (i + 1) (P ++ [s])%list cf ap true).
Proof.
  intros ol i P cf ap s H. unfold hunk_line_step, startswith. simpl.
  now rewrite prefix_empty, H.
Qed.

Lemma step_deletion : forall original_lines i P cf ap s,
  line_differs original_lines i s = false ->
  hunk_line_step original_lines (mkLoop i P cf ap true) (render_line (Deletion s))
  = Ok (mkLoop (i + 1) P cf ap true).
Proof.
  intros ol i P cf ap s H. unfold hunk_line_step, startswith. simpl.
  now rewrite prefix_empty, H.
Qed.

Lemma step_addition : forall original_lines i P cf ap s,
  hunk_line_step original_lines (mkLoop i P cf ap true) (render_line (Addition s))
  = Ok (mkLoop i (P ++ [s])%list cf ap true).
Proof.
  intros ol i P cf ap s. unfold hunk_line_step, startswith. simpl.
  now rewrite prefix_empty.
Qed.

Lemma step_marker : forall original_lines st,
  hunk_line_step original_lines st (render_line NoNewlineMarker) = Ok st.
Proof. reflexivity. Qed.

(** A plain hunk line does not end the inner loop. *)
Lemma plain_line_stays : forall l,
  plain_line l = true -> breaks_hunk (render_line l) = false.
Proof.
  intros [s|s|s|] H; unfold breaks_hunk, startswith; simpl; try reflexivity.
  - simpl in H. apply negb_true_iff in H. unfold startswith in H.
    now rewrite H.
  - simpl in H. apply andb_prop in H. destruct H as [_ H].
    apply negb_true_iff in H. unfold startswith in H. now rewrite H.
Qed.

Section Applying.

Variable original_lines : list string.
Variable repo_path : string.

Local Abbreviation run_loop := (run_loop original_lines repo_path).

Lemma run_loop_hunk_line : forall line rest i P cf ap st',
  breaks_hunk line = false ->
  hunk_line_step original_lines (mkLoop i P cf ap true) line = Ok st' ->
  run_loop (line :: rest) (mkLoop i P cf ap true) = run_loop rest st'.
Proof.
  intros line rest i P cf ap st' Hb Hstep. cbn [Diff.run_loop in_hunk].
  rewrite Hb. cbn [negb andb]. now rewrite Hstep.
Qed.

(** The inner loop follows the body of a hunk that applies. *)
Lemma run_body : forall body rest i P cf ap new old',
  forallb plain_line body = true ->
  edit_body body (skipn i original_lines) = Some (new, old') ->
  run_loop (map render_line body ++ rest)%list (mkLoop (Z.of_nat i) P cf ap true)
  = run_loop rest
      (mkLoop (Z.of_nat (i + old_count body)) (P ++ new)%list cf ap true).
Proof.
  induction body as [|l body IH]; intros rest i P cf ap new old' Hplain Hedit.
  - simpl in Hedit. inversion Hedit; subst. simpl.
    now rewrite Nat.add_0_r, app_nil_r.
  - cbn [forallb] in Hplain. apply andb_prop in Hplain. destruct Hplain as [Hl Hplain].
    cbn [map]. rewrite <- app_comm_cons.
    pose proof (plain_line_stays l Hl) as Hstay.
    destruct l as [s|s|s|].
    + cbn [edit_body] in Hedit.
      destruct (skipn i original_lines) as [|o old] eqn:Hskip; [discriminate|].
      destruct (String.eqb_spec o s) as [->|]; [|discriminate].
      destruct (edit_body body old) as [[n r]|] eqn:E; [|discriminate].
      simpl in Hedit. inversion Hedit; subst; clear Hedit.
      pose proof (line_matches _ _ _ _ Hskip) as Hm.
      apply skipn_cons_nth in Hskip. destruct Hskip as (_ & _ & Hskip).
      rewrite <- Hskip in E.
      rewrite (run_loop_hunk_line _ _ _ _ _ _ _ Hstay (step_context _ _ P cf ap _ Hm)).
      replace (Z.of_nat i + 1) with (Z.of_nat (S i)) by lia.
      rewrite (IH rest (S i) _ cf ap _ _ Hplain E).
      f_equal. f_equal.
      * unfold old_count. simpl. f_equal. lia.
      * now rewrite <- app_assoc.
    + cbn [edit_body] in Hedit.
      destruct (skipn i original_lines) as [|o old] eqn:Hskip; [discriminate|].
      destruct (String.eqb_spec o s) as [->|]; [|discriminate].
      pose proof (line_matches _ _ _ _ Hskip) as Hm.
      apply skipn_cons_nth in Hskip. destruct Hskip as (_ & _ & Hskip).
      rewrite <- Hskip in Hedit.
      rewrite (run_loop_hunk_line _ _ _ _ _ _ _ Hstay (step_deletion _ _ P cf ap _ Hm)).
      replace (Z.of_nat i + 1) with (Z.of_nat (S i)) by lia.
      rewrite (IH rest (S i) _ cf ap new old' Hplain Hedit).
      f_equal. f_equal. unfold old_count. simpl. f_equal. lia.
    + cbn [edit_body] in Hedit.
      destruct (edit_body body (skipn i original_lines)) as [[n r]|] eqn:E;
        [|discriminate].
      simpl in Hedit. inversion Hedit; subst; clear Hedit.
      rewrite (run_loop_hunk_line _ _ _ _ _ _ _ Hstay
                 (step_addition original_lines _ P cf ap s)).
      rewrite (IH rest i _ cf ap _ _ Hplain E).
      f_equal. f_equal. now rewrite <- app_assoc.
    + cbn [edit_body] in Hedit.
      rewrite (run_loop_hunk_line _ _ _ _ _ _ _ Hstay (step_marker original_lines _)).
      apply (IH rest i P cf ap new old' Hplain Hedit).
Qed.

Lemma header_breaks_hunk : forall ob nb body,
  breaks_hunk (render_hunk_header ob nb body) = true.
Proof. reflexivity. Qed.

(** The outer loop on the header of a hunk that has a line of the old
    file: the untouched lines up to the hunk are copied. *)
Lemma run_hunk_header : forall rest ob gap nb body P cf ap ih,
  (1 <= old_count body)%nat ->
  run_loop (render_hunk_header (ob + gap) nb body :: rest)
           (mkLoop (Z.of_nat ob) P cf ap ih)
  = run_loop rest
      (mkLoop (Z.of_nat (ob + gap))
              (P ++ firstn gap (skipn ob original_lines))%list cf true true).
Proof.
  intros rest ob gap nb body P cf ap ih Hold. cbn [Diff.run_loop in_hunk].
  rewrite header_breaks_hunk. rewrite andb_false_r.
  unfold outer_line_step.
  change (startswith (render_hunk_header (ob + gap) nb body) "--- ") with false.
  change (startswith (render_hunk_header (ob + gap) nb body) "+++ ") with false.
  change (startswith (render_hunk_header (ob + gap) nb body) "@@ ") with true.
  cbv iota. rewrite (parse_rendered_header _ _ _ Hold). cbn [idx patched_lines current_file].
  destruct (Z.ltb_spec (Z.of_nat (S (ob + gap)) - 1) (Z.of_nat ob)); [lia|].
  f_equal. unfold slice. f_equal; [lia|].
  f_equal. rewrite Nat2Z.id. f_equal. lia.
Qed.

(** The loop follows hunks that apply, one after the other. *)
Lemma run_hunks : forall hunks ob nb P cf ap ih new_lines,
  forallb plain_hunk hunks = true ->
  edit_lines hunks (skipn ob original_lines) = Some new_lines ->
  exists st',
    run_loop (render_hunks hunks ob nb) (mkLoop (Z.of_nat ob) P cf ap ih) = Ok st'
    /\ (patched_lines st' ++ skipn (Z.to_nat (idx st')) original_lines)%list
       = (P ++ new_lines)%list
    /\ applied_hunk st' = (ap || match hunks with [] => false | _ => true end)%bool.
Proof.
  induction hunks as [|h hunks IH]; intros ob nb P cf ap ih new_lines Hplain Hedit.
  - simpl in Hedit. inversion Hedit; subst. eexists. split; [reflexivity|].
    simpl. rewrite Nat2Z.id, orb_false_r. now split.
  - cbn [forallb] in Hplain. apply andb_prop in Hplain. destruct Hplain as [Hh Hplain].
    unfold plain_hunk in Hh. apply andb_prop in Hh. destruct Hh as [Hold Hbody].
    apply Nat.leb_le in Hold.
    cbn [edit_lines] in Hedit.
    destruct (hunk_gap h <=? List.length (skipn ob original_lines))%nat; [|discriminate].
    destruct (edit_body (hunk_body h) (skipn (hunk_gap h) (skipn ob original_lines)))
      as [[new old']|] eqn:Ebody; [|discriminate].
    destruct (edit_lines hunks old') as [r|] eqn:Erest; [|discriminate].
    simpl in Hedit. inversion Hedit; subst; clear Hedit.
    rewrite skipn_skipn in Ebody.
    replace (hunk_gap h + ob)%nat with (ob + hunk_gap h)%nat in Ebody by lia.
    pose proof (edit_body_rest _ _ _ _ Ebody) as Hold'.
    rewrite skipn_skipn in Hold'.
    replace (old_count (hunk_body h) + (ob + hunk_gap h))%nat
      with (ob + hunk_gap h + old_count (hunk_body h))%nat in Hold' by lia.
    subst old'.
    cbn [render_hunks]. rewrite (run_hunk_header _ _ _ _ _ _ _ _ _ Hold).
    rewrite (run_body _ _ _ _ _ _ _ _ Hbody Ebody).
    destruct (IH (ob + hunk_gap h + old_count (hunk_body h))%nat
                 (nb + hunk_gap h + new_count (hunk_body h))%nat
                 ((P ++ firstn (hunk_gap h) (skipn ob original_lines)) ++ new)%list
                 cf true true r Hplain Erest) as (st' & Hrun & Hout & Happ).
    exists st'. split; [exact Hrun|]. split.
    + rewrite Hout. now rewrite <- !app_assoc.
    + rewrite Happ. simpl. now rewrite orb_true_r.
Qed.

End Applying.

(** *** Header lines *)

Lemma rstrip_keeps : forall c s,
  rstrip s = s -> (is_space c = false \/ s <> EmptyString) ->
  rstrip (String c s) = String c s.
Proof.
  intros c s Hs Hc. cbn [rstrip]. rewrite Hs.
  destruct Hc as [Hc|Hc].
  - now rewrite Hc.
  - destruct s; [contradiction|]. now rewrite andb_false_r.
Qed.

Lemma before_tab_none : forall s, no_tab s = true -> before_tab s = s.
Proof.
  intros s H. unfold before_tab.
  assert (Hs : split_on "009" s = [s]).
  { induction s as [|c s IH]; [reflexivity|].
    simpl in H. apply andb_prop in H. destruct H as [Hc H].
    apply negb_true_iff in Hc. cbn [split_on]. rewrite Hc, (IH H). reflexivity. }
  now rewrite Hs.
Qed.

(** A plain path is read back from its header line. *)
Lemma header_field_plain : forall mark path,
  plain_path path = true ->
  header_field (mark ++ " b/" ++ path) = "b/" ++ path \/ String.length mark <> 3%nat.
Proof.
  intros mark path H. destruct mark as [|c1 [|c2 [|c3 [|c4 m]]]];
    try (right; simpl; lia).
  left. unfold plain_path in H. apply andb_prop in H. destruct H as [H Hr].
  apply andb_prop in H. destruct H as [Hone Htab]. apply String.eqb_eq in Hr.
  unfold header_field. simpl drop. unfold strip. cbn [lstrip append].
  change (is_space "b") with false. cbv iota.
  rewrite rstrip_keeps.
  - apply before_tab_none. simpl. exact Htab.
  - apply rstrip_keeps; [exact Hr|now left].
  - right. discriminate.
Qed.

Section Headers.

Variable original_lines : list string.

(** The two header lines of a diff for a plain path leave the loop ready
    for the hunks. *)
Lemma run_headers : forall path rest,
  plain_path path = true ->
  exists cf,
    run_loop original_lines path (("--- a/" ++ path) :: ("+++ b/" ++ path) :: rest)
             loop_init
    = run_loop original_lines path rest (mkLoop 0 [] (Some cf) false false).
Proof.
  intros path rest Hpath. eexists. cbn [run_loop loop_init in_hunk andb].
  unfold outer_line_step at 1.
  change (startswith ("--- a/" ++ path) "--- ") with true. cbv iota.
  cbn [idx patched_lines applied_hunk current_file in_hunk andb].
  unfold outer_line_step at 1.
  change (startswith ("+++ b/" ++ path) "--- ") with false.
  change (startswith ("+++ b/" ++ path) "+++ ") with true. cbv iota.
  cbn [idx patched_lines applied_hunk current_file in_hunk andb].
  destruct (header_field_plain "+++" path Hpath) as [Hf|Hf]; [|simpl in Hf; lia].
  change ("+++" ++ " b/" ++ path) with ("+++ b/" ++ path) in Hf. rewrite Hf.
  unfold normalize_header.
  change (startswith ("b/" ++ path) "a/") with false.
  change (startswith ("b/" ++ path) "b/") with (String.prefix EmptyString path).
  rewrite prefix_empty. cbn [orb]. simpl drop. rewrite String.eqb_refl.
  reflexivity.
Qed.

End Headers.

(** *** The text of a diff reads back as its lines *)

Lemma one_line_header : forall ob nb body,
  one_line (render_hunk_header ob nb body) = true.
Proof.
  intros ob nb body. unfold render_hunk_header, render_range.
  rewrite !one_line_app, !one_line_str_of_nat. reflexivity.
Qed.

Lemma Forall_one_line_skipn : forall n (ls : list string),
  Forall (fun l => one_line l = true) ls ->
  Forall (fun l => one_line l = true) (skipn n ls).
Proof.
  induction n as [|n IH]; intros ls H; [exact H|].
  destruct ls as [|l ls]; [constructor|]. inversion H; subst. now apply IH.
Qed.

Lemma body_one_line : forall body old new old',
  Forall (fun l => one_line l = true) old ->
  forallb plain_line body = true ->
  edit_body body old = Some (new, old') ->
  Forall (fun l => one_line l = true) (map render_line body).
Proof.
  induction body as [|l body IH]; intros old new old' Hold Hplain Hedit;
    [constructor|].
  cbn [forallb] in Hplain. apply andb_prop in Hplain. destruct Hplain as [Hl Hplain].
  cbn [map]. destruct l as [s|s|s|]; cbn [edit_body] in Hedit.
  - destruct old as [|o old]; [discriminate|].
    destruct (String.eqb_spec o s) as [->|]; [|discriminate].
    destruct (edit_body body old) as [[n r]|] eqn:E; [|discriminate].
    inversion Hold; subst. constructor; [simpl; assumption|].
    now apply (IH old n r).
  - destruct old as [|o old]; [discriminate|].
    destruct (String.eqb_spec o s) as [->|]; [|discriminate].
    inversion Hold; subst. constructor; [simpl; assumption|].
    now apply (IH old new old').
  - destruct (edit_body body old) as [[n r]|] eqn:E; [|discriminate].
    simpl in Hl. apply andb_prop in Hl. destruct Hl as [Hl _].
    constructor; [simpl; assumption|]. now apply (IH old n r).
  - constructor; [reflexivity|]. now apply (IH old new old').
Qed.

Lemma hunks_one_line : forall hunks ob nb old new,
  Forall (fun l => one_line l = true) old ->
  forallb plain_hunk hunks = true ->
  edit_lines hunks old = Some new ->
  Forall (fun l => one_line l = true) (render_hunks hunks ob nb).
Proof.
  induction hunks as [|h hunks IH]; intros ob nb old new Hold Hplain Hedit;
    [constructor|].
  cbn [forallb] in Hplain. apply andb_prop in Hplain. destruct Hplain as [Hh Hplain].
  unfold plain_hunk in Hh. apply andb_prop in Hh. destruct Hh as [_ Hbody].
  cbn [edit_lines] in Hedit.
  destruct (hunk_gap h <=? List.length old)%nat; [|discriminate].
  destruct (edit_body (hunk_body h) (skipn (hunk_gap h) old)) as [[n old']|] eqn:Ebody;
    [|discriminate].
  destruct (edit_lines hunks old') as [r|] eqn:Erest; [|discriminate].
  cbn [render_hunks]. constructor; [apply one_line_header|].
  apply Forall_app. split.
  - apply (body_one_line _ _ _ _ (Forall_one_line_skipn _ _ Hold) Hbody Ebody).
  - apply (IH _ _ old' r); [|exact Hplain|exact Erest].
    rewrite (edit_body_rest _ _ _ _ Ebody).
    now apply Forall_one_line_skipn, Forall_one_line_skipn.
Qed.

Lemma diff_text_lines : forall original path hunks new,
  plain_path path = true ->
  forallb plain_hunk hunks = true ->
  edit_lines hunks (splitlines original) = Some new ->
  splitlines (diff_text path hunks) = diff_lines_of path hunks.
Proof.
  intros original path hunks new Hpath Hplain Hedit. unfold diff_text.
  apply splitlines_join; [|discriminate].
  unfold plain_path in Hpath. apply andb_prop in Hpath. destruct Hpath as [Hpath _].
  apply andb_prop in Hpath. destruct Hpath as [Hone _].
  unfold diff_lines_of. constructor; [simpl; assumption|].
  constructor; [simpl; assumption|].
  apply (hunks_one_line _ _ _ _ _ (splitlines_one_line original) Hplain Hedit).
Qed.

(** C2, as amended.  Let a diff for [path] be made of hunks that each hold a
    line of the old file, with no deleted line that begins with ["-- "] and
    no added line that begins with ["++ "] or holds a line boundary.  If it
    describes an edit of the lines of [original], applying its text yields the
    lines of the edited file joined by newlines, ended by a newline exactly
    when [original] ends with one (or the last new line is empty): the newline
    convention kept is that of the original text. *)
Theorem apply_diff_yields_edit : forall original path hunks new_lines,
  hunks <> [] ->
  plain_path path = true ->
  forallb plain_hunk hunks = true ->
  edit_lines hunks (splitlines original) = Some new_lines ->
  apply_unified_diff_to_text original (diff_text path hunks) path
  = Ok (with_final_newline_of original (join nl new_lines)).
Proof.
  intros original path hunks new_lines Hne Hpath Hplain Hedit.
  unfold apply_unified_diff_to_text.
  rewrite (diff_text_lines original path hunks new_lines Hpath Hplain Hedit).
  unfold diff_lines_of.
  destruct (run_headers (splitlines original) path (render_hunks hunks 0 0) Hpath)
    as [cf ->].
  destruct (run_hunks (splitlines original) path hunks 0 0 [] (Some cf) false false
              new_lines Hplain Hedit) as (st' & Hrun & Hout & Happ).
  change (Z.of_nat 0) with 0 in Hrun. rewrite Hrun, Hout, Happ.
  destruct hunks; [contradiction|]. cbn [orb negb]. rewrite app_nil_l.
  unfold with_final_newline_of.
  now destruct (ends_with_nl original && negb (ends_with_nl (join nl new_lines)))%bool.
Qed.

Lemma apply_diff_yields_edit_witness :
  apply_unified_diff_to_text Sample.example_content
    (diff_text "src/example.py"
       [mkHunk 1 [Deletion "    return a+b"; Addition "    return a-b"]])
    "src/example.py"
  = Ok (with_final_newline_of Sample.example_content
          (join nl ["def example(a,b):"; "    return a-b"; EmptyString; EmptyString;
                    "<!--AGTAG v1 START-->"; Sample.example_json;
                    "<!--AGTAG v1 END-->"])).
Proof.
  apply apply_diff_yields_edit.
  - discriminate.
  - reflexivity.
  - reflexivity.
  - reflexivity.
Defined.

(** C2 as stated fails: the file [unterminated] has no final newline, the
    diff [terminating_hunks] describes the edit that adds one (its lines are
    those of [terminated], the marker follows the old last line), and
    applying it returns [unterminated], not [terminated]. *)
Lemma final_newline_not_taken_from_new_text :
  edit_lines Sample.terminating_hunks (splitlines Sample.unterminated)
  = Some (splitlines Sample.terminated)
  /\ apply_unified_diff_to_text Sample.unterminated
       (diff_text "f.py" Sample.terminating_hunks) "f.py"
     = Ok Sample.unterminated
  /\ apply_unified_diff_to_text Sample.unterminated
       (diff_text "f.py" Sample.terminating_hunks) "f.py"
     <> Ok Sample.terminated.
Proof.
  split; [reflexivity|]. split; [reflexivity|].
  vm_compute. discriminate.
Qed.

(** A hunk that only inserts, written with no context as [diff -U0] does:
    its header names the line before the insertion, and the new line lands
    one line too early. *)
Lemma insertion_without_context_misplaced :
  edit_lines [mkHunk 2 [Addition "c"]] (splitlines Sample.terminated)
  = Some ["a"; "b"; "c"]
  /\ apply_unified_diff_to_text Sample.terminated
       (diff_text "f.py" [mkHunk 2 [Addition "c"]]) "f.py"
     = Ok ("a" ++ nl ++ "c" ++ nl ++ "b" ++ nl).
Proof. split; reflexivity. Qed.

End DiffFacts.

(** ** Metadata block: splitting, validation, depth *)

Module CodecFacts.
Import PyStr Agtag Index.

Lemma drop_nil : forall n, drop n EmptyString = EmptyString.
Proof. destruct n; reflexivity. Qed.

Lemma drop_drop : forall i j s, drop j (drop i s) = drop (i + j) s.
Proof.
  induction i as [|i IH]; intros j s; [reflexivity|].
  destruct s as [|c s]; simpl.
  - apply drop_nil.
  - apply IH.
Qed.

Lemma rfind_bound : forall pat s i, rfind pat s = Some i -> (i <= String.length s)%nat.
Proof.
  intros pat. induction s as [|c s IH]; intros i H; cbn [rfind] in H.
  - destruct (String.prefix pat EmptyString); inversion H; subst; simpl; lia.
  - destruct (rfind pat s) as [k|].
    + inversion H; subst. specialize (IH k eq_refl). simpl. lia.
    + destruct (String.prefix pat (String c s)); inversion H; subst. simpl. lia.
Qed.

Lemma rfind_none : forall pat s j,
  rfind pat s = None -> (j <= String.length s)%nat -> String.prefix pat (drop j s) = false.
Proof.
  intros pat. induction s as [|c s IH]; intros j H Hj; cbn [rfind] in H.
  - rewrite drop_nil. destruct (String.prefix pat EmptyString); [discriminate|reflexivity].
  - destruct (rfind pat s) as [k|] eqn:E; [discriminate|].
    destruct j as [|j].
    + cbn [drop]. destruct (String.prefix pat (String c s)); [discriminate|reflexivity].
    + cbn [drop]. cbn [String.length] in Hj. apply IH; [reflexivity|lia].
Qed.

Lemma rfind_start : forall pat s i,
  rfind pat s = Some i -> String.prefix pat (drop i s) = true.
Proof.
  intros pat. induction s as [|c s IH]; intros i H; cbn [rfind] in H.
  - destruct (String.prefix pat EmptyString) eqn:E; inversion H; subst. exact E.
  - destruct (rfind pat s) as [k|].
    + inversion H; subst. cbn [drop]. now apply IH.
    + destruct (String.prefix pat (String c s)) eqn:E; inversion H; subst. exact E.
Qed.

Lemma rfind_last : forall pat s i j,
  rfind pat s = Some i -> (i < j)%nat -> (j <= String.length s)%nat ->
  String.prefix pat (drop j s) = false.
Proof.
  intros pat. induction s as [|c s IH]; intros i j H Hij Hj; cbn [rfind] in H.
  - simpl in Hj. destruct (String.prefix pat EmptyString); inversion H; subst; lia.
  - destruct j as [|j]; [lia|]. cbn [String.length] in Hj. cbn [drop].
    destruct (rfind pat s) as [k|] eqn:E.
    + inversion H; subst. apply (IH k); [reflexivity|lia|lia].
    + apply rfind_none; [exact E|lia].
Qed.

Lemma substring_drop : forall i s,
  (i <= String.length s)%nat -> String.substring 0 i s ++ drop i s = s.
Proof.
  induction i as [|i IH]; intros s H.
  - destruct s; reflexivity.
  - destruct s as [|c s]; simpl in *; [lia|]. f_equal. apply IH. lia.
Qed.

Lemma drop_beyond : forall s j, (String.length s <= j)%nat -> drop j s = EmptyString.
Proof.
  induction s as [|c s IH]; intros j H.
  - apply drop_nil.
  - destruct j as [|j]; simpl in *; [lia|]. apply IH. lia.
Qed.

Lemma length_drop : forall i s, String.length (drop i s) = (String.length s - i)%nat.
Proof.
  induction i as [|i IH]; intros s.
  - simpl. lia.
  - destruct s as [|c s]; simpl; [reflexivity|]. apply IH.
Qed.

(** X1. [split_agtag] loses nothing.  When it finds a block, the content is
    the code followed by the block, the block begins with the last start
    marker of the content and holds the end marker; otherwise the content
    comes back whole. *)
Theorem split_agtag_recomposes : forall content,
  match split_agtag content with
  | (code, Some block) =>
      content = code ++ block
      /\ startswith block AGTAG_START = true
      /\ contains AGTAG_END block = true
      /\ forall j, (0 < j)%nat -> startswith (drop j block) AGTAG_START = false
  | (code, None) => code = content
  end.
Proof.
  intros content. unfold split_agtag.
  destruct (rfind AGTAG_START content) as [i|] eqn:Hi; [|reflexivity].
  destruct (contains AGTAG_END (drop i content)) eqn:Hend; [|reflexivity].
  pose proof (rfind_bound _ _ _ Hi) as Hb.
  split; [symmetry; now apply substring_drop|].
  split; [now apply rfind_start|]. split; [exact Hend|].
  intros j Hj. unfold startswith. rewrite drop_drop.
  destruct (Nat.le_gt_cases (i + j) (String.length content)) as [Hle|Hgt].
  - apply (rfind_last _ _ i); [exact Hi|lia|exact Hle].
  - rewrite drop_beyond by lia. reflexivity.
Qed.

Lemma get_required : forall key obj,
  required key obj = true -> exists v, get key obj = Some v.
Proof.
  intros key obj H. unfold required in H. destruct (get key obj) as [v|]; [|discriminate].
  now exists v.
Qed.

Lemma lines_schema_pair : forall v,
  lines_schema v = true ->
  exists a b, v = JArr [a; b] /\ is_integer_or_null a = true /\ is_integer_or_null b = true.
Proof.
  intros v H. destruct v as [| | | | items |]; try discriminate. simpl in H.
  apply andb_prop in H. destruct H as [Hall Hlen]. apply Nat.eqb_eq in Hlen.
  destruct items as [|a [|b [|c items]]]; try discriminate.
  simpl in Hall. apply andb_prop in Hall. destruct Hall as [Ha Hb].
  apply andb_prop in Hb. destruct Hb as [Hb _]. now exists a, b.
Qed.

Lemma symbol_schema_lines : forall s,
  symbol_schema s = true -> property "lines" lines_schema s = true.
Proof.
  intros s H. unfold symbol_schema in H.
  repeat (apply andb_prop in H; destruct H as [H ?]). assumption.
Qed.

Lemma symbol_schema_shape : forall s,
  symbol_schema s = true -> lines_shape_bad s = false.
Proof.
  intros s H. apply symbol_schema_lines in H. unfold property in H.
  unfold lines_shape_bad. destruct (get "lines" s) as [v|]; [|reflexivity].
  apply lines_schema_pair in H. destruct H as (a & b & -> & _). reflexivity.
Qed.

Lemma schema_parts : forall agtag,
  AGTAG_SCHEMA agtag = true ->
  get "version" agtag = Some (JStr "v1")
  /\ exists items, get "symbols" agtag = Some (JArr items)
                   /\ forallb symbol_schema items = true.
Proof.
  intros agtag H. unfold AGTAG_SCHEMA in H.
  apply andb_prop in H. destruct H as [H _].
  apply andb_prop in H. destruct H as [H _].
  apply andb_prop in H. destruct H as [H Hsymbols].
  apply andb_prop in H. destruct H as [H Hversion].
  apply andb_prop in H. destruct H as [H Hl].
  apply andb_prop in H. destruct H as [_ Hv].
  apply get_required in Hv. destruct Hv as [v Hv].
  apply get_required in Hl. destruct Hl as [l Hl].
  unfold property in Hversion, Hsymbols. rewrite Hv in Hversion. rewrite Hl in Hsymbols.
  split.
  - destruct v; try discriminate. simpl in Hversion. apply String.eqb_eq in Hversion.
    now subst.
  - destruct l as [| | | | items |]; try discriminate. now exists items.
Qed.

(** X2. [validate_agtag_data] accepts exactly what [AGTAG_SCHEMA] accepts: on
    a document the schema admits, the version is ["v1"] and every [lines]
    array has two entries, so the two checks that follow the schema
    validation never raise. *)
Theorem validation_is_the_schema : forall agtag repo_path,
  validate_agtag_data agtag repo_path
  = if AGTAG_SCHEMA agtag then Ok tt else Err SchemaViolation.
Proof.
  intros agtag repo_path. unfold validate_agtag_data.
  destruct (AGTAG_SCHEMA agtag) eqn:Hs; [|reflexivity]. simpl.
  destruct (schema_parts _ Hs) as (Hv & items & Hitems & Hall).
  rewrite Hv, String.eqb_refl. simpl.
  unfold symbols_of. rewrite Hitems.
  assert (Hbad : existsb lines_shape_bad items = false).
  { clear Hitems. induction items as [|s items IH]; [reflexivity|].
    simpl in *. apply andb_prop in Hall. destruct Hall as [H1 H2].
    now rewrite (symbol_schema_shape _ H1), IH. }
  now rewrite Hbad.
Qed.

Lemma levels_below_arr : forall items, levels_below (JArr items) = items_below items.
Proof. reflexivity. Qed.

Lemma levels_below_obj : forall fields, levels_below (JObj fields) = fields_below fields.
Proof. reflexivity. Qed.

Lemma items_below_cons : forall v items,
  items_below (v :: items) = Z.max (1 + levels_below v) (items_below items).
Proof. reflexivity. Qed.

Lemma fields_below_cons : forall k v fields,
  fields_below ((k, v) :: fields) = Z.max (1 + levels_below v) (fields_below fields).
Proof. reflexivity. Qed.

Lemma items_below_nonneg : forall items, 0 <= items_below items.
Proof.
  induction items as [|v items IH]; [reflexivity|]. rewrite items_below_cons. lia.
Qed.

Lemma fields_below_nonneg : forall fields, 0 <= fields_below fields.
Proof.
  induction fields as [|[k v] fields IH]; [reflexivity|]. rewrite fields_below_cons. lia.
Qed.

(** X3. [check_json_depth] returns exactly when no value of the document,
    container or not, lies more than [max_depth] levels below the root: an
    empty container counts like a primitive. *)
Theorem check_json_depth_counts_levels : forall obj max_depth current_depth,
  check_json_depth obj max_depth current_depth
  = (current_depth + levels_below obj <=? max_depth).
Proof.
  intros obj m. induction obj as [| b | n | s | items IH | fields IH]
    using AgtagFacts.json_induction; intros c.
  1-4: rewrite AgtagFacts.primitive_check by discriminate;
       cbn [levels_below]; rewrite Z.add_0_r;
       destruct (Z.gtb_spec c m), (Z.leb_spec c m); try reflexivity; lia.
  - rewrite AgtagFacts.check_json_depth_arr, levels_below_arr.
    pose proof (items_below_nonneg items) as Hn.
    destruct (Z.gtb_spec c m).
    + destruct (Z.leb_spec (c + items_below items) m); [lia|reflexivity].
    + induction IH as [|v items Hv Hitems IHitems].
      * cbn. destruct (Z.leb_spec (c + 0) m); [reflexivity|lia].
      * cbn [forallb]. rewrite Hv, items_below_cons.
        pose proof (items_below_nonneg items) as Hn'.
        rewrite IHitems by exact Hn'.
        destruct (Z.leb_spec (c + 1 + levels_below v) m),
                 (Z.leb_spec (c + items_below items) m),
                 (Z.leb_spec (c + Z.max (1 + levels_below v) (items_below items)) m);
          try reflexivity; lia.
  - rewrite AgtagFacts.check_json_depth_obj, levels_below_obj.
    pose proof (fields_below_nonneg fields) as Hn.
    destruct (Z.gtb_spec c m).
    + destruct (Z.leb_spec (c + fields_below fields) m); [lia|reflexivity].
    + induction IH as [|[k v] fields Hv Hfields IHfields].
      * cbn. destruct (Z.leb_spec (c + 0) m); [reflexivity|lia].
      * cbn [forallb]. cbn [snd] in Hv. rewrite Hv, fields_below_cons.
        pose proof (fields_below_nonneg fields) as Hn'.
        rewrite IHfields by exact Hn'.
        destruct (Z.leb_spec (c + 1 + levels_below v) m),
                 (Z.leb_spec (c + fields_below fields) m),
                 (Z.leb_spec (c + Z.max (1 + levels_below v) (fields_below fields)) m);
          try reflexivity; lia.
Qed.

Lemma symbol_schema_name_kind : forall s,
  symbol_schema s = true ->
  exists name kind, get "name" s = Some (JStr name) /\ get "kind" s = Some (JStr kind).
Proof.
  intros s H. unfold symbol_schema in H.
  do 8 (apply andb_prop in H; destruct H as [H _]).
  apply andb_prop in H. destruct H as [H Hkind].
  apply andb_prop in H. destruct H as [H Hname].
  apply andb_prop in H. destruct H as [H _].
  apply andb_prop in H. destruct H as [H Hrk].
  apply andb_prop in H. destruct H as [_ Hrn].
  apply get_required in Hrn. destruct Hrn as [n Hn].
  apply get_required in Hrk. destruct Hrk as [k Hk].
  unfold property in Hname, Hkind. rewrite Hn in Hname. rewrite Hk in Hkind.
  destruct n; try discriminate. destruct k; try discriminate. eauto.
Qed.

Lemma validate_ok_schema : forall agtag repo_path,
  validate_agtag_data agtag repo_path = Ok tt -> AGTAG_SCHEMA agtag = true.
Proof.
  intros agtag repo_path H. unfold validate_agtag_data in H.
  destruct (AGTAG_SCHEMA agtag); [reflexivity|discriminate].
Qed.

Lemma levels_below_nonneg : forall v, 0 <= levels_below v.
Proof.
  destruct v; try (cbn [levels_below]; lia).
  - rewrite levels_below_arr. apply items_below_nonneg.
  - rewrite levels_below_obj. apply fields_below_nonneg.
Qed.

Lemma check_levels : forall v m,
  check_json_depth v m 0 = true -> levels_below v <= m.
Proof.
  intros v m. revert v. 
  assert (H : forall v c, check_json_depth v m c = true -> c + levels_below v <= m).
  { induction v as [| b | n | s | items IH | fields IH]
      using AgtagFacts.json_induction; intros c Hc.
    1-4: rewrite AgtagFacts.primitive_check in Hc by discriminate;
         cbn [levels_below]; destruct (Z.gtb_spec c m); [discriminate|lia].
    - rewrite AgtagFacts.check_json_depth_arr in Hc. rewrite levels_below_arr.
      destruct (Z.gtb_spec c m); [discriminate|].
      induction IH as [|v items Hv Hitems IHitems]; [cbn; lia|].
      cbn [forallb] in Hc. apply andb_prop in Hc. destruct Hc as [H1 H2].
      rewrite items_below_cons. specialize (Hv _ H1). specialize (IHitems H2). lia.
    - rewrite AgtagFacts.check_json_depth_obj in Hc. rewrite levels_below_obj.
      destruct (Z.gtb_spec c m); [discriminate|].
      induction IH as [|[k v] fields Hv Hfields IHfields]; [cbn; lia|].
      cbn [forallb] in Hc. apply andb_prop in Hc. destruct Hc as [H1 H2].
      cbn [snd] in Hv. rewrite fields_below_cons.
      specialize (Hv _ H1). specialize (IHfields H2). lia. }
  intros v Hv. specialize (H v 0 Hv). lia.
Qed.

Section Parsed.

Variable json_loads : string -> option json.

(** X4. What [parse_agtag_block] returns is what [json.loads] made of the
    text between the first opening and the last closing brace, that text is
    no longer than [MAX_AGTAG_SIZE], no value lies deeper than
    [MAX_JSON_DEPTH] levels, the version is ["v1"], and [symbols] is a list
    whose members all carry a string [name] and a string [kind]. *)
Theorem parsed_block_is_valid : forall block repo_path data,
  parse_agtag_block json_loads block repo_path = Ok data ->
  (exists jstart jend,
     find "{" block = Some jstart /\ rfind "}" block = Some jend
     /\ json_loads (substr jstart (jend + 1) block) = Some data
     /\ Z.of_nat (String.length (substr jstart (jend + 1) block)) <= MAX_AGTAG_SIZE)
  /\ levels_below data <= MAX_JSON_DEPTH
  /\ get "version" data = Some (JStr "v1")
  /\ exists items,
       get "symbols" data = Some (JArr items)
       /\ Forall (fun s => exists name kind,
                    get "name" s = Some (JStr name) /\ get "kind" s = Some (JStr kind))
                 items.
Proof.
  intros block repo_path data H. unfold parse_agtag_block in H.
  destruct (find "{" block) as [jstart|] eqn:Hs; [|discriminate].
  destruct (rfind "}" block) as [jend|] eqn:He; [|discriminate].
  destruct (Z.gtb_spec (Z.of_nat (String.length (substr jstart (jend + 1) block)))
                       MAX_AGTAG_SIZE) as [|Hsize]; [discriminate|].
  destruct (json_loads (substr jstart (jend + 1) block)) as [v|] eqn:Hload; [|discriminate].
  destruct (check_json_depth v MAX_JSON_DEPTH 0) eqn:Hdepth; [|discriminate].
  cbn [negb] in H.
  destruct (validate_agtag_data v repo_path) as [[]|e] eqn:Hvalid; [|discriminate].
  inversion H; subst; clear H.
  apply validate_ok_schema in Hvalid.
  destruct (schema_parts _ Hvalid) as (Hv & items & Hitems & Hall).
  split; [exists jstart, jend; auto|].
  split; [now apply check_levels|]. split; [exact Hv|].
  exists items. split; [exact Hitems|].
  rewrite forallb_forall in Hall. apply Forall_forall.
  intros s Hin. apply symbol_schema_name_kind. now apply Hall.
Qed.

End Parsed.

Lemma parsed_block_is_valid_witness :
  (exists jstart jend,
     find "{" Sample.deep_block = Some jstart /\ rfind "}" Sample.deep_block = Some jend
     /\ Sample.loads_only Sample.deep_text Sample.deep_agtag
          (substr jstart (jend + 1) Sample.deep_block) = Some Sample.deep_agtag
     /\ Z.of_nat (String.length (substr jstart (jend + 1) Sample.deep_block))
        <= MAX_AGTAG_SIZE)
  /\ levels_below Sample.deep_agtag <= MAX_JSON_DEPTH
  /\ get "version" Sample.deep_agtag = Some (JStr "v1")
  /\ exists items,
       get "symbols" Sample.deep_agtag = Some (JArr items)
       /\ Forall (fun s => exists name kind,
                    get "name" s = Some (JStr name) /\ get "kind" s = Some (JStr kind))
                 items.
Proof.
  apply (parsed_block_is_valid (Sample.loads_only Sample.deep_text Sample.deep_agtag)
           Sample.deep_block "src/example.py" Sample.deep_agtag).
  vm_compute. reflexivity.
Defined.

Section Validated.

Variable sha256_hex : string -> string.
Variable json_dumps : json -> string.
Variable ast_parse : string -> Store.ast_outcome.




End Validated.


End CodecFacts.

(** ** The tables across [upsert_file], [clear_symbols] and [upsert_symbols] *)

Module RebuildFacts.
Import PyStr Agtag Store Index Integrity.

Lemma find_put_other : forall row rows q,
  q <> file_path row ->
  List.find (fun r => String.eqb (file_path r) q) (put_file_row row rows)
  = List.find (fun r => String.eqb (file_path r) q) rows.
Proof.
  intros row rows q Hq. induction rows as [|r rows IH]; simpl.
  - destruct (String.eqb_spec (file_path row) q); [congruence|reflexivity].
  - destruct (String.eqb_spec (file_path r) (file_path row)) as [E|E]; simpl.
    + rewrite E. destruct (String.eqb_spec (file_path row) q); [congruence|reflexivity].
    + destruct (String.eqb (file_path r) q); [reflexivity|apply IH].
Qed.

Lemma in_put_paths : forall row rows x,
  In x (map file_path (put_file_row row rows)) ->
  x = file_path row \/ In x (map file_path rows).
Proof.
  intros row rows x. induction rows as [|r rows IH]; simpl.
  - intros [H|[]]. now left.
  - destruct (String.eqb_spec (file_path r) (file_path row)) as [E|E]; simpl.
    + intros [H|H]; [left; now symmetry|right; now right].
    + intros [H|H]; [right; now left|]. destruct (IH H); [now left|right; now right].
Qed.

Lemma put_paths_unique : forall row rows,
  NoDup (map file_path rows) -> NoDup (map file_path (put_file_row row rows)).
Proof.
  intros row rows. induction rows as [|r rows IH]; intros Hnd; simpl.
  - constructor; [intros []|constructor].
  - inversion Hnd as [|? ? Hnotin Hnd']; subst.
    destruct (String.eqb_spec (file_path r) (file_path row)) as [E|E]; simpl.
    + rewrite <- E. now constructor.
    + constructor; [|now apply IH].
      intros Hin. apply in_put_paths in Hin. destruct Hin; [congruence|contradiction].
Qed.

(** X6. [upsert_file] writes one row: afterwards the path it was given maps
    to the new hash and state, every other path maps to what it did before,
    [repo_path] is still a key of [files], and the other tables are as they
    were. *)
Theorem upsert_file_sets_one_row : forall d repo_path file_hash state,
  let d' := upsert_file d repo_path file_hash state in
  (forall q, file_row_of d' q
             = if String.eqb q repo_path then Some (mkFile repo_path file_hash state)
               else file_row_of d q)
  /\ (paths_unique d -> paths_unique d')
  /\ symbols d' = symbols d /\ symbols_fts d' = symbols_fts d /\ edges d' = edges d.
Proof.
  intros d repo_path file_hash state d'. split; [|split; [|repeat split]].
  - intros q. destruct (String.eqb_spec q repo_path) as [->|Hne].
    + apply StoreFacts.file_row_upsert_file.
    + unfold d', file_row_of, upsert_file. simpl.
      now rewrite (find_put_other (mkFile repo_path file_hash state)).
  - unfold paths_unique, d', upsert_file. simpl. apply put_paths_unique.
Qed.

Lemma filter_none : forall (A : Type) (f : A -> bool) l,
  filter f (filter (fun x => negb (f x)) l) = [].
Proof.
  intros A f l. induction l as [|x l IH]; [reflexivity|]. simpl.
  destruct (f x) eqn:E; simpl; [exact IH|]. now rewrite E.
Qed.

Lemma filter_within : forall (A : Type) (f g : A -> bool) l,
  (forall x, g x = true -> f x = true) -> filter g (filter f l) = filter g l.
Proof.
  intros A f g l H. induction l as [|x l IH]; [reflexivity|]. simpl.
  destruct (f x) eqn:E; simpl.
  - now rewrite IH.
  - destruct (g x) eqn:Eg; [|exact IH]. rewrite (H _ Eg) in E. discriminate.
Qed.

Lemma other_path : forall a q p : string,
  q <> p -> String.eqb a q = true -> negb (String.eqb a p) = true.
Proof.
  intros a q p Hne H. apply String.eqb_eq in H. subst a.
  destruct (String.eqb_spec q p); [contradiction|reflexivity].
Qed.

Lemma NoDup_ids_filter : forall (f : symbol_row -> bool) l,
  NoDup (map sym_id l) -> NoDup (map sym_id (filter f l)).
Proof.
  intros f l. induction l as [|s l IH]; intros Hnd; simpl; [constructor|].
  simpl in Hnd. inversion Hnd as [|? ? Hnotin Hnd']; subst.
  destruct (f s); simpl; [|now apply IH].
  constructor; [|now apply IH].
  intros Hin. apply Hnotin. rewrite in_map_iff in *.
  destruct Hin as [x [Hx Hin]]. exists x. split; [exact Hx|].
  now apply filter_In in Hin.
Qed.

Lemma clear_edges : forall d repo_path e,
  In e (edges (clear_symbols d repo_path))
  <-> In e (edges d)
      /\ ~ In (src_id e) (map sym_id (symbols_in d repo_path))
      /\ ~ In (dst_id e) (map sym_id (symbols_in d repo_path)).
Proof.
  intros d repo_path e. unfold clear_symbols, symbols_in. simpl.
  rewrite !filter_In, !negb_true_iff, !FocusFacts.mem_Z_false. tauto.
Qed.

Lemma clear_keeps_closed : forall d repo_path,
  edges_closed d -> edges_closed (clear_symbols d repo_path).
Proof.
  intros d repo_path Hc e He. apply clear_edges in He. destruct He as (He & Hs & Hd).
  destruct (Hc e He) as [[a [Ha Hai]] [b [Hb Hbi]]].
  assert (Hkeep : forall s i, In s (symbols d) -> sym_id s = i ->
            ~ In i (map sym_id (symbols_in d repo_path)) ->
            has_symbol (clear_symbols d repo_path) i).
  { intros s i Hin Hid Hnot. exists s. split; [|exact Hid].
    unfold clear_symbols. simpl. apply filter_In. split; [exact Hin|].
    destruct (String.eqb_spec (sym_path s) repo_path) as [Hp|Hp]; [|reflexivity].
    exfalso. apply Hnot. rewrite <- Hid. apply in_map. unfold symbols_in.
    apply filter_In. split; [exact Hin|]. now apply String.eqb_eq. }
  split; eauto.
Qed.

(** X7. [clear_symbols] removes the rows of one file and nothing else: no
    row of [symbols] or [symbols_fts] of that file is left, the rows of
    every other file stay, an edge stays exactly when neither of its ends is
    a symbol of the file, and [files] is untouched.  Edges that joined rows
    of [symbols] before still do, and ids stay unique. *)
Theorem clear_symbols_removes_one_file : forall d repo_path,
  let d' := clear_symbols d repo_path in
  symbols_in d' repo_path = [] /\ fts_in d' repo_path = []
  /\ (forall q, q <> repo_path ->
        symbols_in d' q = symbols_in d q /\ fts_in d' q = fts_in d q)
  /\ (forall e, In e (edges d')
                <-> In e (edges d)
                    /\ ~ In (src_id e) (map sym_id (symbols_in d repo_path))
                    /\ ~ In (dst_id e) (map sym_id (symbols_in d repo_path)))
  /\ files d' = files d
  /\ (edges_closed d -> edges_closed d')
  /\ (ids_unique d -> ids_unique d').
Proof.
  intros d repo_path d'. unfold d'.
  split; [apply (filter_none _ (fun s => String.eqb (sym_path s) repo_path))|].
  split; [apply (filter_none _ (fun r => String.eqb (fts_path r) repo_path))|].
  split.
  { intros q Hq. unfold symbols_in, fts_in, clear_symbols. simpl.
    split; apply filter_within; intros x Hx; now apply (other_path _ q). }
  split; [apply clear_edges|]. split; [reflexivity|].
  split; [apply clear_keeps_closed|].
  unfold ids_unique, clear_symbols. simpl. apply NoDup_ids_filter.
Qed.

(** *** The rebuild *)

Lemma next_symbol_id_above : forall table s,
  In s table -> sym_id s < next_symbol_id table.
Proof.
  intros table s H. unfold next_symbol_id.
  induction table as [|r table IH]; [contradiction|]. cbn [fold_right].
  destruct H as [->|H]; [lia|]. specialize (IH H). lia.
Qed.

Lemma insert_symbols_spec : forall rows table,
  exists added,
    insert_symbols table rows = (table ++ added)%list
    /\ Forall2 (fun stored built => stored = with_id (sym_id stored) built) added rows
    /\ (NoDup (map sym_id table) -> NoDup (map sym_id (table ++ added))).
Proof.
  induction rows as [|r rows IH]; intros table.
  - exists []. split; [now rewrite app_nil_r|]. split; [constructor|].
    now rewrite app_nil_r.
  - cbn [insert_symbols].
    set (r' := mkSymbol (next_symbol_id table) (sym_path r) (sym_name r) (sym_kind r)
                 (sym_signature r) (sym_start_line r) (sym_end_line r)
                 (sym_content_hash r) (sym_l0_overview r) (sym_l1_contract r)
                 (sym_l2_pseudocode r) (sym_l3_ast_json r)).
    destruct (IH (table ++ [r'])%list) as (added & Heq & Hrel & Hnd).
    exists (r' :: added). split; [|split].
    + rewrite Heq, <- app_assoc. reflexivity.
    + constructor; [reflexivity|exact Hrel].
    + intros Ht. replace (table ++ r' :: added)%list with ((table ++ [r']) ++ added)%list
        by (rewrite <- app_assoc; reflexivity).
      apply Hnd. rewrite map_app. simpl.
      apply NoDup_app; [exact Ht|repeat constructor; intros []|].
      intros i Hin [Hi|[]]. subst i. rewrite in_map_iff in Hin.
      destruct Hin as [s [Hs Hin]]. pose proof (next_symbol_id_above _ _ Hin).
      simpl in Hs. lia.
Qed.

Lemma stored_fields : forall (A : Type) (f : symbol_row -> A) added rows,
  Forall2 (fun stored built => stored = with_id (sym_id stored) built) added rows ->
  (forall i r, f (with_id i r) = f r) -> map f added = map f rows.
Proof.
  intros A f added rows Hrel Hf. induction Hrel as [|a b added rows Hab Hrel IH].
  - reflexivity.
  - simpl. rewrite Hab at 1. rewrite Hf. f_equal. exact IH.
Qed.

Section Rebuild.

Variable sha256_hex : string -> string.
Variable json_dumps : json -> string.
Variable ast_parse : string -> ast_outcome.

Local Abbreviation symbol_row_of := (symbol_row_of sha256_hex json_dumps).
Local Abbreviation symbol_rows_of := (symbol_rows_of sha256_hex json_dumps).
Local Abbreviation upsert_symbols := (upsert_symbols sha256_hex json_dumps ast_parse).

Lemma symbol_row_of_fields : forall repo_path full_content s row,
  symbol_row_of repo_path full_content s = Ok row ->
  sym_path row = repo_path
  /\ sym_name row = text_or_empty (get "name" s)
  /\ sym_kind row = text_or_empty (get "kind" s).
Proof.
  intros repo_path full_content s row H. unfold Index.symbol_row_of in H.
  destruct (raw_lines s) as [[raw0 raw1]|]; [|discriminate].
  destruct (line_number raw0) as [[sl|]|]; destruct (line_number raw1) as [[el|]|];
    try discriminate; try (inversion H; subst; simpl; now auto).
  destruct ((sl <? 1) || (el <? sl))%bool; [discriminate|].
  destruct (el >? _); [discriminate|]. inversion H; subst; simpl; auto.
Qed.

Lemma symbol_rows_of_fields : forall repo_path full_content items rows,
  symbol_rows_of repo_path full_content items = Ok rows ->
  Forall (fun row => sym_path row = repo_path) rows
  /\ map sym_name rows = map (fun s => text_or_empty (get "name" s)) items
  /\ map sym_kind rows = map (fun s => text_or_empty (get "kind" s)) items.
Proof.
  intros repo_path full_content. induction items as [|s items IH]; intros rows H.
  - inversion H; subst. repeat split; constructor.
  - cbn [Index.symbol_rows_of] in H.
    destruct (symbol_row_of repo_path full_content s) as [row|] eqn:Erow; [|discriminate].
    destruct (symbol_rows_of repo_path full_content items) as [rows'|]; [|discriminate].
    inversion H; subst; clear H.
    apply symbol_row_of_fields in Erow. destruct Erow as (Hp & Hn & Hk).
    destruct (IH rows' eq_refl) as (Hall & Hnames & Hkinds).
    split; [now constructor|]. simpl. now rewrite Hn, Hk, Hnames, Hkinds.
Qed.

(** What a rebuild that succeeds leaves in the connection's view. *)
Lemma upsert_ok : forall w repo_path agtag full_content w',
  upsert_symbols w repo_path agtag full_content = (Ok tt, w') ->
  exists rows,
    symbol_rows_of repo_path full_content (symbols_of agtag) = Ok rows
    /\ let d := clear_symbols (live w) repo_path in
       let table := insert_symbols (symbols d) rows in
       let inserted := filter (fun s => String.eqb (sym_path s) repo_path) table in
       symbols (live w') = table
       /\ symbols_fts (live w') = (symbols_fts d ++ map fts_of inserted)%list
       /\ (exists module_ast,
             edges (live w')
             = insert_edges (edges d) (build_symbol_edges module_ast inserted))
       /\ files (live w') = files (live w)
       /\ ops_log (live w') = ops_log (live w)
       /\ durable w' = live w'
       /\ disk w' = disk w.
Proof.
  intros w repo_path agtag full_content w' H. unfold Index.upsert_symbols in H.
  destruct (parsed_ast_of ast_parse repo_path full_content) as [parsed|]; [|discriminate].
  destruct (symbol_rows_of repo_path full_content (symbols_of agtag)) as [rows|] eqn:Erows;
    [|discriminate].
  destruct (forallb bindable rows); [|discriminate].
  exists rows. split; [reflexivity|]. inversion H; subst; clear H. cbv zeta.
  destruct rows as [|r rows].
  - cbn [insert_symbols]. simpl.
    rewrite (filter_none _ (fun s => String.eqb (sym_path s) repo_path)). simpl.
    rewrite app_nil_r. repeat split; auto. exists None. reflexivity.
  - simpl. repeat split; auto. eexists. reflexivity.
Qed.

Lemma inserted_rows : forall d repo_path rows,
  Forall (fun row => sym_path row = repo_path) rows ->
  exists added,
    insert_symbols (symbols (clear_symbols d repo_path)) rows
    = (symbols (clear_symbols d repo_path) ++ added)%list
    /\ filter (fun s => String.eqb (sym_path s) repo_path)
              (insert_symbols (symbols (clear_symbols d repo_path)) rows) = added
    /\ Forall2 (fun stored built => stored = with_id (sym_id stored) built) added rows
    /\ Forall (fun s => sym_path s = repo_path) added.
Proof.
  intros d repo_path rows Hall.
  destruct (insert_symbols_spec rows (symbols (clear_symbols d repo_path)))
    as (added & Heq & Hrel & _).
  assert (Hpaths : Forall (fun s => sym_path s = repo_path) added).
  { clear Heq. revert Hall. induction Hrel as [|a b added rows Hab Hrel IH]; intros Hall.
    - constructor.
    - inversion Hall as [|? ? Hb Hall']; subst. constructor; [|now apply IH].
      rewrite Hab. reflexivity. }
  exists added. split; [exact Heq|]. split; [|split; [exact Hrel|exact Hpaths]].
  rewrite Heq, filter_app.
  unfold clear_symbols. simpl.
  rewrite (filter_none _ (fun s => String.eqb (sym_path s) repo_path)). simpl.
  clear Heq Hrel. induction Hpaths as [|a added Ha Hpaths IH]; [reflexivity|].
  simpl. rewrite Ha, String.eqb_refl. now f_equal.
Qed.

(** X8. A rebuild replaces the rows of the file, it does not add to them:
    afterwards the file has one row of [symbols] per descriptor of the
    document, in the order of the document, each the row built from its
    descriptor with a fresh id, so with its name and kind; the rows of every
    other file and the [files] table are untouched, and the result is
    committed. *)
Theorem rebuild_replaces_the_rows_of_the_file :
  forall w repo_path agtag full_content w',
  upsert_symbols w repo_path agtag full_content = (Ok tt, w') ->
  (exists rows,
     symbol_rows_of repo_path full_content (symbols_of agtag) = Ok rows
     /\ Forall2 (fun stored built => stored = with_id (sym_id stored) built)
                (symbols_in (live w') repo_path) rows)
  /\ map sym_name (symbols_in (live w') repo_path)
     = map (fun s => text_or_empty (get "name" s)) (symbols_of agtag)
  /\ map sym_kind (symbols_in (live w') repo_path)
     = map (fun s => text_or_empty (get "kind" s)) (symbols_of agtag)
  /\ (forall q, q <> repo_path -> symbols_in (live w') q = symbols_in (live w) q)
  /\ files (live w') = files (live w)
  /\ durable w' = live w'.
Proof.
  intros w repo_path agtag full_content w' H.
  apply upsert_ok in H. destruct H as (rows & Hrows & Hsym & _ & _ & Hfiles & _ & Hdur & _).
  cbv zeta in Hsym.
  destruct (symbol_rows_of_fields _ _ _ _ Hrows) as (Hall & Hnames & Hkinds).
  destruct (inserted_rows (live w) repo_path rows Hall)
    as (added & Heq & Hfilter & Hrel & Hpaths).
  assert (Hin : symbols_in (live w') repo_path = added).
  { unfold symbols_in. rewrite Hsym. exact Hfilter. }
  pose proof (fun A f => stored_fields A f added rows Hrel) as Hmap.
  split; [exists rows; split; [exact Hrows|now rewrite Hin]|].
  split; [rewrite Hin, <- Hnames; now apply Hmap|].
  split; [rewrite Hin, <- Hkinds; now apply Hmap|].
  split; [|split; [exact Hfiles|exact Hdur]].
  intros q Hq. unfold symbols_in at 1. rewrite Hsym, Heq, filter_app.
  assert (Hnone : filter (fun s => String.eqb (sym_path s) q) added = []).
  { clear Heq Hfilter Hin Hrel Hmap Hall. induction Hpaths as [|a added Ha Hpaths IH]; [reflexivity|].
    simpl. rewrite Ha. destruct (String.eqb_spec repo_path q); [congruence|exact IH]. }
  rewrite Hnone, app_nil_r. unfold symbols_in, clear_symbols. simpl.
  apply filter_within. intros x Hx. now apply (other_path _ q).
Qed.

Lemma upsert_fts : forall w repo_path agtag full_content w',
  upsert_symbols w repo_path agtag full_content = (Ok tt, w') ->
  symbols_fts (live w')
  = (symbols_fts (clear_symbols (live w) repo_path)
     ++ map fts_of (symbols_in (live w') repo_path))%list.
Proof.
  intros w repo_path agtag full_content w' H.
  apply upsert_ok in H. destruct H as (rows & _ & Hsym & Hfts & _). cbv zeta in Hsym, Hfts.
  unfold symbols_in. now rewrite Hsym.
Qed.

(** X9. After a rebuild the full-text index of the file mirrors its symbols:
    the rows of [symbols_fts] of the file are the rows of [symbols] of the
    file, in the same order, each with its id as [rowid] and with its name,
    [l0_overview] and [l1_contract]; the index rows of other files are
    untouched. *)
Theorem rebuild_keeps_fts_in_step : forall w repo_path agtag full_content w',
  upsert_symbols w repo_path agtag full_content = (Ok tt, w') ->
  fts_in (live w') repo_path = map fts_of (symbols_in (live w') repo_path)
  /\ forall q, q <> repo_path -> fts_in (live w') q = fts_in (live w) q.
Proof.
  intros w repo_path agtag full_content w' H.
  pose proof (upsert_fts _ _ _ _ _ H) as Hfts.
  assert (Hpath : forall l : list symbol_row,
            map fts_path (map fts_of l) = map sym_path l).
  { intros l. rewrite map_map. reflexivity. }
  split.
  - unfold fts_in. rewrite Hfts, filter_app.
    change (filter (fun r => String.eqb (fts_path r) repo_path)
                   (symbols_fts (clear_symbols (live w) repo_path)))
      with (fts_in (clear_symbols (live w) repo_path) repo_path).
    unfold fts_in at 1, clear_symbols at 1. cbn [symbols_fts].
    rewrite (filter_none _ (fun r => String.eqb (fts_path r) repo_path)).
    rewrite app_nil_l. unfold symbols_in.
    induction (symbols (live w')) as [|s l IH]; [reflexivity|].
    cbn [filter]. destruct (String.eqb (sym_path s) repo_path) eqn:E.
    + cbn [map filter]. cbn [fts_of fts_path]. rewrite E. f_equal. exact IH.
    + exact IH.
  - intros q Hq. unfold fts_in. rewrite Hfts, filter_app.
    assert (Hnone : filter (fun r => String.eqb (fts_path r) q)
                           (map fts_of (symbols_in (live w') repo_path)) = []).
    { unfold symbols_in. induction (symbols (live w')) as [|s l IH]; [reflexivity|].
      cbn [filter]. destruct (String.eqb_spec (sym_path s) repo_path) as [E|E]; [|exact IH].
      cbn [map filter]. cbn [fts_of fts_path]. rewrite E.
      destruct (String.eqb_spec repo_path q); [congruence|exact IH]. }
    rewrite Hnone, app_nil_r. unfold clear_symbols. cbn [symbols_fts].
    apply filter_within. intros x Hx. now apply (other_path _ q).
Qed.

End Rebuild.

(** *** Edges *)

Lemma add_edge_in : forall acc x e, In e (add_edge acc x) -> In e acc \/ e = x.
Proof.
  intros acc x e. unfold add_edge. destruct (existsb (edge_eqb x) acc); [now left|].
  rewrite in_app_iff. simpl. intuition.
Qed.

Lemma insert_edges_in : forall new table e,
  In e (insert_edges table new) -> In e table \/ In e new.
Proof.
  unfold insert_edges. induction new as [|x new IH]; intros table e H; simpl in *.
  - now left.
  - apply IH in H. destruct H as [H|H]; [|right; now right].
    apply add_edge_in in H. destruct H as [H|H]; [now left|right; left; now symmetry].
Qed.

Lemma name_to_id_in : forall rows target i,
  name_to_id rows target = Some i -> exists b, In b rows /\ sym_id b = i.
Proof.
  intros rows target i H. unfold name_to_id in H.
  destruct (List.find _ (List.rev rows)) as [b|] eqn:E; [|discriminate].
  apply find_some in E. destruct E as [Hin _]. apply in_rev in Hin.
  inversion H; subst. now exists b.
Qed.

Lemma edges_to_in : forall rows symbol_id label targets acc e,
  In e (edges_to rows symbol_id label targets acc) ->
  In e acc
  \/ (src_id e = symbol_id /\ edge_type e = label /\ dst_id e <> symbol_id
      /\ exists b, In b rows /\ sym_id b = dst_id e).
Proof.
  intros rows symbol_id label. unfold edges_to.
  induction targets as [|t targets IH]; intros acc e H; simpl in H.
  - now left.
  - apply IH in H. destruct H as [H|H]; [|now right].
    destruct (name_to_id rows t) as [dst|] eqn:E; [|now left].
    destruct (negb (dst =? 0) && negb (dst =? symbol_id))%bool eqn:Eok; [|now left].
    apply add_edge_in in H. destruct H as [H|H]; [now left|]. right. subst e. simpl.
    apply andb_prop in Eok. destruct Eok as [_ Hne].
    rewrite negb_true_iff, Z.eqb_neq in Hne.
    repeat split; auto. now apply name_to_id_in in E.
Qed.

Lemma build_symbol_edges_in : forall module_ast rows e,
  In e (build_symbol_edges module_ast rows) ->
  (exists a, In a rows /\ sym_id a = src_id e)
  /\ (exists b, In b rows /\ sym_id b = dst_id e)
  /\ src_id e <> dst_id e
  /\ (edge_type e = "calls" \/ edge_type e = "inherits").
Proof.
  intros module_ast rows e H. unfold build_symbol_edges in H.
  destruct module_ast as [nodes|]; [|contradiction].
  assert (Hfold : forall l acc,
            (forall s, In s l -> In s rows) ->
            In e (fold_left
                    (fun acc symbol =>
                       match find_symbol_node (Some nodes) symbol with
                       | None => acc
                       | Some (FunctionDef _ _ calls) =>
                           edges_to rows (sym_id symbol) "calls" calls acc
                       | Some (ClassDef _ _ bases) =>
                           edges_to rows (sym_id symbol) "inherits" bases acc
                       end) l acc) ->
            In e acc
            \/ ((exists a, In a rows /\ sym_id a = src_id e)
                /\ (exists b, In b rows /\ sym_id b = dst_id e)
                /\ src_id e <> dst_id e
                /\ (edge_type e = "calls" \/ edge_type e = "inherits"))).
  { induction l as [|s l IH]; intros acc Hsub Hin; cbn [fold_left] in Hin; [now left|].
    apply IH in Hin; [|intros x Hx; apply Hsub; now right].
    destruct Hin as [Hin|Hin]; [|now right].
    assert (Hs : In s rows) by (apply Hsub; now left).
    destruct (find_symbol_node (Some nodes) s) as [[name lineno bases|name lineno calls]|];
      [| |now left];
      apply edges_to_in in Hin;
      (destruct Hin as [Hin|(Hsrc & Hty & Hne & b & Hb & Hbi)]; [now left|right]);
      (split; [exists s; split; [exact Hs|now symmetry]|]);
      (split; [now exists b|]); (split; [congruence|]); auto. }
  destruct rows as [|r rows]; [contradiction|].
  apply Hfold in H; [|auto]. destruct H as [[]|H]. exact H.
Qed.

Section Wellformed.

Variable sha256_hex : string -> string.
Variable json_dumps : json -> string.
Variable ast_parse : string -> ast_outcome.

Local Abbreviation upsert_symbols := (upsert_symbols sha256_hex json_dumps ast_parse).

(** X10. A rebuild keeps the tables well formed.  Every edge it leaves is
    either an edge that was there and touches no symbol the file had, or an
    edge it derived: a call or an inheritance between two different symbols
    of the file.  If ids were unique they still are, and if every edge joined
    two rows of [symbols] every edge still does. *)
Theorem rebuild_keeps_the_tables_well_formed :
  forall w repo_path agtag full_content w',
  upsert_symbols w repo_path agtag full_content = (Ok tt, w') ->
  (forall e, In e (edges (live w')) ->
     (In e (edges (live w))
      /\ ~ In (src_id e) (map sym_id (symbols_in (live w) repo_path))
      /\ ~ In (dst_id e) (map sym_id (symbols_in (live w) repo_path)))
     \/ derived_edge (live w') repo_path e)
  /\ (ids_unique (live w) -> ids_unique (live w'))
  /\ (edges_closed (live w) -> edges_closed (live w')).
Proof.
  intros w repo_path agtag full_content w' H.
  apply (upsert_ok sha256_hex json_dumps ast_parse) in H.
  destruct H as (rows & Hrows & Hsym & _ & (module_ast & Hedges) & _). cbv zeta in Hsym, Hedges.
  destruct (insert_symbols_spec rows (symbols (clear_symbols (live w) repo_path)))
    as (added & Heq & _ & Hnd).
  assert (Hcases : forall e, In e (edges (live w')) ->
            In e (edges (clear_symbols (live w) repo_path))
            \/ derived_edge (live w') repo_path e).
  { intros e He. rewrite Hedges in He. apply insert_edges_in in He.
    destruct He as [He|He]; [now left|right].
    apply build_symbol_edges_in in He. unfold derived_edge, symbols_in.
    rewrite Hsym. exact He. }
  split; [|split].
  - intros e He. destruct (Hcases e He) as [Hold|Hnew]; [left|now right].
    now apply clear_edges in Hold.
  - intros Hu. unfold ids_unique. rewrite Hsym, Heq. apply Hnd.
    unfold clear_symbols. simpl. now apply NoDup_ids_filter.
  - intros Hc e He.
    assert (Hgrow : forall i, has_symbol (clear_symbols (live w) repo_path) i ->
                              has_symbol (live w') i).
    { intros i [s [Hs Hi]]. exists s. split; [|exact Hi].
      rewrite Hsym, Heq. apply in_or_app. now left. }
    destruct (Hcases e He) as [Hold|Hnew].
    + destruct (clear_keeps_closed _ repo_path Hc e Hold) as [Ha Hb]. split; auto.
    + destruct Hnew as ((a & Ha & Hai) & (b & Hb & Hbi) & _).
      unfold symbols_in in Ha, Hb. apply filter_In in Ha, Hb.
      split; [exists a|exists b]; tauto.
Qed.

End Wellformed.

Lemma rebuild_replaces_the_rows_of_the_file_witness :
  (exists rows,
     symbol_rows_of Sha256.hexdigest Sample.dumps "src/focus_demo.py" Sample.demo_code
       (symbols_of Sample.demo_agtag) = Ok rows
     /\ Forall2 (fun stored built => stored = with_id (sym_id stored) built)
                (symbols_in (live (snd Sample.demo_rebuild)) "src/focus_demo.py") rows)
  /\ map sym_name (symbols_in (live (snd Sample.demo_rebuild)) "src/focus_demo.py")
     = map (fun s => text_or_empty (get "name" s)) (symbols_of Sample.demo_agtag)
  /\ map sym_kind (symbols_in (live (snd Sample.demo_rebuild)) "src/focus_demo.py")
     = map (fun s => text_or_empty (get "kind" s)) (symbols_of Sample.demo_agtag)
  /\ (forall q, q <> "src/focus_demo.py" ->
        symbols_in (live (snd Sample.demo_rebuild)) q
        = symbols_in (live Sample.blank_world) q)
  /\ files (live (snd Sample.demo_rebuild)) = files (live Sample.blank_world)
  /\ durable (snd Sample.demo_rebuild) = live (snd Sample.demo_rebuild).
Proof.
  apply (rebuild_replaces_the_rows_of_the_file Sha256.hexdigest Sample.dumps
           Sample.parse_demo Sample.blank_world "src/focus_demo.py"
           Sample.demo_agtag Sample.demo_code).
  vm_compute. reflexivity.
Defined.

Lemma rebuild_keeps_fts_in_step_witness :
  fts_in (live (snd Sample.demo_rebuild)) "src/focus_demo.py"
  = map fts_of (symbols_in (live (snd Sample.demo_rebuild)) "src/focus_demo.py")
  /\ forall q, q <> "src/focus_demo.py" ->
       fts_in (live (snd Sample.demo_rebuild)) q = fts_in (live Sample.blank_world) q.
Proof.
  apply (rebuild_keeps_fts_in_step Sha256.hexdigest Sample.dumps
           Sample.parse_demo Sample.blank_world "src/focus_demo.py"
           Sample.demo_agtag Sample.demo_code).
  vm_compute. reflexivity.
Defined.

Lemma rebuild_keeps_the_tables_well_formed_witness :
  (forall e, In e (edges (live (snd Sample.demo_rebuild))) ->
     (In e (edges (live Sample.blank_world))
      /\ ~ In (src_id e)
              (map sym_id (symbols_in (live Sample.blank_world) "src/focus_demo.py"))
      /\ ~ In (dst_id e)
              (map sym_id (symbols_in (live Sample.blank_world) "src/focus_demo.py")))
     \/ derived_edge (live (snd Sample.demo_rebuild)) "src/focus_demo.py" e)
  /\ (ids_unique (live Sample.blank_world) -> ids_unique (live (snd Sample.demo_rebuild)))
  /\ (edges_closed (live Sample.blank_world)
      -> edges_closed (live (snd Sample.demo_rebuild))).
Proof.
  apply (rebuild_keeps_the_tables_well_formed Sha256.hexdigest Sample.dumps
           Sample.parse_demo Sample.blank_world "src/focus_demo.py"
           Sample.demo_agtag Sample.demo_code).
  vm_compute. reflexivity.
Defined.

End RebuildFacts.

(** ** What [ingest] and [patch] leave behind *)

Module CommandFacts.
Import PyStr Agtag Store Index Ops Integrity.


Lemma disk_read_put_other : forall path content fs q,
  q <> path -> disk_read q (disk_put path content fs) = disk_read q fs.
Proof.
  intros path content fs q Hq. induction fs as [|[p c] fs IH]; simpl.
  - destruct (String.eqb_spec path q); [congruence|reflexivity].
  - destruct (String.eqb_spec p path) as [E|E]; simpl.
    + subst p. destruct (String.eqb_spec path q); [congruence|reflexivity].
    + destruct (String.eqb p q); [reflexivity|exact IH].
Qed.

Section Commands.

Variable json_loads : string -> option json.
Variable sha256_hex : string -> string.
Variable json_dumps : json -> string.
Variable ast_parse : string -> ast_outcome.
Variable cwd : string.

Local Abbreviation upsert_symbols := (upsert_symbols sha256_hex json_dumps ast_parse).
Local Abbreviation ingest_file_content :=
  (ingest_file_content json_loads sha256_hex json_dumps ast_parse).
Local Abbreviation patch := (patch json_loads sha256_hex json_dumps ast_parse cwd).
Local Abbreviation sha256_bytes := (sha256_bytes sha256_hex).

(** What a rebuild that fails leaves: nothing committed, [files] and
    the working tree as they were; and, unless an insert overflowed, the
    cleared rows as the only change in the open transaction. *)
Lemma upsert_err : forall w repo_path agtag full_content e w',
  upsert_symbols w repo_path agtag full_content = (Err e, w') ->
  durable w' = durable w /\ commits w' = commits w /\ disk w' = disk w
  /\ files (live w') = files (live w)
  /\ (e <> IntegerOverflow -> w' = with_live w (clear_symbols (live w) repo_path)).
Proof.
  intros w repo_path agtag full_content e w' H. unfold Index.upsert_symbols in H.
  destruct (parsed_ast_of _ _ _) as [parsed|e0];
    [|inversion H; subst; repeat split; reflexivity].
  destruct (symbol_rows_of _ _ _ _ _) as [rows|e0];
    [|inversion H; subst; repeat split; reflexivity].
  destruct (forallb bindable rows); [discriminate|].
  inversion H; subst; clear H. repeat split; try reflexivity.
  intros Hne. now contradiction Hne.
Qed.


Lemma rebuild_other_rows : forall w repo_path agtag full_content w' q,
  upsert_symbols w repo_path agtag full_content = (Ok tt, w') ->
  q <> repo_path ->
  symbols_in (live w') q = symbols_in (live w) q
  /\ fts_in (live w') q = fts_in (live w) q.
Proof.
  intros w repo_path agtag full_content w' q H Hq.
  pose proof (RebuildFacts.upsert_fts _ _ _ _ _ _ _ _ H) as Hfts.
  apply RebuildFacts.upsert_ok in H.
  destruct H as (rows & Hrows & Hsym & _). cbv zeta in Hsym.
  destruct (RebuildFacts.symbol_rows_of_fields _ _ _ _ _ _ Hrows) as (Hall & _).
  destruct (RebuildFacts.inserted_rows (live w) repo_path rows Hall)
    as (added & Heq & Hfilter & _ & Hpaths).
  assert (Hin : symbols_in (live w') repo_path = added).
  { unfold symbols_in. rewrite Hsym. exact Hfilter. }
  split.
  - unfold symbols_in at 1. rewrite Hsym, Heq, filter_app.
    assert (Hnone : filter (fun s => String.eqb (sym_path s) q) added = []).
    { clear Heq Hfilter Hin Hall. induction Hpaths as [|a added Ha Hpaths IH]; [reflexivity|].
      simpl. rewrite Ha. destruct (String.eqb_spec repo_path q); [congruence|exact IH]. }
    rewrite Hnone, app_nil_r. unfold symbols_in, clear_symbols. simpl.
    apply RebuildFacts.filter_within. intros x Hx. now apply (RebuildFacts.other_path _ q).
  - unfold fts_in. rewrite Hfts, filter_app, Hin.
    assert (Hnone : filter (fun r => String.eqb (fts_path r) q) (map fts_of added) = []).
    { clear Heq Hfilter Hin Hall. induction Hpaths as [|a added Ha Hpaths IH]; [reflexivity|].
      cbn [map filter]. cbn [fts_of fts_path]. rewrite Ha.
      destruct (String.eqb_spec repo_path q); [congruence|exact IH]. }
    rewrite Hnone, app_nil_r. unfold clear_symbols. cbn [symbols_fts].
    apply RebuildFacts.filter_within. intros x Hx. now apply (RebuildFacts.other_path _ q).
Qed.

(** X12. A successful ingest touches one file: for every other path the row
    of [files], the rows of [symbols] and of [symbols_fts], and the file in
    the working tree are what they were. *)
Theorem ingest_leaves_other_files_alone :
  forall w safe_path content write_to_disk r w' q,
  ingest_file_content w safe_path content write_to_disk = (Ok r, w') ->
  q <> safe_path ->
  file_row_of (live w') q = file_row_of (live w) q
  /\ symbols_in (live w') q = symbols_in (live w) q
  /\ fts_in (live w') q = fts_in (live w) q
  /\ disk_read q (disk w') = disk_read q (disk w).
Proof.
  intros w safe_path content write_to_disk r w' q H Hq.
  unfold Ops.ingest_file_content in H.
  destruct (negb (String.eqb (file_state (live w) safe_path) "missing")); [discriminate|].
  destruct (split_agtag content) as [code [block|]]; [|discriminate].
  destruct (parse_agtag_block json_loads block safe_path) as [agtag|exc]; [|discriminate].
  destruct (Index.upsert_symbols _ _ _ _ _ _ _) as [[[]|exc] w2] eqn:Eup;
    [|destruct (is_value_error exc); discriminate].
  inversion H; subst; clear H.
  destruct (rebuild_other_rows _ _ _ _ _ q Eup Hq) as [Hs Hf].
  apply StoreFacts.upsert_symbols_files in Eup. destruct Eup as [Hfiles Hdisk].
  assert (Hl : live (if write_to_disk
                     then write_file w safe_path (rstrip_nl content ++ nl) else w)
               = live w) by (destruct write_to_disk; reflexivity).
  rewrite Hl in Hs, Hf, Hfiles.
  cbn [commit with_live live disk].
  split; [|split; [|split]].
  - unfold file_row_of, log_op, upsert_file. cbn [files].
    rewrite (RebuildFacts.find_put_other (mkFile safe_path _ "indexed")) by exact Hq.
    now rewrite Hfiles.
  - exact Hs.
  - exact Hf.
  - rewrite Hdisk. destruct write_to_disk; [|reflexivity].
    cbn [write_file disk]. now apply disk_read_put_other.
Qed.




(** What a [patch] that succeeds has checked and what it leaves. *)
Lemma patch_ok : forall w path hash_before stdin safe_path new_hash w',
  patch w path hash_before stdin = (Ok (safe_path, new_hash), w') ->
  ensure_repo_relative_path cwd path = Ok safe_path
  /\ (exists row, file_row_of (live w) safe_path = Some row
                  /\ db_state row = "indexed" /\ file_hash row = hash_before)
  /\ (exists content,
        disk_read safe_path (disk w') = Some content
        /\ exactly_one_trailing_newline content
        /\ new_hash = sha256_bytes (encode_utf8 content))
  /\ file_row_of (live w') safe_path = Some (mkFile safe_path new_hash "indexed")
  /\ durable w' = live w'.
Proof.
  intros w path hash_before stdin safe_path new_hash w' H. unfold Ops.patch in H.
  destruct (ensure_repo_relative_path cwd path) as [safe|] eqn:Esafe; [|discriminate].
  destruct (file_row_of (live w) safe) as [row|] eqn:Erow; [|discriminate].
  destruct (String.eqb_spec (db_state row) "indexed") as [Est|]; [|discriminate].
  destruct (String.eqb_spec (file_hash row) hash_before) as [Eh|]; [|discriminate].
  cbn [negb] in H.
  destruct (extract_final_file_payload json_loads stdin) as [final|]; [|discriminate].
  destruct (disk_read safe (disk w)) as [original|]; [|discriminate].
  destruct (Diff.apply_unified_diff_to_text original _ safe) as [patched|]; [|discriminate].
  destruct (final_text final) as [final_payload|]; [|discriminate].
  cbv zeta in H.
  match type of H with
  | context [if ?c then _ else _] => destruct c; [discriminate|]
  end.
  match type of H with
  | context [split_agtag ?c] => set (final_content := c) in *
  end.
  assert (Hone : exactly_one_trailing_newline final_content).
  { unfold final_content.
    match goal with
    | |- exactly_one_trailing_newline (rstrip_nl ?x ++ nl) =>
        exists (rstrip_nl x); split; [reflexivity|apply StoreFacts.rstrip_nl_no_trailing_nl]
    end. }
  assert (Hfinish : forall w2,
            files (live w2) = files (live w) -> disk w2 = disk (write_file w safe final_content) ->
            (@Ok patch_error _ (safe, sha256_bytes (encode_utf8 final_content)),
             commit (with_live w2
                       (log_op (upsert_file (live w2) safe
                                  (sha256_bytes (encode_utf8 final_content)) "indexed")
                               "patch" (path_details json_dumps safe))))
            = (Ok (safe_path, new_hash), w') ->
            safe = safe_path
            /\ (exists row, file_row_of (live w) safe_path = Some row
                            /\ db_state row = "indexed" /\ file_hash row = hash_before)
            /\ (exists content,
                  disk_read safe_path (disk w') = Some content
                  /\ exactly_one_trailing_newline content
                  /\ new_hash = sha256_bytes (encode_utf8 content))
            /\ file_row_of (live w') safe_path = Some (mkFile safe_path new_hash "indexed")
            /\ durable w' = live w').
  { intros w2 Hfiles Hdisk Heq. inversion Heq; subst; clear Heq.
    split; [reflexivity|]. split; [now exists row|].
    split; [|split; [apply StoreFacts.file_row_upsert_file|reflexivity]].
    exists final_content. split; [|split; [exact Hone|reflexivity]].
    cbn [commit with_live disk]. rewrite Hdisk. cbn [write_file disk].
    apply StoreFacts.disk_read_put. }
  destruct (split_agtag final_content) as [code [block|]].
  - destruct (parse_agtag_block json_loads block safe) as [agtag|]; [|discriminate].
    destruct (Index.upsert_symbols _ _ _ _ _ _ _) as [[[]|exc] w2] eqn:Eup;
    [|destruct (is_value_error exc); discriminate].
    apply StoreFacts.upsert_symbols_files in Eup. destruct Eup as [Hf Hd].
    destruct (Hfinish w2 Hf Hd H) as [-> Hrest]. split; [reflexivity|exact Hrest].
  - destruct (Hfinish (with_live (write_file w safe final_content)
                         (clear_symbols (live (write_file w safe final_content)) safe))
                      eq_refl eq_refl H) as [-> Hrest].
    split; [reflexivity|exact Hrest].
Qed.

(** X14. A [patch] goes through only on a tracked file whose stored hash is
    the one the caller gave, and it leaves file and index in step: the file
    in the working tree ends in exactly one newline, the hash returned and
    recorded in [files] is the digest of that file as it is on disk, and the
    row is committed. *)
Theorem successful_patch_is_in_step :
  forall w path hash_before stdin safe_path new_hash w',
  patch w path hash_before stdin = (Ok (safe_path, new_hash), w') ->
  ensure_repo_relative_path cwd path = Ok safe_path
  /\ (exists row, file_row_of (live w) safe_path = Some row
                  /\ db_state row = "indexed" /\ file_hash row = hash_before)
  /\ (exists content,
        disk_read safe_path (disk w') = Some content
        /\ exactly_one_trailing_newline content
        /\ new_hash = sha256_bytes (encode_utf8 content))
  /\ file_row_of (live w') safe_path = Some (mkFile safe_path new_hash "indexed")
  /\ durable w' = live w'.
Proof. exact patch_ok. Qed.

(** X15. After a successful [patch], [inventory] lists the file with the
    hash the patch returned, finds it on disk with that same hash, and
    reports it [in_sync]. *)
Theorem patched_file_is_reported_in_sync :
  forall w path hash_before stdin safe_path new_hash w' with_summary,
  patch w path hash_before stdin = (Ok (safe_path, new_hash), w') ->
  exists e,
    In e (fst (Inventory.inventory sha256_hex w' with_summary))
    /\ Inventory.en_row e = mkFile safe_path new_hash "indexed"
    /\ Inventory.exists_on_disk e = true
    /\ Inventory.disk_hash e = Some new_hash
    /\ Inventory.hash_matches e = true
    /\ Inventory.status e = "in_sync".
Proof.
  intros w path hash_before stdin safe_path new_hash w' with_summary H.
  apply patch_ok in H.
  destruct H as (_ & _ & (content & Hdisk & _ & Hhash) & Hrow & _).
  exists (Inventory.entry_of sha256_hex (disk w') (mkFile safe_path new_hash "indexed")).
  split.
  - unfold Inventory.inventory. cbn [fst]. apply in_map.
    apply FocusFacts.in_stable_sort. unfold file_row_of in Hrow.
    apply find_some in Hrow. tauto.
  - unfold Inventory.entry_of, Inventory.get_file_hash. cbn [file_path db_state file_hash].
    rewrite Hdisk. cbn [option_map]. rewrite <- Hhash.
    rewrite String.eqb_refl. subst new_hash. repeat split.
Qed.

Lemma find_none_nowhere : forall pat s,
  find pat s = None -> forall k, String.prefix pat (drop k s) = false.
Proof.
  intros pat. induction s as [|c s IH]; intros H k; cbn [find] in H.
  - rewrite CodecFacts.drop_nil. destruct (String.prefix pat EmptyString); [discriminate|reflexivity].
  - destruct (String.prefix pat (String c s)) eqn:E; [discriminate|].
    destruct (find pat s) eqn:Ef; [discriminate|].
    destruct k as [|k]; [exact E|]. cbn [drop]. now apply IH.
Qed.

Lemma search_final_block_none : forall s pos,
  (forall k, String.prefix FINAL_MARK (drop k s) = false) ->
  search_final_block s pos = None.
Proof.
  induction s as [|c s IH]; intros pos H; cbn [search_final_block];
    pose proof (H 0%nat) as H0; cbn [drop] in H0;
    unfold match_final_block, Diff.expect, startswith; rewrite H0.
  - reflexivity.
  - apply IH. intros k. apply (H (S k)).
Qed.

(** X16. A diff that does not hold the text [AGTAG_PATCH_FINAL_FILE] carries
    no final-file payload: [extract_final_file_payload] returns nothing, does
    not call the JSON parser and cannot fail, so [patch] applies the whole
    input as the diff. *)
Theorem diff_without_marker_has_no_payload : forall diff_text,
  contains FINAL_MARK diff_text = false ->
  extract_final_file_payload json_loads diff_text = Ok None.
Proof.
  intros diff_text H. unfold contains in H.
  destruct (find FINAL_MARK diff_text) eqn:E; [discriminate|].
  unfold extract_final_file_payload.
  now rewrite (search_final_block_none _ 0%nat (find_none_nowhere _ _ E)).
Qed.

End Commands.


Lemma ingest_leaves_other_files_alone_witness :
  let w' := snd Sample.first_ingest in
  file_row_of (live w') "src/other.py" = file_row_of (live Sample.blank_world) "src/other.py"
  /\ symbols_in (live w') "src/other.py" = symbols_in (live Sample.blank_world) "src/other.py"
  /\ fts_in (live w') "src/other.py" = fts_in (live Sample.blank_world) "src/other.py"
  /\ disk_read "src/other.py" (disk w') = disk_read "src/other.py" (disk Sample.blank_world).
Proof.
  apply (ingest_leaves_other_files_alone Sample.loads Sha256.hexdigest Sample.dumps
           Sample.parse_known Sample.blank_world "src/example.py" Sample.example_content true
           ("src/example.py",
            Index.sha256_bytes Sha256.hexdigest (encode_utf8 Sample.example_content))
           (snd Sample.first_ingest) "src/other.py").
  - vm_compute. reflexivity.
  - discriminate.
Defined.


Lemma successful_patch_is_in_step_witness :
  let w := snd Sample.first_ingest in
  let w' := snd (Sample.run_patch Sample.editing_diff) in
  let new_hash := Index.sha256_bytes Sha256.hexdigest (encode_utf8 Sample.edited_content) in
  ensure_repo_relative_path "/repo" "src/example.py" = Ok "src/example.py"
  /\ (exists row, file_row_of (live w) "src/example.py" = Some row
                  /\ db_state row = "indexed"
                  /\ file_hash row
                     = Index.sha256_bytes Sha256.hexdigest
                         (encode_utf8 Sample.example_content))
  /\ (exists content,
        disk_read "src/example.py" (disk w') = Some content
        /\ exactly_one_trailing_newline content
        /\ new_hash = Index.sha256_bytes Sha256.hexdigest (encode_utf8 content))
  /\ file_row_of (live w') "src/example.py"
     = Some (mkFile "src/example.py" new_hash "indexed")
  /\ durable w' = live w'.
Proof.
  apply (successful_patch_is_in_step Sample.loads Sha256.hexdigest Sample.dumps
           Sample.parse_known "/repo" (snd Sample.first_ingest) "src/example.py"
           (Index.sha256_bytes Sha256.hexdigest (encode_utf8 Sample.example_content))
           Sample.editing_diff).
  vm_compute. reflexivity.
Defined.

Lemma patched_file_is_reported_in_sync_witness :
  let new_hash := Index.sha256_bytes Sha256.hexdigest (encode_utf8 Sample.edited_content) in
  exists e,
    In e (fst (Inventory.inventory Sha256.hexdigest
                 (snd (Sample.run_patch Sample.editing_diff)) true))
    /\ Inventory.en_row e = mkFile "src/example.py" new_hash "indexed"
    /\ Inventory.exists_on_disk e = true
    /\ Inventory.disk_hash e = Some new_hash
    /\ Inventory.hash_matches e = true
    /\ Inventory.status e = "in_sync".
Proof.
  apply (patched_file_is_reported_in_sync Sample.loads Sha256.hexdigest Sample.dumps
           Sample.parse_known "/repo" (snd Sample.first_ingest) "src/example.py"
           (Index.sha256_bytes Sha256.hexdigest (encode_utf8 Sample.example_content))
           Sample.editing_diff).
  vm_compute. reflexivity.
Defined.

Lemma diff_without_marker_has_no_payload_witness :
  extract_final_file_payload Sample.loads Sample.editing_diff = Ok None.
Proof.
  apply diff_without_marker_has_no_payload. reflexivity.
Defined.

End CommandFacts.

(** ** What the patch engine refuses *)

Module PatchEngineFacts.
Import PyStr Diff.

Lemma run_loop_without_hunks : forall original_lines repo_path diff_lines st,
  Forall (fun line => startswith line "@@ " = false) diff_lines ->
  in_hunk st = false -> applied_hunk st = false ->
  (exists st', run_loop original_lines repo_path diff_lines st = Ok st'
               /\ applied_hunk st' = false)
  \/ run_loop original_lines repo_path diff_lines st = Err MissingOriginalHeader
  \/ run_loop original_lines repo_path diff_lines st = Err TargetMismatch.
Proof.
  intros original_lines repo_path diff_lines.
  induction diff_lines as [|line rest IH]; intros st Hall Hin Happ.
  - left. exists st. now split.
  - inversion Hall as [|? ? Hline Hrest]; subst.
    cbn [run_loop]. rewrite Hin. cbn [andb]. unfold outer_line_step.
    destruct (startswith line "--- ").
    { apply IH; [exact Hrest|reflexivity|exact Happ]. }
    destruct (startswith line "+++ ").
    { destruct (current_file st); [|right; now left].
      destruct (String.eqb _ _); [|right; now right].
      apply IH; [exact Hrest|reflexivity|exact Happ]. }
    rewrite Hline. apply IH; [exact Hrest|reflexivity|exact Happ].
Qed.

(** X17. A diff with no hunk header is never applied: whatever else it
    holds, [apply_unified_diff_to_text] raises, with "Diff contained no hunks
    to apply" unless one of its file headers is already at fault.  The empty
    diff in particular is rejected. *)
Theorem diff_without_hunks_is_rejected : forall original diff_text repo_path,
  Forall (fun line => startswith line "@@ " = false) (splitlines diff_text) ->
  exists e,
    apply_unified_diff_to_text original diff_text repo_path = Err e
    /\ (e = NoHunks \/ e = MissingOriginalHeader \/ e = TargetMismatch).
Proof.
  intros original diff_text repo_path H. unfold apply_unified_diff_to_text.
  destruct (run_loop_without_hunks (splitlines original) repo_path _ loop_init H
              eq_refl eq_refl) as [(st' & Hrun & Happ)|[Hrun|Hrun]]; rewrite Hrun.
  - rewrite Happ. exists NoHunks. auto.
  - exists MissingOriginalHeader. auto.
  - exists TargetMismatch. auto.
Qed.

Lemma diff_without_hunks_is_rejected_witness :
  exists e,
    apply_unified_diff_to_text Sample.terminated Sample.headers_only "f.py" = Err e
    /\ (e = NoHunks \/ e = MissingOriginalHeader \/ e = TargetMismatch).
Proof.
  apply diff_without_hunks_is_rejected. vm_compute. repeat constructor.
Defined.

Lemma ends_with_nl_after_nl : forall s, ends_with_nl (s ++ nl) = true.
Proof.
  induction s as [|c s IH]; [reflexivity|].
  change (String c s ++ nl) with (String c (s ++ nl)).
  rewrite StoreFacts.ends_with_nl_cons; [exact IH|]. destruct s; discriminate.
Qed.

(** X18. A successful patch keeps the final newline of the file: when the
    original text ends with a newline, so does the text returned. *)
Theorem patched_text_keeps_final_newline : forall original diff_text repo_path patched,
  apply_unified_diff_to_text original diff_text repo_path = Ok patched ->
  ends_with_nl original = true ->
  ends_with_nl patched = true.
Proof.
  intros original diff_text repo_path patched H Hnl.
  unfold apply_unified_diff_to_text in H.
  destruct (run_loop _ _ _ _) as [st|]; [|discriminate].
  destruct (negb (applied_hunk st)); [discriminate|].
  rewrite Hnl in H. cbn [andb] in H.
  destruct (ends_with_nl (join nl _)) eqn:E; cbn [negb] in H; inversion H; subst.
  - exact E.
  - apply ends_with_nl_after_nl.
Qed.

Lemma patched_text_keeps_final_newline_witness :
  ends_with_nl (Sample.edited_content) = true.
Proof.
  apply (patched_text_keeps_final_newline Sample.example_content Sample.editing_diff
           "src/example.py").
  - vm_compute. reflexivity.
  - reflexivity.
Defined.

(** *** A diff that does not fit the file *)





Section Refusing.

Variable original_lines : list string.
Variable repo_path : string.

Local Abbreviation run_loop := (run_loop original_lines repo_path).





End Refusing.




Lemma first_two_lines : forall a b ls,
  one_line a = true -> one_line b = true ->
  exists rest, splitlines (String.concat nl (a :: b :: ls) ++ nl) = a :: b :: rest.
Proof.
  intros a b ls Ha Hb.
  change (String.concat nl (a :: b :: ls)) with (a ++ nl ++ String.concat nl (b :: ls)).
  rewrite (DiffFacts.append_assoc a), (DiffFacts.append_assoc nl).
  rewrite (DiffFacts.splitlines_line a _ Ha).
  destruct ls as [|l ls].
  - cbn [String.concat]. replace (b ++ nl) with (b ++ nl ++ EmptyString)
      by (now rewrite (DiffFacts.append_nil_r nl)).
    rewrite (DiffFacts.splitlines_line b _ Hb). eauto.
  - change (String.concat nl (b :: l :: ls)) with (b ++ nl ++ String.concat nl (l :: ls)).
    rewrite (DiffFacts.append_assoc b), (DiffFacts.append_assoc nl).
    rewrite (DiffFacts.splitlines_line b _ Hb). eauto.
Qed.

(** X20. A diff made for one file is not applied to another: when the path
    in its [+++] header and the path given to the patch differ after
    normalisation, the call raises "Diff targets ... but patch path is ...",
    whatever the hunks. *)
Theorem diff_for_another_file_is_refused : forall original header_path hunks repo_path,
  plain_path header_path = true ->
  normpath header_path <> normpath repo_path ->
  apply_unified_diff_to_text original (diff_text header_path hunks) repo_path
  = Err TargetMismatch.
Proof.
  intros original header_path hunks repo_path Hpath Hne.
  unfold apply_unified_diff_to_text.
  pose proof Hpath as Hp. unfold plain_path in Hp.
  apply andb_prop in Hp. destruct Hp as [Hp _].
  apply andb_prop in Hp. destruct Hp as [Hone _].
  assert (Hlines : exists rest,
            splitlines (diff_text header_path hunks)
            = ("--- a/" ++ header_path) :: ("+++ b/" ++ header_path) :: rest).
  { unfold diff_text, diff_lines_of, join. apply first_two_lines; simpl; assumption. }
  destruct Hlines as [rest ->].
  cbn [run_loop loop_init in_hunk andb].
  unfold outer_line_step at 1.
  change (startswith ("--- a/" ++ header_path) "--- ") with true. cbv iota.
  cbn [idx patched_lines applied_hunk current_file in_hunk andb].
  unfold outer_line_step at 1.
  change (startswith ("+++ b/" ++ header_path) "--- ") with false.
  change (startswith ("+++ b/" ++ header_path) "+++ ") with true. cbv iota.
  cbn [idx patched_lines applied_hunk current_file in_hunk andb].
  destruct (DiffFacts.header_field_plain "+++" header_path Hpath) as [Hf|Hf];
    [|simpl in Hf; lia].
  change ("+++" ++ " b/" ++ header_path) with ("+++ b/" ++ header_path) in Hf. rewrite Hf.
  unfold normalize_header.
  change (startswith ("b/" ++ header_path) "a/") with false.
  change (startswith ("b/" ++ header_path) "b/") with (String.prefix EmptyString header_path).
  rewrite DiffFacts.prefix_empty. cbn [orb]. simpl drop.
  destruct (String.eqb_spec (normpath header_path) (normpath repo_path));
    [contradiction|reflexivity].
Qed.

Lemma diff_for_another_file_is_refused_witness :
  apply_unified_diff_to_text Sample.example_content
    (diff_text "src/other.py"
       [mkHunk 1 [Deletion "    return a+b"; Addition "    return a-b"]])
    "src/example.py"
  = Err TargetMismatch.
Proof.
  apply diff_for_another_file_is_refused.
  - reflexivity.
  - vm_compute. discriminate.
Defined.

End PatchEngineFacts.

(** ** What the traversal returns: everything in reach, once, in order *)

Module TraversalFacts.
Import PyStr Agtag Store Focus.

Lemma bfs_loop_ends : forall fuel d repo depth ts st st',
  bfs_loop fuel d repo depth ts st = Some st' -> queue st' = [].
Proof.
  induction fuel as [|fuel IH]; intros d repo depth ts st st' H.
  - destruct (queue st) as [|[c k] rest] eqn:Hq.
    + rewrite FocusFacts.bfs_loop_nil in H by exact Hq. now inversion H; subst.
    + simpl in H. rewrite Hq in H. discriminate.
  - destruct (queue st) as [|[c k] rest] eqn:Hq.
    + rewrite FocusFacts.bfs_loop_nil in H by exact Hq. now inversion H; subst.
    + rewrite (FocusFacts.bfs_loop_cons _ _ _ _ fuel st c k rest Hq) in H. cbv zeta in H.
      destruct (k >=? depth); eapply IH; exact H.
Qed.

Lemma reach_is_visited : forall d repo depth ts src h done st,
  Inv d repo depth ts src h None done st -> queue st = [] ->
  forall m v, walk d repo ts src m v -> Z.of_nat m <= depth -> In v (visited st).
Proof.
  intros d repo depth ts src h done st I Hq m v Hw.
  induction Hw as [|n x w Hx IH Hhop]; intros Hm.
  - apply (inv_src I).
  - assert (Hxv : In x (visited st)) by (apply IH; lia).
    destruct (inv_visited I x Hxv) as [k Hk].
    pose proof (FocusFacts.level_le_walk _ _ _ _ _ _ _ _ _ _ _ _ I Hk Hx) as Hle.
    destruct (inv_where I x Hxv) as [Hd|[Hc|[k' Hin]]].
    + apply (inv_done I x k w Hd Hk); [lia|exact Hhop].
    + discriminate.
    + rewrite Hq in Hin. contradiction.
Qed.

Lemma assigned_in_bucket : forall buckets v k,
  In (v, k) (assigned buckets) ->
  exists bucket n, In (k, bucket) buckets /\ In n bucket /\ n_id n = v.
Proof.
  intros buckets v k H. unfold assigned in H. apply in_flat_map in H.
  destruct H as [[k0 b] [Hkb Hin]]. apply in_map_iff in Hin.
  destruct Hin as [n [Heq Hn]]. simpl in Heq. inversion Heq; subst.
  now exists b, n.
Qed.

(** X21. The traversal misses nothing in reach: a symbol other than the
    primary one that some walk of at most [depth] hops reaches (over edges of
    the admitted types, taken either way, between symbols of the file) is
    returned as a neighbor, under a key [depth_k] with [k] no larger than the
    length of that walk. *)
Theorem focus_returns_every_symbol_in_reach :
  forall d repo name depth types ctx symbol m v,
  get_context d repo name depth types = Some (Ok ctx) ->
  symbol_by_name d repo name = Some symbol ->
  walk d repo (filter (fun t => negb (is_empty t)) types) (sym_id symbol) m v ->
  Z.of_nat m <= depth ->
  v <> sym_id symbol ->
  exists k bucket n,
    In (k, bucket) (neighbors ctx) /\ In n bucket /\ n_id n = v
    /\ 1 <= k <= Z.of_nat m.
Proof.
  intros d repo name depth types ctx symbol m v H Hsym Hw Hm Hv.
  unfold get_context in H. rewrite Hsym in H.
  destruct (Z.leb_spec depth 0) as [Hle|Hpos].
  { exfalso. destruct Hw as [|n x w Hx Hhop]; [now apply Hv|lia]. }
  set (ts := filter (fun t => negb (is_empty t)) types) in *.
  destruct (bfs_loop (bfs_fuel d) d repo depth ts _) as [st|] eqn:Hrun; [|discriminate].
  inversion H; subst; clear H. cbn [neighbors].
  destruct (FocusFacts.bfs_loop_inv d repo depth ts (sym_id symbol) Hpos _ 0 [] _ st
              (FocusFacts.inv_init d repo depth ts (sym_id symbol) Hpos) Hrun)
    as (h' & done' & I).
  pose proof (bfs_loop_ends _ _ _ _ _ _ _ Hrun) as Hq.
  pose proof (reach_is_visited _ _ _ _ _ _ _ _ I Hq m v Hw Hm) as Hvis.
  destruct (inv_visited I v Hvis) as [k Hk].
  pose proof (FocusFacts.level_le_walk _ _ _ _ _ _ _ _ _ _ _ _ I Hk Hw) as Hkm.
  destruct Hk as [[Heq _]|Hin]; [contradiction|].
  pose proof (inv_pos I v k Hin) as Hk1.
  apply assigned_in_bucket in Hin. destruct Hin as (bucket & n & Hb & Hn & Hid).
  exists k, (stable_sort neighbor_before bucket), n.
  split; [|split; [|split; [exact Hid|lia]]].
  - apply in_map_iff. exists (k, bucket). now split.
  - now apply FocusFacts.in_stable_sort.
Qed.

(** *** Nothing twice *)

Lemma assigned_bucket_append_perm : forall key item buckets,
  Permutation (assigned (bucket_append key item buckets))
              ((n_id item, key) :: assigned buckets).
Proof.
  intros key item buckets. induction buckets as [|[k0 b] buckets IH].
  - apply Permutation_refl.
  - cbn [bucket_append]. destruct (Z.eqb_spec k0 key) as [->|Hne].
    + unfold assigned. cbn [flat_map fst snd]. rewrite map_app. cbn [map].
      rewrite <- app_assoc. cbn [app].
      apply Permutation_sym, Permutation_middle.
    + unfold assigned in *. cbn [flat_map fst snd].
      eapply Permutation_trans; [apply Permutation_app_head, IH|].
      apply Permutation_sym, Permutation_middle.
Qed.

Lemma keys_bucket_append : forall key item buckets,
  NoDup (map fst buckets) -> NoDup (map fst (bucket_append key item buckets)).
Proof.
  intros key item buckets. induction buckets as [|[k0 b] buckets IH]; intros Hnd.
  - repeat constructor. intros [].
  - cbn [bucket_append]. destruct (Z.eqb_spec k0 key) as [->|Hne]; [exact Hnd|].
    cbn [map fst] in *. inversion Hnd as [|? ? Hnotin Hnd']; subst.
    constructor; [|now apply IH].
    intros Hin. apply Hnotin. clear IH Hnd Hnd' Hnotin.
    induction buckets as [|[k1 b1] buckets IH]; cbn [bucket_append map fst] in Hin.
    + destruct Hin as [Hin|[]]. congruence.
    + destruct (Z.eqb_spec k1 key); cbn [map fst] in Hin |- *.
      * exact Hin.
      * destruct Hin as [Hin|Hin]; [now left|right; now apply IH].
Qed.

Lemma visit_edge_holds_once : forall d repo depth src cur h st e,
  holds_once src st -> holds_once src (visit_edge d repo depth cur h st e).
Proof.
  intros d repo depth src cur h st e (Hnd & Hperm & Hkeys).
  destruct (FocusFacts.visit_edge_cases d repo depth cur h st e)
    as [(Hv & _ & Hb & _)|(s & Hnot & Hs & _ & _ & Hv & _ & Hb)].
  - unfold holds_once. now rewrite Hv, Hb.
  - unfold holds_once. rewrite Hv, Hb. split; [|split].
    + apply NoDup_app; [exact Hnd|repeat constructor; intros []|].
      intros x Hx [<-|[]]. contradiction.
    + apply FocusFacts.symbol_by_id_found in Hs. destruct Hs as [_ Hid].
      eapply Permutation_trans;
        [|apply perm_skip, Permutation_map, Permutation_sym,
            assigned_bucket_append_perm].
      cbn [map fst serialize_neighbor n_id]. rewrite Hid.
      eapply Permutation_trans; [apply Permutation_app_comm|]. cbn [app].
      eapply Permutation_trans; [apply perm_skip, Hperm|]. apply perm_swap.
    + now apply keys_bucket_append.
Qed.

Lemma bfs_loop_holds_once : forall d repo depth ts src fuel st st',
  holds_once src st -> bfs_loop fuel d repo depth ts st = Some st' -> holds_once src st'.
Proof.
  intros d repo depth ts src. induction fuel as [|fuel IH]; intros st st' Hst H.
  - destruct (queue st) as [|[c k] rest] eqn:Hq.
    + rewrite FocusFacts.bfs_loop_nil in H by exact Hq. now inversion H; subst.
    + simpl in H. rewrite Hq in H. discriminate.
  - destruct (queue st) as [|[c k] rest] eqn:Hq.
    + rewrite FocusFacts.bfs_loop_nil in H by exact Hq. now inversion H; subst.
    + rewrite (FocusFacts.bfs_loop_cons _ _ _ _ fuel st c k rest Hq) in H. cbv zeta in H.
      assert (H0 : holds_once src (mkBfs (neighbors_by_depth st) (visited st) rest
                                         (edges_seen st) (edges_payload st)))
        by exact Hst.
      destruct (k >=? depth); [apply (IH _ _ H0 H)|].
      refine (IH _ st' _ H).
      clear H. revert H0. generalize (mkBfs (neighbors_by_depth st) (visited st) rest
                                             (edges_seen st) (edges_payload st)).
      induction (edges_incident d c ts) as [|e es IHes]; intros s0 Hs0; [exact Hs0|].
      cbn [fold_left]. apply IHes. now apply visit_edge_holds_once.
Qed.

Lemma insert_sorted_perm : forall (A : Type) (before : A -> A -> bool) x l,
  Permutation (insert_sorted before x l) (x :: l).
Proof.
  intros A before x l. induction l as [|y l IH]; simpl; [apply Permutation_refl|].
  destruct (before x y); [apply Permutation_refl|].
  eapply Permutation_trans; [apply perm_skip, IH|apply perm_swap].
Qed.

Lemma stable_sort_perm : forall (A : Type) (before : A -> A -> bool) l,
  Permutation (stable_sort before l) l.
Proof.
  intros A before l. unfold stable_sort.
  assert (H : forall acc,
            Permutation (fold_left (fun acc x => insert_sorted before x acc) l acc)
                        (l ++ acc)).
  { induction l as [|x l IH]; intros acc; simpl; [apply Permutation_refl|].
    eapply Permutation_trans; [apply IH|].
    eapply Permutation_trans; [apply Permutation_app_head, insert_sorted_perm|].
    apply Permutation_sym, Permutation_middle. }
  specialize (H []). now rewrite app_nil_r in H.
Qed.

Lemma ids_of_buckets : forall buckets : list (Z * list neighbor_payload),
  map n_id (flat_map snd buckets) = map fst (assigned buckets).
Proof.
  induction buckets as [|[k b] buckets IH]; [reflexivity|].
  unfold assigned in *. cbn [flat_map snd fst]. rewrite !map_app, IH. f_equal.
  rewrite map_map. reflexivity.
Qed.

Lemma sorted_buckets_perm : forall buckets : list (Z * list neighbor_payload),
  Permutation
    (flat_map snd (map (fun kb => (fst kb, stable_sort neighbor_before (snd kb))) buckets))
    (flat_map snd buckets).
Proof.
  induction buckets as [|[k b] buckets IH]; [apply Permutation_refl|].
  cbn [map flat_map fst snd]. apply Permutation_app; [apply stable_sort_perm|exact IH].
Qed.

Lemma count_of_buckets : forall buckets : list (Z * list neighbor_payload),
  1 + fold_right (fun kb n => Z.of_nat (List.length (snd kb)) + n) 0 buckets
  = Z.of_nat (S (List.length (flat_map snd buckets))).
Proof.
  induction buckets as [|[k b] buckets IH]; [reflexivity|].
  cbn [fold_right flat_map snd]. rewrite length_app. lia.
Qed.

(** X22. No symbol is returned twice: the primary symbol and the neighbors
    of all the buckets have different ids, no key [depth_k] has two
    buckets, and [symbols_returned] is their number. *)
Theorem focus_returns_no_symbol_twice : forall d repo name depth types ctx,
  get_context d repo name depth types = Some (Ok ctx) ->
  NoDup (p_id (primary ctx) :: map n_id (flat_map snd (neighbors ctx)))
  /\ NoDup (map fst (neighbors ctx))
  /\ symbols_returned (ctx_stats ctx)
     = Z.of_nat (S (List.length (flat_map snd (neighbors ctx)))).
Proof.
  intros d repo name depth types ctx H. unfold get_context in H.
  destruct (symbol_by_name d repo name) as [symbol|]; [|discriminate].
  destruct (depth <=? 0).
  { inversion H; subst; clear H. cbn. repeat split; repeat constructor. intros []. }
  destruct (bfs_loop (bfs_fuel d) d repo depth _ _) as [st|] eqn:Hrun; [|discriminate].
  inversion H; subst; clear H. cbn [primary neighbors ctx_stats symbols_returned].
  assert (H0 : holds_once (sym_id symbol) (mkBfs [] [sym_id symbol] [(sym_id symbol, 0)] [] [])).
  { unfold holds_once. cbn. repeat split; repeat constructor; intros []. }
  destruct (bfs_loop_holds_once _ _ _ _ _ _ _ _ H0 Hrun) as (Hnd & Hperm & Hkeys).
  split; [|split].
  - apply (Permutation_NoDup (l := visited st)); [|exact Hnd].
    eapply Permutation_trans; [exact Hperm|]. cbn [serialize_primary p_id].
    apply perm_skip. rewrite <- ids_of_buckets.
    apply Permutation_map, Permutation_sym, sorted_buckets_perm.
  - rewrite map_map. cbn [fst]. exact Hkeys.
  - apply count_of_buckets.
Qed.

(** *** In order *)

Lemma string_compare_orders : forall (A : Type) (key : A -> string),
  orders (fun a b => String.compare (key a) (key b)).
Proof.
  intros A key. split; [|split].
  - intros x y. apply String.compare_antisym.
  - intros x y z Hxy Hyz.
    apply OrderedTypeEx.String_as_OT.cmp_lt in Hxy, Hyz.
    apply OrderedTypeEx.String_as_OT.cmp_lt.
    eapply OrderedTypeEx.String_as_OT.lt_trans; eassumption.
  - intros x y z Hxy. apply String.compare_eq_iff in Hxy. now rewrite Hxy.
Qed.

Lemma lex_orders : forall (A : Type) (f g : A -> A -> comparison),
  orders f -> orders g -> orders (fun a b => lex (f a b) (g a b)).
Proof.
  intros A f g (Hfa & Hft & Hfe) (Hga & Hgt & Hge).
  assert (Hfr : forall x y z, f y z = Eq -> f x z = f x y).
  { intros x y z Hyz. rewrite (Hfa z x), (Hfa y x). f_equal.
    apply Hfe. exact Hyz. }
  split; [|split].
  - intros x y. rewrite (Hfa x y), (Hga x y).
    destruct (f x y), (g x y); reflexivity.
  - intros x y z Hxy Hyz. unfold lex in *.
    destruct (f x y) eqn:Fxy; try discriminate.
    + rewrite <- (Hfe x y z Fxy). destruct (f y z) eqn:Fyz; try discriminate.
      * now apply (Hgt x y z).
      * reflexivity.
    + destruct (f y z) eqn:Fyz; try discriminate.
      * now rewrite (Hfr x y z Fyz), Fxy.
      * now rewrite (Hft x y z Fxy Fyz).
  - intros x y z Hxy. unfold lex in *.
    destruct (f x y) eqn:Fxy; try discriminate.
    rewrite (Hfe x y z Fxy), (Hge x y z Hxy). reflexivity.
Qed.

Lemma insert_sorted_sorted : forall (A : Type) (c : A -> A -> comparison) x l,
  orders c ->
  StronglySorted (fun a b => is_lt (c b a) = false) l ->
  StronglySorted (fun a b => is_lt (c b a) = false)
                 (insert_sorted (fun a b => is_lt (c a b)) x l).
Proof.
  intros A c x l (Ha & Ht & He) Hl. induction Hl as [|y l Hl IH Hy]; simpl.
  - repeat constructor.
  - destruct (c x y) eqn:Cxy; cbn [is_lt].
    + constructor; [exact IH|]. apply Forall_forall. intros z Hz.
      apply FocusFacts.in_insert_sorted in Hz. destruct Hz as [->|Hz].
      * now rewrite Cxy.
      * rewrite Forall_forall in Hy. now apply Hy.
    + constructor; [now constructor|]. constructor.
      * rewrite Ha, Cxy. reflexivity.
      * rewrite Forall_forall in Hy |- *. intros z Hz. specialize (Hy z Hz).
        destruct (c z x) eqn:Czx; try reflexivity. exfalso.
        rewrite (Ht z x y Czx Cxy) in Hy. discriminate.
    + constructor; [exact IH|]. apply Forall_forall. intros z Hz.
      apply FocusFacts.in_insert_sorted in Hz. destruct Hz as [->|Hz].
      * now rewrite Cxy.
      * rewrite Forall_forall in Hy. now apply Hy.
Qed.

Lemma stable_sort_sorted : forall (A : Type) (c : A -> A -> comparison) l,
  orders c ->
  StronglySorted (fun a b => is_lt (c b a) = false)
                 (stable_sort (fun a b => is_lt (c a b)) l).
Proof.
  intros A c l Hc. unfold stable_sort.
  assert (H : forall acc,
            StronglySorted (fun a b => is_lt (c b a) = false) acc ->
            StronglySorted (fun a b => is_lt (c b a) = false)
              (fold_left (fun acc x => insert_sorted (fun a b => is_lt (c a b)) x acc) l acc)).
  { induction l as [|x l IH]; intros acc Hacc; simpl; [exact Hacc|].
    apply IH. now apply insert_sorted_sorted. }
  apply H. constructor.
Qed.

(** X23. The output is in order: in every bucket the neighbors are sorted by
    name, then kind, and the edges are sorted by source name, then target
    name, then type (no item is followed, at any distance, by one whose key
    is strictly smaller). *)
Theorem focus_output_is_sorted : forall d repo name depth types ctx,
  get_context d repo name depth types = Some (Ok ctx) ->
  (forall k bucket, In (k, bucket) (neighbors ctx) ->
     StronglySorted (fun a b => neighbor_before b a = false) bucket)
  /\ StronglySorted (fun a b => edge_before b a = false) (ctx_edges ctx).
Proof.
  intros d repo name depth types ctx H. unfold get_context in H.
  destruct (symbol_by_name d repo name) as [symbol|]; [|discriminate].
  destruct (depth <=? 0).
  { inversion H; subst; clear H. cbn. split; [intros k bucket []|constructor]. }
  destruct (bfs_loop (bfs_fuel d) d repo depth _ _) as [st|]; [|discriminate].
  inversion H; subst; clear H. cbn [neighbors ctx_edges]. split.
  - intros k bucket Hin. apply in_map_iff in Hin. destruct Hin as [[k0 b] [Heq _]].
    cbn [fst snd] in Heq. inversion Heq; subst.
    apply (stable_sort_sorted _
             (fun a b => lex (String.compare (n_name a) (n_name b))
                             (String.compare (n_kind a) (n_kind b)))).
    apply lex_orders; apply string_compare_orders.
  - apply (stable_sort_sorted _
             (fun a b => lex (String.compare (e_name (ep_source a)) (e_name (ep_source b)))
                             (lex (String.compare (e_name (ep_target a)) (e_name (ep_target b)))
                                  (String.compare (ep_type a) (ep_type b))))).
    apply lex_orders; [apply (string_compare_orders _ (fun a => e_name (ep_source a)))|].
    apply lex_orders;
      [apply (string_compare_orders _ (fun a => e_name (ep_target a)))
      |apply (string_compare_orders _ ep_type)].
Qed.

Lemma focus_returns_every_symbol_in_reach_witness :
  exists k bucket n,
    In (k, bucket) (neighbors Sample.demo_context) /\ In n bucket /\ n_id n = 1
    /\ 1 <= k <= Z.of_nat 1.
Proof.
  apply (focus_returns_every_symbol_in_reach Sample.demo_store "src/focus_demo.py"
           "main" 1 [] Sample.demo_context
           (nth 1 (symbols Sample.demo_store)
                (Sample.demo_symbol 0 EmptyString 0 0 EmptyString))
           1%nat 1).
  - vm_compute. reflexivity.
  - vm_compute. reflexivity.
  - apply walk_hop with (v := 2); [apply walk_here|].
    exists (mkEdge 2 1 "calls"),
           (nth 0 (symbols Sample.demo_store)
                (Sample.demo_symbol 0 EmptyString 0 0 EmptyString)).
    split; [vm_compute; left; reflexivity|].
    split; [reflexivity|]. split; vm_compute; reflexivity.
  - vm_compute. discriminate.
  - vm_compute. discriminate.
Defined.

Lemma focus_returns_no_symbol_twice_witness :
  NoDup (p_id (primary Sample.demo_context)
         :: map n_id (flat_map snd (neighbors Sample.demo_context)))
  /\ NoDup (map fst (neighbors Sample.demo_context))
  /\ symbols_returned (ctx_stats Sample.demo_context)
     = Z.of_nat (S (List.length (flat_map snd (neighbors Sample.demo_context)))).
Proof.
  apply (focus_returns_no_symbol_twice Sample.demo_store "src/focus_demo.py" "main" 1 []).
  vm_compute. reflexivity.
Defined.

Lemma focus_output_is_sorted_witness :
  (forall k bucket, In (k, bucket) (neighbors Sample.demo_context) ->
     StronglySorted (fun a b => neighbor_before b a = false) bucket)
  /\ StronglySorted (fun a b => edge_before b a = false) (ctx_edges Sample.demo_context).
Proof.
  apply (focus_output_is_sorted Sample.demo_store "src/focus_demo.py" "main" 1 []).
  vm_compute. reflexivity.
Defined.

End TraversalFacts.

(** ** Handles and [zoom] *)

Module HandleFacts.
Import PyStr Agtag Store Focus Query.










Section Zooming.

Variable json_loads : string -> option json.
Variable walk_before : symbol_row -> symbol_row -> bool.

Ltac zoom_cases H :=
  repeat match type of H with
         | context [match ?x with _ => _ end] => destruct x eqn:?; try discriminate H
         end.

(** X25. [zoom] discloses progressively.  When it answers at some level it
    answers at every lower level too, and the lower answer is the higher one
    cut down: [l0] and [l1] are always there and the same, [l2] is present
    from level 2, [l3] from level 3, the file slice [l4] (or [l4_error])
    from level 4, with the same values. *)
Theorem zoom_discloses_progressively : forall w text level level' data',
  0 <= level <= level' ->
  zoom json_loads walk_before w text level' = Ok (text, level', data') ->
  exists data,
    zoom json_loads walk_before w text level = Ok (text, level, data)
    /\ z_l0 data = z_l0 data' /\ z_l1 data = z_l1 data'
    /\ z_l2 data = (if 2 <=? level then z_l2 data' else None)
    /\ z_l3 data = (if 3 <=? level then z_l3 data' else None)
    /\ z_l4 data = (if 4 <=? level then z_l4 data' else None)
    /\ z_l4_error data = (if 4 <=? level then z_l4_error data' else false)
    /\ (2 <= level' <-> z_l2 data' <> None)
    /\ (3 <= level' <-> z_l3 data' <> None)
    /\ (4 <= level' <-> z_l4 data' <> None \/ z_l4_error data' = true).
Proof.
  intros w text level level' data' Hle H. unfold zoom in *.
  destruct ((level' <? 0) || (level' >? 4))%bool eqn:Eb; [discriminate|].
  apply orb_false_elim in Eb. destruct Eb as [Eb1 Eb2].
  apply Z.ltb_ge in Eb1. rewrite Z.gtb_ltb in Eb2. apply Z.ltb_ge in Eb2.
  destruct (parse_handle text) as [h|]; [|discriminate].
  destruct (stable_sort walk_before _) as [|r rows]; [discriminate|].
  assert (Hl' : level' = 0 \/ level' = 1 \/ level' = 2 \/ level' = 3 \/ level' = 4) by lia.
  assert (Hl : level = 0 \/ level = 1 \/ level = 2 \/ level = 3 \/ level = 4) by lia.
  destruct Hl' as [->|[->|[->|[->| ->]]]];
    destruct Hl as [->|[->|[->|[->| ->]]]]; try lia;
    cbn [Z.ltb Z.gtb Z.geb Z.leb Z.compare Pos.compare Pos.compare_cont orb negb] in H |- *;
    zoom_cases H; inversion H; subst; clear H;
    eexists; (split; [reflexivity|]); cbn;
    repeat split; try reflexivity; try lia; try discriminate; intros;
    try tauto; try (now left); try (now right);
    try match goal with
        | H : _ \/ _ |- _ => destruct H; congruence
        | H : ?x <> ?x |- _ => now elim H
        end.
Qed.

End Zooming.

Lemma zoom_discloses_progressively_witness :
  exists data,
    zoom Sample.loads_empty_object Sample.index_order (snd Sample.demo_ingest) Sample.demo_handle 2
    = Ok (Sample.demo_handle, 2, data)
    /\ z_l0 data = z_l0 (Sample.demo_zoom_data 4)
    /\ z_l1 data = z_l1 (Sample.demo_zoom_data 4)
    /\ z_l2 data = (if 2 <=? 2 then z_l2 (Sample.demo_zoom_data 4) else None)
    /\ z_l3 data = (if 3 <=? 2 then z_l3 (Sample.demo_zoom_data 4) else None)
    /\ z_l4 data = (if 4 <=? 2 then z_l4 (Sample.demo_zoom_data 4) else None)
    /\ z_l4_error data = (if 4 <=? 2 then z_l4_error (Sample.demo_zoom_data 4) else false)
    /\ (2 <= 4 <-> z_l2 (Sample.demo_zoom_data 4) <> None)
    /\ (3 <= 4 <-> z_l3 (Sample.demo_zoom_data 4) <> None)
    /\ (4 <= 4 <-> z_l4 (Sample.demo_zoom_data 4) <> None
                   \/ z_l4_error (Sample.demo_zoom_data 4) = true).
Proof.
  apply (zoom_discloses_progressively Sample.loads_empty_object Sample.index_order
           (snd Sample.demo_ingest)
           Sample.demo_handle 2 4 (Sample.demo_zoom_data 4)).
  - lia.
  - vm_compute. reflexivity.
Defined.

End HandleFacts.

(** ** From ingest to [zoom]: the slice shown is the slice hashed *)

Module DisclosureFacts.
Import PyStr Agtag Store Index Ops Integrity Focus Query.

Lemma splitlines_nil : forall s, splitlines s = [] -> s = EmptyString.
Proof.
  intros [|c s] H; [reflexivity|]. cbn [splitlines] in H.
  destruct (is_linebreak c); [discriminate|].
  destruct (splitlines s); discriminate.
Qed.

(** The lines of a text are the first lines of the text followed by a
    newline and anything. *)
Lemma splitlines_prefix : forall a b,
  exists rest, splitlines (a ++ nl ++ b) = (splitlines a ++ rest)%list.
Proof.
  assert (H : forall n a b, (String.length a <= n)%nat ->
            exists rest, splitlines (a ++ nl ++ b) = (splitlines a ++ rest)%list).
  { induction n as [|n IH]; intros a b Hlen.
    - destruct a; [|simpl in Hlen; lia]. eexists. reflexivity.
    - destruct a as [|c a]; [eexists; reflexivity|]. simpl in Hlen.
      change (String c a ++ nl ++ b) with (String c (a ++ nl ++ b)).
      cbn [splitlines]. destruct (is_linebreak c) eqn:Ec.
      + destruct a as [|c' a'].
        * change (EmptyString ++ nl ++ b) with (String "010" b).
          eexists. rewrite <- app_comm_cons, app_nil_l. reflexivity.
        * change (String c' a' ++ nl ++ b) with (String c' (a' ++ nl ++ b)).
          cbv iota beta. simpl in Hlen.
          destruct ((code c =? 13)%N && (code c' =? 10)%N)%bool.
          -- destruct (IH a' b ltac:(lia)) as [rest ->]. exists rest. reflexivity.
          -- destruct (IH (String c' a') b ltac:(simpl; lia)) as [rest Hrest].
             change (String c' a' ++ nl ++ b) with (String c' (a' ++ nl ++ b)) in Hrest.
             rewrite Hrest. exists rest. reflexivity.
      + destruct (IH a b ltac:(lia)) as [rest Hrest]. rewrite Hrest.
        destruct (splitlines a) as [|l ls] eqn:Ea.
        * apply splitlines_nil in Ea. subst a.
          change (EmptyString ++ nl ++ b) with (String "010" b) in Hrest.
          cbn [splitlines] in Hrest. change (is_linebreak "010") with true in Hrest.
          cbv iota in Hrest. rewrite app_nil_l in Hrest. rewrite app_nil_l.
          rewrite <- Hrest. eexists. rewrite <- app_comm_cons, app_nil_l. reflexivity.
        * rewrite <- app_comm_cons. exists rest. reflexivity. }
  intros a b. apply (H (String.length a)). lia.
Qed.

Lemma rstrip_nl_keeps_front : forall a b,
  rstrip_nl b <> EmptyString -> rstrip_nl (a ++ b) = a ++ rstrip_nl b.
Proof.
  induction a as [|c a IH]; intros b Hb; [reflexivity|].
  change (String c a ++ b) with (String c (a ++ b)).
  rewrite StoreFacts.rstrip_nl_cons, (IH b Hb).
  change (String c a ++ rstrip_nl b) with (String c (a ++ rstrip_nl b)).
  destruct (a ++ rstrip_nl b) eqn:E.
  - destruct a; [simpl in E; contradiction|discriminate].
  - now rewrite andb_false_r.
Qed.

Lemma rstrip_nl_marker : forall tail,
  rstrip_nl ("<!--AGTAG v1 START-->" ++ tail) <> EmptyString.
Proof.
  intros tail. change ("<!--AGTAG v1 START-->" ++ tail)
    with (String "<" ("!--AGTAG v1 START-->" ++ tail)).
  rewrite StoreFacts.rstrip_nl_cons. change (code "<" =? 10)%N with false.
  discriminate.
Qed.

Lemma prefix_split : forall p s,
  String.prefix p s = true -> exists tail, s = p ++ tail.
Proof.
  induction p as [|c p IH]; intros s H.
  - exists s. reflexivity.
  - destruct s as [|x s]; [discriminate|]. simpl in H.
    destruct (ascii_dec c x) as [->|]; [|discriminate].
    destruct (IH s H) as [tail ->]. exists tail. reflexivity.
Qed.

(** What is written to disk begins with the code, line for line. *)
Lemma code_lines_on_disk : forall content code block,
  split_agtag content = (code, Some block) ->
  exists rest, splitlines (rstrip_nl content ++ nl) = (splitlines code ++ rest)%list.
Proof.
  intros content code block H. unfold split_agtag in H.
  destruct (rfind AGTAG_START content) as [i|] eqn:Hi; [|discriminate].
  destruct (contains AGTAG_END (drop i content)); [|discriminate].
  inversion H; subst; clear H.
  pose proof (CodecFacts.rfind_bound _ _ _ Hi) as Hb.
  pose proof (CodecFacts.rfind_start _ _ _ Hi) as Hs.
  apply prefix_split in Hs. destruct Hs as [tail Htail].
  replace (rstrip_nl content)
    with (rstrip_nl (String.substring 0 i content ++ drop i content))
    by (now rewrite (CodecFacts.substring_drop i content Hb)).
  rewrite Htail.
  set (code := String.substring 0 i content).
  change AGTAG_START with (nl ++ nl ++ "<!--AGTAG v1 START-->").
  rewrite !DiffFacts.append_assoc.
  rewrite (rstrip_nl_keeps_front code), (rstrip_nl_keeps_front nl),
          (rstrip_nl_keeps_front nl) by
    (try apply rstrip_nl_marker;
     rewrite ?rstrip_nl_keeps_front by apply rstrip_nl_marker; discriminate).
  rewrite !DiffFacts.append_assoc. apply splitlines_prefix.
Qed.

Lemma py_slice_within : forall (lines rest : list string) a b,
  1 <= a -> a <= b -> b <= Z.of_nat (List.length lines) ->
  py_slice (lines ++ rest) (a - 1) b = Diff.slice lines (a - 1) b.
Proof.
  intros lines rest a b Ha Hab Hb. unfold py_slice, Diff.slice.
  rewrite length_app.
  destruct (Z.ltb_spec (a - 1) 0); [lia|]. destruct (Z.ltb_spec b 0); [lia|].
  rewrite !Z.max_r, !Z.min_r by lia.
  rewrite skipn_app, firstn_app.
  replace (Z.to_nat (a - 1) - List.length lines)%nat with 0%nat by lia.
  rewrite length_skipn.
  replace (Z.to_nat (b - (a - 1)) - (List.length lines - Z.to_nat (a - 1)))%nat
    with 0%nat by lia.
  cbn [skipn firstn]. now rewrite app_nil_r.
Qed.

Section Disclosure.

Variable json_loads : string -> option json.
Variable sha256_hex : string -> string.
Variable json_dumps : json -> string.
Variable ast_parse : string -> ast_outcome.
Variable walk_before : symbol_row -> symbol_row -> bool.

Local Abbreviation sha256_bytes := (sha256_bytes sha256_hex).
Local Abbreviation hashed_slice := (hashed_slice sha256_hex).

Lemma symbol_row_of_hashed : forall repo_path full_content s row,
  symbol_row_of sha256_hex json_dumps repo_path full_content s = Ok row ->
  hashed_slice full_content row.
Proof.
  intros repo_path full_content s row H. unfold symbol_row_of in H.
  destruct (raw_lines s) as [[raw0 raw1]|]; [|discriminate].
  destruct (line_number raw0) as [[sl|]|]; destruct (line_number raw1) as [[el|]|];
    try discriminate;
    try (inversion H; subst; intros a b Ha Hb; simpl in Ha, Hb; discriminate).
  destruct ((sl <? 1) || (el <? sl))%bool eqn:E1; [discriminate|].
  destruct (el >? _) eqn:E2; [discriminate|].
  apply orb_false_elim in E1. destruct E1 as [E1 E1'].
  apply Z.ltb_ge in E1, E1'. rewrite Z.gtb_ltb in E2. apply Z.ltb_ge in E2.
  inversion H; subst; clear H. intros a b Ha Hb. simpl in Ha, Hb.
  inversion Ha; inversion Hb; subst. simpl. repeat split; auto.
Qed.

Lemma symbol_rows_of_hashed : forall repo_path full_content items rows,
  symbol_rows_of sha256_hex json_dumps repo_path full_content items = Ok rows ->
  Forall (hashed_slice full_content) rows.
Proof.
  intros repo_path full_content. induction items as [|s items IH]; intros rows H.
  - inversion H; subst. constructor.
  - cbn [symbol_rows_of] in H.
    destruct (symbol_row_of _ _ _ _ s) as [row|] eqn:Erow; [|discriminate].
    destruct (symbol_rows_of _ _ _ _ items) as [rows'|]; [|discriminate].
    inversion H; subst; clear H. constructor.
    + now apply (symbol_row_of_hashed repo_path full_content s).
    + now apply IH.
Qed.

Lemma stored_rows_hashed : forall full_content added rows,
  Forall2 (fun stored built => stored = with_id (sym_id stored) built) added rows ->
  Forall (hashed_slice full_content) rows ->
  Forall (hashed_slice full_content) added.
Proof.
  intros full_content added rows Hrel. induction Hrel as [|a b added rows Hab Hrel IH];
    intros Hall; [constructor|].
  inversion Hall as [|? ? Hb Hall']; subst. constructor; [|now apply IH].
  rewrite Hab. exact Hb.
Qed.

(** What a successful ingest to disk went through. *)
Lemma ingest_ok_parts : forall w path content r w',
  ingest_file_content json_loads sha256_hex json_dumps ast_parse w path content true
  = (Ok r, w') ->
  exists code block agtag w2,
    split_agtag content = (code, Some block)
    /\ upsert_symbols sha256_hex json_dumps ast_parse
         (write_file w path (rstrip_nl content ++ nl)) path agtag code = (Ok tt, w2)
    /\ symbols (live w') = symbols (live w2)
    /\ disk w' = disk w2.
Proof.
  intros w path content r w' H. unfold ingest_file_content in H.
  destruct (negb (String.eqb (file_state (live w) path) "missing")); [discriminate|].
  destruct (split_agtag content) as [code [block|]]; [|discriminate].
  destruct (parse_agtag_block json_loads block path) as [agtag|]; [|discriminate].
  destruct (upsert_symbols _ _ _ _ _ _ _) as [[[]|exc] w2] eqn:Eup;
    [|destruct (is_value_error exc); discriminate].
  inversion H; subst; clear H. exists code, block, agtag, w2. repeat split. exact Eup.
Qed.

(** What [zoom] at level 4 looked up and returned. *)
Lemma zoom_at_4 : forall w text h out,
  parse_handle text = Some h ->
  zoom json_loads walk_before w text 4 = Ok out ->
  exists r,
    In r (filter (fun s => (String.eqb (sym_path s) (h_repo_path h)
                            && (String.eqb (sym_name s) (h_symbol h)
                                || String.eqb (h_symbol h) "ANY"))%bool)
                 (symbols (live w)))
    /\ z_l0 (snd out) = sym_l0_overview r
    /\ forall on_disk, disk_read (h_repo_path h) (disk w) = Some on_disk ->
         z_l4 (snd out)
         = Some (join nl (py_slice (splitlines on_disk)
                            (or_int (sym_start_line r) 1 - 1)
                            (or_int (sym_end_line r)
                                    (Z.of_nat (List.length (splitlines on_disk)))))).
Proof.
  intros w text h out Hh H. unfold zoom in H. rewrite Hh in H.
  cbn [Z.ltb Z.gtb Z.geb Z.compare Pos.compare Pos.compare_cont orb] in H.
  destruct (stable_sort walk_before _) as [|r rows] eqn:Esort; [discriminate|].
  exists r. split.
  { apply (FocusFacts.in_stable_sort _ walk_before). rewrite Esort. now left. }
  destruct (match sym_l3_ast_json r with
            | Some text0 => if is_empty text0 then json_loads "{}" else json_loads text0
            | None => json_loads "{}"
            end) as [l3|]; [|discriminate].
  inversion H; subst; clear H. cbn [snd z_l0 z_l4]. split; [reflexivity|].
  intros on_disk Hd. rewrite Hd. reflexivity.
Qed.

(** X26. After an ingest, what [zoom] shows at level 4 is what was hashed:
    the row it answers from is a row of the file, and when that row carries
    both line numbers the slice of the file returned as [l4] has the digest
    recorded as the row's [content_hash]. *)
Theorem zoom_slice_is_what_was_hashed : forall w path content r w' text h out,
  ingest_file_content json_loads sha256_hex json_dumps ast_parse w path content true
  = (Ok r, w') ->
  parse_handle text = Some h ->
  h_repo_path h = path ->
  zoom json_loads walk_before w' text 4 = Ok out ->
  exists row,
    In row (symbols_in (live w') path)
    /\ (sym_name row = h_symbol h \/ h_symbol h = "ANY")
    /\ z_l0 (snd out) = sym_l0_overview row
    /\ forall a b, sym_start_line row = Some a -> sym_end_line row = Some b ->
         exists slice,
           z_l4 (snd out) = Some slice
           /\ sym_content_hash row = sha256_bytes (encode_utf8 slice).
Proof.
  intros w path content r w' text h out Hingest Hh Hpath Hzoom.
  pose proof (StoreFacts.ingest_success _ _ _ _ _ _ _ _ _ _ Hingest)
    as (_ & _ & _ & _ & Hdisk).
  apply ingest_ok_parts in Hingest.
  destruct Hingest as (code & block & agtag & w2 & Hsplit & Hup & Hsym & _).
  destruct (zoom_at_4 _ _ _ _ Hh Hzoom) as (row & Hfind & Hl0 & Hl4).
  apply filter_In in Hfind. destruct Hfind as [Hin Hmatch].
  apply andb_prop in Hmatch. destruct Hmatch as [Hp Hname].
  apply String.eqb_eq in Hp. rewrite Hpath in Hp.
  assert (Hrow : In row (symbols_in (live w') path)).
  { unfold symbols_in. apply filter_In. split; [exact Hin|]. now apply String.eqb_eq. }
  exists row. split; [exact Hrow|]. split.
  { apply orb_prop in Hname. destruct Hname as [Hn|Hn]; apply String.eqb_eq in Hn; auto. }
  split; [exact Hl0|].
  assert (Hhashed : hashed_slice code row).
  { apply RebuildFacts.upsert_ok in Hup.
    destruct Hup as (rows & Hrows & Hs2 & _). cbv zeta in Hs2.
    destruct (RebuildFacts.symbol_rows_of_fields _ _ _ _ _ _ Hrows) as (Hall & _).
    destruct (RebuildFacts.inserted_rows
                (live (write_file w path (rstrip_nl content ++ nl))) path rows Hall)
      as (added & _ & Hfilter & Hrel & _).
    pose proof (stored_rows_hashed code added rows Hrel
                  (symbol_rows_of_hashed _ _ _ _ Hrows)) as Hadded.
    rewrite Forall_forall in Hadded. apply Hadded.
    rewrite <- Hfilter, <- Hs2, <- Hsym. exact Hrow. }
  intros a b Ha Hb. destruct (Hhashed a b Ha Hb) as (H1 & H2 & H3 & Hhash).
  destruct (code_lines_on_disk _ _ _ Hsplit) as [rest Hlines].
  eexists. split.
  - rewrite (Hl4 (rstrip_nl content ++ nl)).
    + reflexivity.
    + rewrite Hpath, Hdisk. apply StoreFacts.disk_read_put.
  - rewrite Hhash, Ha, Hb. unfold or_int.
    destruct (Z.eqb_spec a 0); [lia|]. destruct (Z.eqb_spec b 0); [lia|].
    rewrite Hlines. now rewrite py_slice_within.
Qed.

End Disclosure.

Lemma zoom_slice_is_what_was_hashed_witness :
  exists row,
    In row (symbols_in (live (snd Sample.demo_ingest)) "src/focus_demo.py")
    /\ (sym_name row = h_symbol (mkHandle "src/focus_demo.py" "main" "sha256:ANY" None)
        \/ h_symbol (mkHandle "src/focus_demo.py" "main" "sha256:ANY" None) = "ANY")
    /\ z_l0 (snd Sample.demo_zoom_out) = sym_l0_overview row
    /\ forall a b, sym_start_line row = Some a -> sym_end_line row = Some b ->
         exists slice,
           z_l4 (snd Sample.demo_zoom_out) = Some slice
           /\ sym_content_hash row
              = Index.sha256_bytes Sha256.hexdigest (encode_utf8 slice).
Proof.
  apply (zoom_slice_is_what_was_hashed Sample.demo_loads_all Sha256.hexdigest Sample.dumps
           Sample.parse_demo Sample.index_order Sample.blank_world "src/focus_demo.py"
           Sample.demo_content
           ("src/focus_demo.py",
            Index.sha256_bytes Sha256.hexdigest (encode_utf8 Sample.demo_content))
           (snd Sample.demo_ingest) Sample.demo_handle
           (mkHandle "src/focus_demo.py" "main" "sha256:ANY" None)
           Sample.demo_zoom_out);
    vm_compute; reflexivity.
Defined.

End DisclosureFacts.


(** * The [ingest] command in directory mode *)

Module BulkFacts.
Import PyStr Agtag Store Index Ops Cli.

Section Bulk.

Variable json_loads : string -> option json.
Variable sha256_hex : string -> string.
Variable json_dumps : json -> string.
Variable ast_parse : string -> ast_outcome.
Variable cwd : string.
Variable generate_agtag : string -> string -> string.

Local Abbreviation ingest_file_content :=
  (ingest_file_content json_loads sha256_hex json_dumps ast_parse).
Local Abbreviation bulk_step :=
  (bulk_step json_loads sha256_hex json_dumps ast_parse cwd generate_agtag).
Local Abbreviation bulk_loop :=
  (bulk_loop json_loads sha256_hex json_dumps ast_parse cwd generate_agtag).
Local Abbreviation ingest_directory :=
  (ingest_directory json_loads sha256_hex json_dumps ast_parse cwd generate_agtag).
Local Abbreviation sha256_bytes := (sha256_bytes sha256_hex).

(** What every step keeps, the loop keeps, whether it ends or is left by an
    exception. *)
Lemma bulk_loop_keeps : forall auto_tag (P : bulk_state -> Prop),
  (forall st rel, P st -> P (snd (bulk_step auto_tag st rel))) ->
  forall paths st, P st -> P (snd (bulk_loop auto_tag paths st)).
Proof.
  intros auto_tag P Hstep. induction paths as [|rel paths IH]; intros st Hst.
  - exact Hst.
  - cbn [Cli.bulk_loop]. specialize (Hstep st rel Hst).
    destruct (Cli.bulk_step _ _ _ _ _ _ auto_tag st rel) as [[exc|] st'].
    + exact Hstep.
    + apply IH. exact Hstep.
Qed.

(** A failed ingest leaves the [files] table and the committed database. *)
Lemma ingest_err_files : forall w path content to_disk e w',
  ingest_file_content w path content to_disk = (Err e, w') ->
  files (live w') = files (live w) /\ durable w' = durable w.
Proof.
  intros w path content to_disk e w' H. unfold Ops.ingest_file_content in H.
  destruct (negb (String.eqb (file_state (live w) path) "missing"));
    [inversion H; subst; auto|].
  destruct (split_agtag content) as [code [block|]]; [|inversion H; subst; auto].
  destruct (parse_agtag_block json_loads block path) as [agtag|exc];
    [|inversion H; subst; auto].
  destruct (Index.upsert_symbols _ _ _ _ _ _ _) as [[u|exc] w2] eqn:Eup; [discriminate|].
  apply CommandFacts.upsert_err in Eup. destruct Eup as (Hdur & _ & _ & Hfiles & _).
  destruct (is_value_error exc); inversion H; subst; clear H;
    rewrite Hdur, Hfiles; destruct to_disk; auto.
Qed.

(** Without [write_to_disk] the working tree is not written. *)
Lemma ingest_keeps_tree : forall w path content r w',
  ingest_file_content w path content false = (r, w') -> disk w' = disk w.
Proof.
  intros w path content r w' H. unfold Ops.ingest_file_content in H.
  destruct (negb (String.eqb (file_state (live w) path) "missing"));
    [now inversion H|].
  destruct (split_agtag content) as [code [block|]]; [|now inversion H].
  destruct (parse_agtag_block json_loads block path) as [agtag|exc]; [|now inversion H].
  destruct (Index.upsert_symbols _ _ _ _ _ _ _) as [[u|exc] w2] eqn:Eup;
    apply StoreFacts.upsert_symbols_files in Eup; destruct Eup as [_ Hd];
    [|destruct (is_value_error exc)]; inversion H; subst; exact Hd.
Qed.

Lemma bulk_step_keeps_tree : forall w st rel,
  disk (bulk_world st) = disk w ->
  disk (bulk_world (snd (bulk_step false st rel))) = disk w.
Proof.
  intros w st rel Hst. unfold Cli.bulk_step.
  destruct (ensure_repo_relative_path cwd rel) as [safe_path|exc]; [|exact Hst].
  destruct (disk_read rel (disk (bulk_world st))) as [text|]; [|exact Hst].
  destruct (Ops.ingest_file_content _ _ _ _ _ _ _ _) as [[r|e] w'] eqn:E;
    apply ingest_keeps_tree in E; [|destruct e]; cbn [snd bulk_world]; congruence.
Qed.

(** X27. Without [--auto-tag], directory mode writes nothing to the working
    tree, whatever the files hold and whichever of them fail, and whether
    the run prints its report or is ended by an exception. *)
Theorem bulk_ingest_without_auto_tag_keeps_the_tree : forall w files,
  disk (snd (ingest_directory w files false)) = disk w.
Proof.
  intros w files. unfold Cli.ingest_directory.
  pose proof (bulk_loop_keeps false (fun st => disk (bulk_world st) = disk w)
                (fun st rel => bulk_step_keeps_tree w st rel)
                files (mkBulk [] [] w) eq_refl) as H.
  destruct (Cli.bulk_loop _ _ _ _ _ _ false files (mkBulk [] [] w)) as [[exc|] st];
    exact H.
Qed.

Lemma ingest_ok_other_row : forall w path content to_disk r w' q,
  ingest_file_content w path content to_disk = (Ok r, w') ->
  q <> path ->
  file_row_of (live w') q = file_row_of (live w) q.
Proof.
  intros w path content to_disk r w' q H Hq. unfold Ops.ingest_file_content in H.
  destruct (negb (String.eqb (file_state (live w) path) "missing")); [discriminate|].
  destruct (split_agtag content) as [code [block|]]; [|discriminate].
  destruct (parse_agtag_block json_loads block path) as [agtag|exc]; [|discriminate].
  destruct (Index.upsert_symbols _ _ _ _ _ _ _) as [[u|exc] w2] eqn:Eup;
    [|destruct (is_value_error exc); discriminate].
  apply StoreFacts.upsert_symbols_files in Eup. destruct Eup as [Hfiles _].
  inversion H; subst; clear H. cbn [commit with_live live].
  unfold file_row_of, log_op, upsert_file. cbn [files].
  rewrite (RebuildFacts.find_put_other (mkFile path _ "indexed")) by exact Hq.
  rewrite Hfiles. destruct to_disk; reflexivity.
Qed.

(** One file more, and every success so far still has its row, in the
    connection's view and in the committed database. *)
Lemma bulk_step_committed : forall auto_tag st rel,
  (forall p h, In (p, h) (successes st) ->
     file_row_of (live (bulk_world st)) p = Some (mkFile p h "indexed")
     /\ file_row_of (durable (bulk_world st)) p = Some (mkFile p h "indexed")) ->
  forall p h, In (p, h) (successes (snd (bulk_step auto_tag st rel))) ->
    file_row_of (live (bulk_world (snd (bulk_step auto_tag st rel)))) p
    = Some (mkFile p h "indexed")
    /\ file_row_of (durable (bulk_world (snd (bulk_step auto_tag st rel)))) p
       = Some (mkFile p h "indexed").
Proof.
  intros auto_tag st rel Hst p h. unfold Cli.bulk_step.
  destruct (ensure_repo_relative_path cwd rel) as [safe_path|exc]; [|apply Hst].
  destruct (disk_read rel (disk (bulk_world st))) as [text|]; [|apply Hst].
  destruct (Ops.ingest_file_content _ _ _ _ _ _ _ _) as [[r|e] w'] eqn:E.
  - cbn [snd successes bulk_world]. intros Hin.
    destruct (StoreFacts.ingest_success _ _ _ _ _ _ _ _ _ _ E)
      as (Hr & Hstate & Hrow & Hdur & _).
    rewrite Hdur. apply in_app_or in Hin. destruct Hin as [Hin|[Hin|[]]].
    + assert (Hne : p <> safe_path).
      { intros ->. destruct (Hst _ _ Hin) as [Hlive _].
        unfold file_state in Hstate. rewrite Hlive in Hstate. discriminate. }
      rewrite (ingest_ok_other_row _ _ _ _ _ _ p E Hne).
      split; apply (Hst _ _ Hin).
    + rewrite Hr in Hin. inversion Hin; subst. now split.
  - destruct (ingest_err_files _ _ _ _ _ _ E) as [Hfiles Hdur].
    destruct e; cbn [snd successes bulk_world]; intros Hin;
      unfold file_row_of; rewrite Hfiles, Hdur; apply (Hst _ _ Hin).
Qed.

(** X28. What directory mode reports as ingested is committed: each entry
    of [results] names a path whose row of [files], in the database the
    command leaves behind, has the reported hash and the state [indexed],
    whatever failed before or after it in the same run. *)
Theorem bulk_ingest_commits_what_it_reports :
  forall w files auto_tag report w' p h,
  ingest_directory w files auto_tag = (Ok report, w') ->
  In (p, h) (results report) ->
  file_row_of (durable w') p = Some (mkFile p h "indexed")
  /\ live w' = durable w'.
Proof.
  intros w files auto_tag report w' p h H Hin. unfold Cli.ingest_directory in H.
  pose proof (bulk_loop_keeps auto_tag
                (fun st => forall p h, In (p, h) (successes st) ->
                   file_row_of (live (bulk_world st)) p = Some (mkFile p h "indexed")
                   /\ file_row_of (durable (bulk_world st)) p
                      = Some (mkFile p h "indexed"))
                (fun st rel => bulk_step_committed auto_tag st rel)
                files (mkBulk [] [] w) (fun p0 h0 (F : In (p0, h0) []) => match F with end))
    as Hinv.
  destruct (Cli.bulk_loop _ _ _ _ _ _ auto_tag files (mkBulk [] [] w)) as [[exc|] st];
    [discriminate|].
  inversion H; subst; clear H. cbn [results] in Hin. cbn [exit durable live snd] in *.
  split; [|reflexivity]. apply (Hinv p h Hin).
Qed.

End Bulk.

Lemma bulk_ingest_commits_what_it_reports_witness :
  results Sample.demo_bulk_report
  = [("src/focus_demo.py", Index.sha256_bytes Sha256.hexdigest (encode_utf8 Sample.demo_content))]
  /\ ok Sample.demo_bulk_report = false
  /\ file_row_of (durable (snd Sample.demo_bulk)) "src/focus_demo.py"
     = Some (mkFile "src/focus_demo.py"
               (Index.sha256_bytes Sha256.hexdigest (encode_utf8 Sample.demo_content))
               "indexed").
Proof.
  split; [vm_compute; reflexivity|]. split; [vm_compute; reflexivity|].
  apply (bulk_ingest_commits_what_it_reports Sample.demo_loads Sha256.hexdigest
           Sample.dumps Sample.parse_demo "/repo" Sample.keep_text
           Sample.bulk_tree ["notes.md"; "src/focus_demo.py"] false
           Sample.demo_bulk_report (snd Sample.demo_bulk)).
  - vm_compute; reflexivity.
  - vm_compute. left. reflexivity.
Defined.

End BulkFacts.


(** * The [inventory] command *)

Module InventoryFacts.
Import PyStr Agtag Store Index Inventory.

Lemma get_count_bump : forall key k counts,
  get_count k (bump key counts)
  = get_count k counts + (if String.eqb key k then 1 else 0).
Proof.
  intros key k counts. unfold get_count.
  induction counts as [|[k0 n] counts IH]; cbn [bump List.find fst snd].
  - destruct (String.eqb key k); reflexivity.
  - destruct (String.eqb_spec k0 key) as [->|Hne]; cbn [List.find fst snd].
    + destruct (String.eqb key k); cbn [snd]; lia.
    + destruct (String.eqb_spec k0 k) as [->|Hk]; cbn [snd].
      * destruct (String.eqb_spec key k); [congruence|lia].
      * exact IH.
Qed.

(** A counter holds the number of items seen so far under its key. *)
Lemma counted : forall (A : Type) (key_of : A -> string) k (items : list A) counts,
  get_count k (fold_left (fun counts e => bump (key_of e) counts) items counts)
  = get_count k counts
    + Z.of_nat (List.length (filter (fun e => String.eqb (key_of e) k) items)).
Proof.
  intros A key_of k. induction items as [|e items IH]; intros counts; cbn [fold_left filter].
  - cbn [List.length]. lia.
  - rewrite IH, get_count_bump. destruct (String.eqb (key_of e) k); cbn [List.length]; lia.
Qed.

Section Listing.

Variable sha256_hex : string -> string.

Local Abbreviation inventory := (inventory sha256_hex).

(** X29. [inventory --summary] counts what it lists: the lines are the rows
    of [files], each once; [total] is their number; and each counter of
    [by_state] and of [by_status] is the number of lines with that state or
    that status, a key that is absent standing for zero. *)
Theorem inventory_summary_counts_the_lines : forall w entries sm,
  inventory w true = (entries, Some sm) ->
  Permutation (map en_row entries) (files (live w))
  /\ total sm = Z.of_nat (List.length entries)
  /\ (forall k, get_count k (by_state sm)
                = Z.of_nat (List.length
                              (filter (fun e => String.eqb (db_state (en_row e)) k) entries)))
  /\ (forall k, get_count k (by_status sm)
                = Z.of_nat (List.length
                              (filter (fun e => String.eqb (status e) k) entries))).
Proof.
  intros w entries sm H. unfold Inventory.inventory in H.
  inversion H; subst; clear H. cbn [total by_state by_status].
  split; [|split; [|split]].
  - rewrite map_map. cbn [entry_of en_row]. rewrite map_id.
    apply TraversalFacts.stable_sort_perm.
  - now rewrite length_map.
  - intros k. now rewrite counted.
  - intros k. now rewrite counted.
Qed.

End Listing.

Lemma inventory_summary_counts_the_lines_witness :
  Permutation (map en_row (fst Sample.demo_inventory)) (files (live (snd Sample.demo_bulk)))
  /\ total Sample.demo_summary = Z.of_nat (List.length (fst Sample.demo_inventory))
  /\ (forall k, get_count k (by_state Sample.demo_summary)
                = Z.of_nat (List.length
                              (filter (fun e => String.eqb (db_state (en_row e)) k)
                                      (fst Sample.demo_inventory))))
  /\ (forall k, get_count k (by_status Sample.demo_summary)
                = Z.of_nat (List.length
                              (filter (fun e => String.eqb (status e) k)
                                      (fst Sample.demo_inventory)))).
Proof.
  apply (inventory_summary_counts_the_lines Sha256.hexdigest (snd Sample.demo_bulk)).
  vm_compute. reflexivity.
Defined.

End InventoryFacts.


(** * Paths that [ensure_repo_relative_path] accepts *)

Module PathFacts.
Import PyStr Agtag Store Index Ops.
Import Query Integrity.


(** A component that [normpath] keeps as it is. *)
Lemma split_on_lacks : forall sep s, Forall (fun c => lacks sep c = true) (split_on sep s).
Proof.
  intros sep. induction s as [|c s IH]; cbn [split_on].
  - constructor; [reflexivity|constructor].
  - destruct (Ascii.eqb c sep) eqn:E.
    + constructor; [reflexivity|exact IH].
    + destruct (split_on sep s) as [|p ps]; inversion IH; subst.
      * constructor; [cbn [lacks]; now rewrite E|constructor].
      * constructor; [cbn [lacks]; rewrite E; assumption|assumption].
Qed.

Lemma split_on_whole : forall sep c, lacks sep c = true -> split_on sep c = [c].
Proof.
  intros sep. induction c as [|x c IH]; intros H; cbn [split_on]; [reflexivity|].
  cbn [lacks] in H. apply andb_prop in H. destruct H as [Hx Hc].
  apply negb_true_iff in Hx. rewrite Hx, (IH Hc). reflexivity.
Qed.

Lemma split_on_app : forall sep c rest,
  lacks sep c = true ->
  split_on sep (c ++ String sep rest) = c :: split_on sep rest.
Proof.
  intros sep. induction c as [|x c IH]; intros rest H.
  - cbn [append split_on]. now rewrite Ascii.eqb_refl.
  - cbn [lacks] in H. apply andb_prop in H. destruct H as [Hx Hc].
    apply negb_true_iff in Hx.
    change (String x c ++ String sep rest) with (String x (c ++ String sep rest)).
    cbn [split_on]. rewrite Hx, (IH rest Hc). reflexivity.
Qed.

Lemma split_on_join : forall c cs,
  Forall (fun c => lacks "/" c = true) (c :: cs) ->
  split_on "/" (join "/" (c :: cs)) = c :: cs.
Proof.
  intros c cs. revert c. induction cs as [|d cs IH]; intros c H.
  - inversion H; subst. now apply split_on_whole.
  - inversion H as [|? ? Hc Hrest]; subst.
    change (join "/" (c :: d :: cs)) with (c ++ String "/" (join "/" (d :: cs))).
    rewrite split_on_app by exact Hc. now rewrite IH.
Qed.

Lemma plain_parts : forall c,
  plain_component c = true ->
  is_empty c = false /\ String.eqb c "." = false /\ String.eqb c ".." = false
  /\ lacks "/" c = true.
Proof.
  intros c H. unfold plain_component in H.
  apply andb_prop in H. destruct H as [H H4].
  apply andb_prop in H. destruct H as [H H3].
  apply andb_prop in H. destruct H as [H1 H2].
  apply negb_true_iff in H1, H2, H3. auto.
Qed.

(** The stack of [normpath] on a relative path: plain components above,
    the [..] that could not be resolved below. *)
Lemma push_shape : forall acc comp,
  lacks "/" comp = true ->
  (exists k normal, acc = (normal ++ repeat ".." k)%list
                    /\ Forall (fun c => plain_component c = true) normal) ->
  exists k normal, normpath_push acc 0 comp = (normal ++ repeat ".." k)%list
                   /\ Forall (fun c => plain_component c = true) normal.
Proof.
  intros acc comp Hcomp (k & normal & -> & Hnormal). unfold normpath_push.
  destruct (is_empty comp) eqn:E1; cbn [orb]; [now exists k, normal|].
  destruct (String.eqb comp ".") eqn:E2; [now exists k, normal|].
  destruct (String.eqb_spec comp "..") as [->|E3]; cbn [negb orb].
  - destruct normal as [|c normal].
    + rewrite app_nil_l. destruct k as [|k]; cbn [repeat Nat.eqb andb orb].
      * exists 1%nat, []. split; [reflexivity|constructor].
      * exists (S (S k)), []. split; [reflexivity|constructor].
    + inversion Hnormal as [|? ? Hc Hrest]; subst.
      destruct (plain_parts _ Hc) as (_ & _ & Hdots & _).
      rewrite <- app_comm_cons. cbn [Nat.eqb andb orb]. rewrite Hdots.
      now exists k, normal.
  - exists k, (comp :: normal). split; [reflexivity|]. constructor; [|exact Hnormal].
    unfold plain_component. rewrite E1, E2, Hcomp.
    destruct (String.eqb_spec comp ".."); [contradiction|reflexivity].
Qed.

Lemma fold_shape : forall comps acc,
  Forall (fun c => lacks "/" c = true) comps ->
  (exists k normal, acc = (normal ++ repeat ".." k)%list
                    /\ Forall (fun c => plain_component c = true) normal) ->
  exists k normal,
    fold_left (fun acc c => normpath_push acc 0 c) comps acc = (normal ++ repeat ".." k)%list
    /\ Forall (fun c => plain_component c = true) normal.
Proof.
  induction comps as [|c comps IH]; intros acc Hall Hacc; [exact Hacc|].
  inversion Hall; subst. cbn [fold_left]. apply IH; [assumption|].
  now apply push_shape.
Qed.

Lemma fold_plain : forall cs acc,
  Forall (fun c => plain_component c = true) cs ->
  fold_left (fun acc c => normpath_push acc 0 c) cs acc = (List.rev cs ++ acc)%list.
Proof.
  induction cs as [|c cs IH]; intros acc H; [reflexivity|].
  inversion H as [|? ? Hc Hrest]; subst. cbn [fold_left List.rev].
  destruct (plain_parts _ Hc) as (H1 & H2 & H3 & _).
  unfold normpath_push at 2. rewrite H1, H2, H3. cbn [orb negb].
  rewrite (IH _ Hrest), <- app_assoc. reflexivity.
Qed.

Lemma rev_dots : forall k, List.rev (repeat ".." k) = repeat ".." k.
Proof.
  induction k as [|k IH]; [reflexivity|].
  cbn [repeat List.rev]. rewrite IH. symmetry. apply repeat_cons.
Qed.

(** What [normpath] returns when the result does not start with a slash. *)
Lemma normpath_relative : forall path,
  startswith (normpath path) "/" = false ->
  normpath path = "."
  \/ exists c cs,
       normpath path = join "/" (c :: cs)
       /\ c :: cs = List.rev (fold_left (fun acc c => normpath_push acc 0 c)
                                   (split_on "/" path) []).
Proof.
  intros path H. unfold normpath in *.
  destruct (is_empty path); [now left|].
  destruct (startswith path "/").
  - exfalso. destruct (startswith path "//" && negb (startswith path "///"))%bool;
      cbn [repeat_slash append is_empty] in H; unfold startswith in H;
      match type of H with
      | String.prefix _ (String _ ?r) = false =>
          pose proof (DiffFacts.prefix_app "/" r) as Hp; cbn [append] in Hp;
          rewrite Hp in H; discriminate
      end.
  - cbn [repeat_slash append] in *.
    destruct (List.rev (fold_left _ (split_on "/" path) [])) as [|c cs]; [now left|].
    destruct (is_empty (join "/" (c :: cs))) eqn:E; [now left|].
    right. exists c, cs. split; reflexivity.
Qed.

Lemma join_starts : forall c cs x,
  startswith (join "/" (String x c :: cs)) (String x EmptyString)
  = true.
Proof.
  intros c cs x. unfold startswith.
  destruct cs as [|d cs].
  - apply (DiffFacts.prefix_app (String x EmptyString) c).
  - apply (DiffFacts.prefix_app (String x EmptyString) (c ++ "/" ++ join "/" (d :: cs))).
Qed.

Section Paths.

Variable cwd : string.

Local Abbreviation ensure_repo_relative_path := (ensure_repo_relative_path cwd).

(** X30. A path that [ensure_repo_relative_path] accepts is returned in a
    normal form that stays below the working directory: it is [.] or a
    sequence of components none of which is empty, [.] or [..]; and checking
    the returned path again accepts it and returns it unchanged. *)
Theorem accepted_path_is_canonical : forall path safe_path,
  ensure_repo_relative_path path = Ok safe_path ->
  (safe_path = "." \/ forallb plain_component (split_on "/" safe_path) = true)
  /\ ensure_repo_relative_path safe_path = Ok safe_path.
Proof.
  intros path safe_path H. unfold Ops.ensure_repo_relative_path in H.
  destruct (startswith (normpath path) "/") eqn:E1; [discriminate|].
  destruct (startswith (normpath path) "..") eqn:E2; [discriminate|].
  destruct (negb (startswith (abspath cwd (normpath path)) (abspath cwd "." ++ "/"))
            && negb (String.eqb (abspath cwd (normpath path)) (abspath cwd ".")))%bool
    eqn:E3; [discriminate|].
  inversion H; subst; clear H.
  assert (Hshape : normpath path = "."
                   \/ exists c cs, normpath path = join "/" (c :: cs)
                                   /\ Forall (fun c => plain_component c = true) (c :: cs)).
  { destruct (normpath_relative path E1) as [Hdot|(c & cs & Hq & Hcs)]; [now left|].
    right. exists c, cs. split; [exact Hq|].
    destruct (fold_shape (split_on "/" path) [] (split_on_lacks "/"%char path))
      as (k & normal & Hacc & Hnormal).
    { exists 0%nat, []. split; [reflexivity|constructor]. }
    rewrite Hacc, rev_app_distr, rev_dots in Hcs.
    destruct k as [|k].
    - cbn [repeat] in Hcs. rewrite app_nil_l in Hcs. rewrite Hcs.
      apply Forall_rev. exact Hnormal.
    - exfalso. cbn [repeat] in Hcs. rewrite <- app_comm_cons in Hcs.
      inversion Hcs; subst. rewrite Hq in E2.
      assert (Hs : exists tail,
                 join "/" (".." :: repeat ".." k ++ List.rev normal)%list = ".." ++ tail).
      { destruct (repeat ".." k ++ List.rev normal)%list as [|d l];
          [exists EmptyString|exists ("/" ++ join "/" (d :: l))]; reflexivity. }
      destruct Hs as [tail Hs]. unfold startswith in E2.
      rewrite Hs, DiffFacts.prefix_app in E2. discriminate. }
  assert (Hidem : normpath (normpath path) = normpath path).
  { destruct Hshape as [->|(c & cs & -> & Hcs)]; [reflexivity|].
    inversion Hcs as [|? ? Hc Hrest]; subst.
    destruct (plain_parts _ Hc) as (Hne & _ & _ & Hslash).
    destruct c as [|x c]; [discriminate|].
    cbn [lacks] in Hslash. apply andb_prop in Hslash. destruct Hslash as [Hx _].
    apply negb_true_iff in Hx.
    assert (Hjoin : exists tail, join "/" (String x c :: cs) = String x tail).
    { destruct cs; eexists; reflexivity. }
    destruct Hjoin as [tail Htail].
    rewrite Ascii.eqb_sym in Hx.
    assert (Hpre : String.prefix "/" (String x tail) = false).
    { cbn [String.prefix]. destruct (ascii_dec "/"%char x) as [e|e]; [|reflexivity].
      subst x. rewrite Ascii.eqb_refl in Hx. discriminate. }
    rewrite Htail. unfold normpath. cbn [is_empty]. unfold startswith. rewrite Hpre.
    cbn [repeat_slash append]. rewrite <- Htail.
    rewrite split_on_join.
    2:{ rewrite Forall_forall in Hcs |- *. intros y Hy. now apply plain_parts, Hcs. }
    rewrite fold_plain by exact Hcs. rewrite app_nil_r, rev_involutive.
    rewrite Htail. reflexivity. }
  split.
  - destruct Hshape as [Hdot|(c & cs & Hq & Hcs)]; [now left|]. right.
    rewrite Hq, split_on_join.
    + apply forallb_forall. rewrite Forall_forall in Hcs. exact Hcs.
    + rewrite Forall_forall in Hcs |- *. intros y Hy. now apply plain_parts, Hcs.
  - unfold Ops.ensure_repo_relative_path. rewrite Hidem, E1, E2, E3. reflexivity.
Qed.

End Paths.

Lemma accepted_path_is_canonical_witness :
  ensure_repo_relative_path "/repo" "./src//lib/../example.py" = Ok "src/example.py"
  /\ ("src/example.py" = "."
      \/ forallb plain_component (split_on "/" "src/example.py") = true)
  /\ ensure_repo_relative_path "/repo" "src/example.py" = Ok "src/example.py".
Proof.
  split; [vm_compute; reflexivity|].
  apply (accepted_path_is_canonical "/repo" "./src//lib/../example.py").
  vm_compute; reflexivity.
Defined.

End PathFacts.
